(** * httpcache: Cache-Control parsing and the RFC 9111 storage decision

    A shallow embedding of the Go packages [httpcache] and
    [httpcache/internal/cachecontrol], followed by the properties of the
    tokenizer, the directive assembler, the directive classifier, the
    delta-seconds parser and [Config.CanStore].

    Conventions of the embedding.
    - A Go [string] is a [string] of bytes ([ascii]); [s[i]] is [get i s],
      [len(s)] is [String.length s] and [s[lo:hi]] is [slice s lo hi].
    - Byte offsets are [nat]; the sentinel [textStart = -1] of [Tokenize] is
      [None], an open text run starting at [t] is [Some t].
    - [uint64], [int64], [int] and [time.Duration] are [Z], with the
      wrap-around of every arithmetic step written out.
    - [iter.Seq] values are the finite lists of the elements they yield when
      consumed to the end (all callers in the package do so).
    - [http.Header] is a finite map from field names to value lists.
    - Functions of the standard library are written out where they work on
      bytes; their Unicode tables, [time.Parse], [http.CanonicalHeaderKey]
      and [slices.Sort] are parameters of what uses them. *)

From Stdlib Require Import ZArith Lia Bool.
From Stdlib Require Import Strings.String Strings.Ascii.
From Stdlib Require OrderedTypeEx.
From stdpp Require Import gmap strings list sorting.

(** The double quote and the backslash, written by their codes. *)
Definition dquote : ascii := "034"%char.
Definition backslash : ascii := "092"%char.

(** [s[lo:hi]], for [lo <= hi <= len(s)] as in every slice that the code
    takes. *)
Definition slice (s : string) (lo hi : nat) : string := substring lo (hi - lo) s.

(* ================================================================= *)
(** * Package cachecontrol *)

Module cachecontrol.

Inductive TokenType :=
| TokenTypeInvalid
| TokenTypeComma
| TokenTypeEquals
| TokenTypeSpace
| TokenTypeText.

Module Token.
Record t := mk { Type' : TokenType; Start : nat; End' : nat; Text : string }.
End Token.

Module Directive.
Record t := mk { Name : string; Value : string; HasValue : bool }.
End Directive.

Definition isControlCharacterOrSpace (c : ascii) : bool :=
  Nat.leb (nat_of_ascii c) 32 || Nat.eqb (nat_of_ascii c) 127.

(** The inner loop of the whitespace case: starting from [j], advance while
    [j < len(s)] and [s[j]] is a control character or space. *)
Fixpoint spaceRunEnd (s : string) (fuel j : nat) : nat :=
  match fuel with
  | O => j
  | S fuel' =>
      match get j s with
      | Some c => if isControlCharacterOrSpace c then spaceRunEnd s fuel' (S j) else j
      | None => j
      end
  end.

(** The quoted-string scan, entered at an opening quote at offset [i] with
    [j = i + 1]. It returns the offset of the closing quote together with the
    token text, or [None] when the input ends first (the [fallthrough]). *)
Fixpoint scanQuoted (s : string) (i fuel j : nat)
    (escaping : bool) (unescaped : string) (unescapedTo : nat) : option (nat * string) :=
  match fuel with
  | O => None
  | S fuel' =>
      match get j s with
      | None => None
      | Some c =>
          if escaping then
            scanQuoted s i fuel' (S j) false (unescaped +:+ String c EmptyString) (S j)
          else if Ascii.eqb c backslash then
            if unescapedTo <? j then
              scanQuoted s i fuel' (S j) true (unescaped +:+ slice s unescapedTo j) (S j)
            else
              scanQuoted s i fuel' (S j) true unescaped unescapedTo
          else if Ascii.eqb c dquote then
            Some (j, if 0 <? String.length unescaped
                     then unescaped +:+ slice s unescapedTo j
                     else slice s (S i) j)
          else
            scanQuoted s i fuel' (S j) escaping unescaped unescapedTo
      end
  end.

(** [if textStart != -1 && textStart < i { yield Text; textStart = -1 }] *)
Definition flushText (s : string) (textStart : option nat) (i : nat)
    : list Token.t * option nat :=
  match textStart with
  | Some t =>
      if t <? i then ([Token.mk TokenTypeText t i (slice s t i)], None)
      else ([], Some t)
  | None => ([], None)
  end.

(** The code after the main loop. *)
Definition finalText (s : string) (textStart : option nat) : list Token.t :=
  match textStart with
  | Some t => [Token.mk TokenTypeText t (String.length s) (slice s t (String.length s))]
  | None => []
  end.

(** One iteration of the main loop of [Tokenize] at offset [i]; [continue]
    stands for the remaining iterations, entered at the next offset. *)
Definition tokenizeBody (s : string) (continue : nat -> option nat -> list Token.t)
    (i : nat) (textStart : option nat) : list Token.t :=
  match get i s with
  | None => finalText s textStart
  | Some c =>
      if isControlCharacterOrSpace c then
        let '(pending, textStart) := flushText s textStart i in
        let j := spaceRunEnd s (String.length s - S i) (S i) in
        pending ++ Token.mk TokenTypeSpace i j (slice s i j) :: continue j textStart
      else if Ascii.eqb c "," then
        let '(pending, textStart) := flushText s textStart i in
        pending ++ Token.mk TokenTypeComma i (S i) "," :: continue (S i) textStart
      else if Ascii.eqb c "=" then
        let '(pending, textStart) := flushText s textStart i in
        pending ++ Token.mk TokenTypeEquals i (S i) "=" :: continue (S i) textStart
      else
        match textStart with
        | None =>
            if Ascii.eqb c dquote then
              match scanQuoted s i (String.length s - S i) (S i) false EmptyString (S i) with
              | Some (j, text) => Token.mk TokenTypeText i (S j) text :: continue (S j) None
              | None => continue (S i) (Some i)
              end
            else continue (S i) (Some i)
        | Some _ => continue (S i) textStart
        end
  end.

(** The main loop, bounded by [fuel] iterations. Every iteration moves [i]
    forward, so [len(s) - i] iterations are always enough
    (lemma [tokenizeLoop_fuel]). *)
Fixpoint tokenizeLoop (s : string) (fuel : nat) : nat -> option nat -> list Token.t :=
  match fuel with
  | O => fun _ textStart => finalText s textStart
  | S fuel' => tokenizeBody s (tokenizeLoop s fuel')
  end.

(** The tokens produced from offset [i] on, with text run state [textStart]. *)
Definition tokensFrom (s : string) (i : nat) (textStart : option nat) : list Token.t :=
  tokenizeLoop s (String.length s - i) i textStart.

Definition Tokenize (s : string) : list Token.t := tokensFrom s 0 None.

(** ** Parse: the directive assembler *)

Inductive parseState := stateName | stateValue.

(** The local variables of [Parse], together with the directives yielded so
    far. *)
Module Parser.
Record t := mk {
  state : parseState;
  name : string;
  value : string;
  lastToken : Token.t;
  yielded : list Directive.t }.
End Parser.

(** [if acc != "" && lastToken.Type == TokenTypeSpace { acc += lastToken.Text }]
    followed by [acc += token.Text]; the source writes these two statements
    once for the name and twice for the value. *)
Definition appendText (acc : string) (lastToken token : Token.t) : string :=
  let acc :=
    match Token.Type' lastToken with
    | TokenTypeSpace => if String.eqb acc "" then acc else acc +:+ Token.Text lastToken
    | _ => acc
    end in
  acc +:+ Token.Text token.

(** The body of the [switch state] statement. The [default] branches of the
    source panic; they are taken for [TokenTypeInvalid] only, which [Tokenize]
    never yields (lemma [Tokenize_types]), and are modelled as no-ops. *)
Definition parseSwitch (p : Parser.t) (token : Token.t) : Parser.t :=
  let '(Parser.mk state name value lastToken yielded) := p in
  match state with
  | stateName =>
      match Token.Type' token with
      | TokenTypeComma =>
          if String.eqb name "" then p
          else Parser.mk state "" value lastToken
                 (yielded ++ [Directive.mk name "" false])
      | TokenTypeEquals => Parser.mk stateValue name value lastToken yielded
      | TokenTypeSpace => p
      | TokenTypeText =>
          Parser.mk state (appendText name lastToken token) value lastToken yielded
      | TokenTypeInvalid => p
      end
  | stateValue =>
      match Token.Type' token with
      | TokenTypeComma =>
          Parser.mk stateName "" "" lastToken
            (yielded ++ [Directive.mk name value true])
      | TokenTypeEquals =>
          Parser.mk state name (appendText value lastToken token) lastToken yielded
      | TokenTypeSpace => p
      | TokenTypeText =>
          Parser.mk state name (appendText value lastToken token) lastToken yielded
      | TokenTypeInvalid => p
      end
  end.

(** One iteration of [for token := range Tokenize(s)]: the switch, then
    [lastToken = token]. *)
Definition parseStep (p : Parser.t) (token : Token.t) : Parser.t :=
  let p := parseSwitch p token in
  Parser.mk (Parser.state p) (Parser.name p) (Parser.value p) token (Parser.yielded p).

(** The code after the loop. *)
Definition parseFinish (p : Parser.t) : list Directive.t :=
  match Parser.state p with
  | stateName =>
      if String.eqb (Parser.name p) "" then Parser.yielded p
      else Parser.yielded p ++ [Directive.mk (Parser.name p) (Parser.value p) false]
  | stateValue =>
      Parser.yielded p ++ [Directive.mk (Parser.name p) (Parser.value p) true]
  end.

Definition parseInit : Parser.t :=
  Parser.mk stateName "" "" (Token.mk TokenTypeInvalid 0 0 "") [].

Definition Parse (s : string) : list Directive.t :=
  parseFinish (fold_left parseStep (Tokenize s) parseInit).

End cachecontrol.

(* ================================================================= *)
(** * Package httpcache *)

Module httpcache.

Local Open Scope Z_scope.

(** ** Machine integers and durations *)

Definition MaxInt64 : Z := 9223372036854775807.
Definition MaxUint64 : Z := 18446744073709551615.

(** Reduction of a mathematical result to a [uint64]. *)
Definition wrap_uint64 (z : Z) : Z := z mod 2 ^ 64.

(** Reduction of a mathematical result (or conversion of a [uint64]) to an
    [int64] in two's complement. *)
Definition wrap_int64 (z : Z) : Z :=
  let r := z mod 2 ^ 64 in if r <? 2 ^ 63 then r else r - 2 ^ 64.

(** [time.Second], in the nanoseconds of [time.Duration]. *)
Definition Second : Z := 1000000000.

(** ** Errors *)

#[warnings="-register-all"]
Inductive error :=
| errEmptyDeltaSeconds
| errInvalidDeltaSeconds
| ParseError (layout value : string)       (* *time.ParseError *)
| Errorf (message : string) (wrapped : error) (* fmt.Errorf(message + "%w", wrapped) *)
| Join (errs : list error).                (* errors.Join(errs...) *)

(** ** Functions of the Go standard library

    [strings.ToLower], [strings.Fields] (whose fields [strings.FieldsSeq]
    yields one by one) and [strings.TrimSpace] are defined on the runes of a
    string, with the tables of package [unicode] for case mapping and white
    space. On a string of ASCII bytes they work byte by byte, as written out
    below. What they return for a string that holds a byte above 127 is taken
    as given: the three functions of [Unicode]. *)

Class Unicode := {
  (* strings.ToLower(s), which is strings.Map(unicode.ToLower, s) there *)
  unicodeToLower : string -> string;
  (* strings.Fields(s), which is strings.FieldsFunc(s, unicode.IsSpace) there *)
  unicodeFields : string -> list string;
  (* strings.TrimSpace(s), which is strings.TrimFunc(s, unicode.IsSpace) *)
  unicodeTrimSpace : string -> string }.

(** Every byte of [s] is below [utf8.RuneSelf]. *)
Fixpoint isASCII (s : string) : bool :=
  match s with
  | EmptyString => true
  | String c s' => Nat.ltb (nat_of_ascii c) 128 && isASCII s'
  end.

Definition toLowerByte (c : ascii) : ascii :=
  let n := nat_of_ascii c in
  if Nat.leb 65 n && Nat.leb n 90 then ascii_of_nat (n + 32) else c.

(** The ASCII path of [strings.ToLower]. *)
Fixpoint lowerASCII (s : string) : string :=
  match s with
  | EmptyString => EmptyString
  | String c s' => String (toLowerByte c) (lowerASCII s')
  end.

(** [strings.ToLower] *)
Definition ToLower {U : Unicode} (s : string) : string :=
  if isASCII s then lowerASCII s else unicodeToLower s.

Definition asciiSpace (c : ascii) : bool :=
  let n := nat_of_ascii c in
  Nat.leb 9 n && Nat.leb n 13 || Nat.eqb n 32.

(** The ASCII path of [strings.Fields], [field] being the field under
    construction. *)
Fixpoint fieldsFrom (s : string) (field : string) : list string :=
  match s with
  | EmptyString => if String.eqb field "" then [] else [field]
  | String c s' =>
      if asciiSpace c then
        if String.eqb field "" then fieldsFrom s' "" else field :: fieldsFrom s' ""
      else fieldsFrom s' (field +:+ String c EmptyString)
  end.

(** [strings.Fields]; the result is never the nil slice. *)
Definition Fields {U : Unicode} (s : string) : list string :=
  if isASCII s then fieldsFrom s "" else unicodeFields s.

(** [strings.Join]. *)
Fixpoint StringsJoin (elems : list string) (sep : string) : string :=
  match elems with
  | [] => ""
  | [e] => e
  | e :: elems' => e +:+ sep +:+ StringsJoin elems' sep
  end.

(** ** Delta-seconds *)

(** The loop of [parseDeltaSeconds] over the remaining input, [d] being the
    accumulator. The source ranges over runes; a byte below 128 is its own
    rune, and the first byte of anything else decodes to a rune above ['9'],
    as does the byte itself here, so that the loop stops with the same error
    at the same place. *)
Fixpoint parseDeltaSecondsFrom (s : string) (d : Z) : Z + error :=
  match s with
  | EmptyString => inl d
  | String r s' =>
      let r := Z.of_nat (nat_of_ascii r) in
      if (r <? 48) || (r >? 57) then inr errInvalidDeltaSeconds
      else
        let d1 := d in
        let d1 := wrap_uint64 (d1 * 10) in
        let d1 := wrap_uint64 (d1 + (r - 48)) in
        let d1 := if d1 <? d then MaxUint64 else d1 in
        parseDeltaSecondsFrom s' d1
  end.

(** A Go result [(v, nil)] is [inl v], a result [(zero, err)] is [inr err]. *)
Definition parseDeltaSeconds (s : string) : Z + error :=
  if String.eqb s "" then inr errEmptyDeltaSeconds
  else parseDeltaSecondsFrom s 0.

Definition ParseAge (s : string) : Z + error :=
  match parseDeltaSeconds s with
  | inr err => inr err
  | inl d =>
      if (wrap_int64 d <? 0) || (wrap_int64 d >? MaxInt64 / Second)
      then inl MaxInt64
      else inl (wrap_int64 (wrap_int64 d * Second))
  end.

(** ** Directives *)

Module ExtensionDirective.
Record t := mk { Name : string; Value : string; HasValue : bool }.
End ExtensionDirective.

(** The conversion [ExtensionDirective(d)]. *)
Definition toExtension (d : cachecontrol.Directive.t) : ExtensionDirective.t :=
  ExtensionDirective.mk (cachecontrol.Directive.Name d)
    (cachecontrol.Directive.Value d) (cachecontrol.Directive.HasValue d).

Module RequestDirectives.
Record t := mk {
  MaxAge : Z;
  MaxStale : Z;
  MinFresh : Z;
  NoCache : bool;
  NoStore : bool;
  NoTransform : bool;
  OnlyIfCached : bool;
  Extensions : list ExtensionDirective.t }.

Definition zero : t := mk 0 0 0 false false false false [].
End RequestDirectives.

(** A header-name list is [None] for the nil slice and [Some l] for a
    non-nil slice, which may be empty. *)
Module ResponseDirectives.
Record t := mk {
  MaxAge : Z;
  MustRevalidate : bool;
  MustUnderstand : bool;
  NoCache : bool;
  NoCacheHeaders : option (list string);
  NoStore : bool;
  NoTransform : bool;
  Private : bool;
  PrivateHeaders : option (list string);
  ProxyRevalidate : bool;
  Public : bool;
  SMaxAge : Z;
  Extensions : list ExtensionDirective.t }.

Definition zero : t :=
  mk 0 false false false None false false false None false false 0 [].
End ResponseDirectives.

(** The body of the loop of [ParseRequestDirectives]: the struct [c] and the
    slice [errs] before and after the directive [d]. *)
Definition requestDirective {U : Unicode} (st : RequestDirectives.t * list error)
    (d : cachecontrol.Directive.t) : RequestDirectives.t * list error :=
  let '(c, errs) := st in
  let '(RequestDirectives.mk maxAge maxStale minFresh noCache noStore noTransform
          onlyIfCached extensions) := c in
  let name := ToLower (cachecontrol.Directive.Name d) in
  if String.eqb name "max-age" then
    match ParseAge (cachecontrol.Directive.Value d) with
    | inr err => (c, errs ++ [Errorf "invalid value for max-age: " err])
    | inl dur =>
        (RequestDirectives.mk dur maxStale minFresh noCache noStore noTransform
           onlyIfCached extensions, errs)
    end
  else if String.eqb name "max-stale" then
    match ParseAge (cachecontrol.Directive.Value d) with
    | inr err => (c, errs ++ [Errorf "invalid value for max-stale: " err])
    | inl dur =>
        (RequestDirectives.mk maxAge dur minFresh noCache noStore noTransform
           onlyIfCached extensions, errs)
    end
  else if String.eqb name "min-fresh" then
    match ParseAge (cachecontrol.Directive.Value d) with
    | inr err => (c, errs ++ [Errorf "invalid value for min-fresh: " err])
    | inl dur =>
        (RequestDirectives.mk maxAge maxStale dur noCache noStore noTransform
           onlyIfCached extensions, errs)
    end
  else if String.eqb name "no-cache" then
    (RequestDirectives.mk maxAge maxStale minFresh true noStore noTransform
       onlyIfCached extensions, errs)
  else if String.eqb name "no-store" then
    (RequestDirectives.mk maxAge maxStale minFresh noCache true noTransform
       onlyIfCached extensions, errs)
  else if String.eqb name "no-transform" then
    (RequestDirectives.mk maxAge maxStale minFresh noCache noStore true
       onlyIfCached extensions, errs)
  else if String.eqb name "only-if-cached" then
    (RequestDirectives.mk maxAge maxStale minFresh noCache noStore noTransform
       true extensions, errs)
  else
    (RequestDirectives.mk maxAge maxStale minFresh noCache noStore noTransform
       onlyIfCached (extensions ++ [toExtension d]), errs).

(** [if len(errs) > 0 { err = errors.Join(errs...) }]; [None] is the nil
    error. *)
Definition joinErrors (errs : list error) : option error :=
  match errs with
  | [] => None
  | _ => Some (Join errs)
  end.

Definition classifyRequest {U : Unicode} (ds : list cachecontrol.Directive.t)
    : RequestDirectives.t * list error :=
  fold_left requestDirective ds (RequestDirectives.zero, []).

Definition ParseRequestDirectives {U : Unicode} (header : string)
    : RequestDirectives.t * option error :=
  let '(c, errs) := classifyRequest (cachecontrol.Parse header) in
  (c, joinErrors errs).

(** The body of the loop of [ParseResponseDirectives]. *)
Definition responseDirective {U : Unicode} (st : ResponseDirectives.t * list error)
    (d : cachecontrol.Directive.t) : ResponseDirectives.t * list error :=
  let '(c, errs) := st in
  let '(ResponseDirectives.mk maxAge mustRevalidate mustUnderstand noCache
          noCacheHeaders noStore noTransform private privateHeaders
          proxyRevalidate public sMaxAge extensions) := c in
  let name := ToLower (cachecontrol.Directive.Name d) in
  if String.eqb name "max-age" then
    match ParseAge (cachecontrol.Directive.Value d) with
    | inr err => (c, errs ++ [Errorf "invalid value for max-age: " err])
    | inl dur =>
        (ResponseDirectives.mk dur mustRevalidate mustUnderstand noCache
           noCacheHeaders noStore noTransform private privateHeaders
           proxyRevalidate public sMaxAge extensions, errs)
    end
  else if String.eqb name "must-revalidate" then
    (ResponseDirectives.mk maxAge true mustUnderstand noCache
       noCacheHeaders noStore noTransform private privateHeaders
       proxyRevalidate public sMaxAge extensions, errs)
  else if String.eqb name "must-understand" then
    (ResponseDirectives.mk maxAge mustRevalidate true noCache
       noCacheHeaders noStore noTransform private privateHeaders
       proxyRevalidate public sMaxAge extensions, errs)
  else if String.eqb name "no-cache" then
    (ResponseDirectives.mk maxAge mustRevalidate mustUnderstand true
       (if cachecontrol.Directive.HasValue d
        then Some (Fields (cachecontrol.Directive.Value d)) else None)
       noStore noTransform private privateHeaders
       proxyRevalidate public sMaxAge extensions, errs)
  else if String.eqb name "no-store" then
    (ResponseDirectives.mk maxAge mustRevalidate mustUnderstand noCache
       noCacheHeaders true noTransform private privateHeaders
       proxyRevalidate public sMaxAge extensions, errs)
  else if String.eqb name "no-transform" then
    (ResponseDirectives.mk maxAge mustRevalidate mustUnderstand noCache
       noCacheHeaders noStore true private privateHeaders
       proxyRevalidate public sMaxAge extensions, errs)
  else if String.eqb name "private" then
    (ResponseDirectives.mk maxAge mustRevalidate mustUnderstand noCache
       noCacheHeaders noStore noTransform true
       (if cachecontrol.Directive.HasValue d
        then Some (Fields (cachecontrol.Directive.Value d)) else None)
       proxyRevalidate public sMaxAge extensions, errs)
  else if String.eqb name "proxy-revalidate" then
    (ResponseDirectives.mk maxAge mustRevalidate mustUnderstand noCache
       noCacheHeaders noStore noTransform private privateHeaders
       true public sMaxAge extensions, errs)
  else if String.eqb name "public" then
    (ResponseDirectives.mk maxAge mustRevalidate mustUnderstand noCache
       noCacheHeaders noStore noTransform private privateHeaders
       proxyRevalidate true sMaxAge extensions, errs)
  else if String.eqb name "s-maxage" then
    match ParseAge (cachecontrol.Directive.Value d) with
    | inr err => (c, errs ++ [Errorf "invalid value for s-maxage: " err])
    | inl dur =>
        (ResponseDirectives.mk maxAge mustRevalidate mustUnderstand noCache
           noCacheHeaders noStore noTransform private privateHeaders
           proxyRevalidate public dur extensions, errs)
    end
  else
    (ResponseDirectives.mk maxAge mustRevalidate mustUnderstand noCache
       noCacheHeaders noStore noTransform private privateHeaders
       proxyRevalidate public sMaxAge (extensions ++ [toExtension d]), errs).

Definition classifyResponse {U : Unicode} (ds : list cachecontrol.Directive.t)
    : ResponseDirectives.t * list error :=
  fold_left responseDirective ds (ResponseDirectives.zero, []).

Definition ParseResponseDirectives {U : Unicode} (header : string)
    : ResponseDirectives.t * option error :=
  let '(c, errs) := classifyResponse (cachecontrol.Parse header) in
  (c, joinErrors errs).

(** ** Requests, responses and the configuration *)

(** [h[key]] for an [http.Header]: the nil slice when the key is absent. *)
Definition values (h : gmap string (list string)) (key : string) : list string :=
  default [] (h !! key).

Module Request.
Record t := mk {
  Method : string;
  URL : option string;
  Header : gmap string (list string) }.
End Request.

Module Response.
Record t := mk {
  StatusCode : Z;
  Header : gmap string (list string);
  Trailer : gmap string (list string) }.
End Response.

(** A function-typed field is [None] when it is nil. *)
Module Config.
Record t := mk {
  CacheableByExtension : option (Request.t -> Response.t -> bool);
  CanUnderstandResponseCode : option (Z -> bool);
  IgnoreRequestDirectiveNoStore : bool;
  IsHeuristicallyCacheableStatusCode : option (Z -> bool);
  Private : bool;
  RespectPrivateHeaders : bool;
  StoreProxyHeaders : bool;
  SupportedRequestMethod : option (string -> bool) }.

(** [Config{}] *)
Definition zero : t := mk None None false None false false false None.
End Config.

Definition HeuristicallyCacheableStatusCodes : list Z :=
  [200; 203; 204; 206; 300; 301; 308; 404; 405; 410; 414; 501].

(** [slices.Contains] on status codes. *)
Definition containsCode (codes : list Z) (code : Z) : bool :=
  existsb (Z.eqb code) codes.

Definition cacheableByExtension (c : Config.t) (req : Request.t) (resp : Response.t) : bool :=
  match Config.CacheableByExtension c with
  | None => false
  | Some f => f req resp
  end.

Definition canUnderstandResponseCode (c : Config.t) (code : Z) : bool :=
  match Config.CanUnderstandResponseCode c with
  | None => false
  | Some f => f code
  end.

Definition isHeuristicallyCacheableStatusCode (c : Config.t) (code : Z) : bool :=
  match Config.IsHeuristicallyCacheableStatusCode c with
  | None => containsCode HeuristicallyCacheableStatusCodes code
  | Some f => f code
  end.

Definition supportedRequestMethod (c : Config.t) (method : string) : bool :=
  match Config.SupportedRequestMethod c with
  | None => String.eqb method "GET" || String.eqb method "HEAD" || String.eqb method "QUERY"
  | Some f => f method
  end.

(** [Request.Authorized] *)
Definition Authorized (r : Request.t) : bool :=
  negb (Nat.eqb (length (values (Request.Header r) "Authorization")) 0).

(** [Request.Directives] *)
Definition RequestDirectivesOf {U : Unicode} (r : Request.t) : RequestDirectives.t * option error :=
  ParseRequestDirectives (StringsJoin (values (Request.Header r) "Cache-Control") ", ").

(** [Response.Directives] *)
Definition ResponseDirectivesOf {U : Unicode} (r : Response.t) : ResponseDirectives.t * option error :=
  ParseResponseDirectives (StringsJoin (values (Response.Header r) "Cache-Control") ", ").

Section Expires.

Context {U : Unicode}.

(** [time.Parse] of the standard library, taken as given. A [time.Time] is
    an integer offset from the zero time, so that [t.IsZero()] is [t = 0];
    a failed parse returns the zero time with the error. *)
Variable timeParse : string -> string -> Z + error.

Definition ParseExpires (s : string) : Z + error :=
  timeParse "Mon, 02 Jan 2006 15:04:05 GMT" s.

(** [Response.Expires] *)
Definition Expires (r : Response.t) : Z + error :=
  let ss := values (Response.Header r) "Expires" in
  if Nat.eqb (length ss) 0 then inl 0
  else ParseExpires (StringsJoin ss ", ").

(** The first component of a Go result pair whose error is discarded. *)
Definition timeOf (r : Z + error) : Z :=
  match r with
  | inl t => t
  | inr _ => 0
  end.

(** [Config.CanStore]. Each [if ... { return false }] of the source is one
    [if ... then false else] here, in the same order. *)
Definition CanStore (c : Config.t) (req : Request.t) (resp : Response.t) : bool :=
  if negb (supportedRequestMethod c (Request.Method req)) then false else
  if Response.StatusCode resp <? 200 then false else
  let respDirectives := fst (ResponseDirectivesOf resp) in
  if ((Response.StatusCode resp =? 206) || (Response.StatusCode resp =? 304)
      || ResponseDirectives.MustUnderstand respDirectives)
     && negb (canUnderstandResponseCode c (Response.StatusCode resp))
  then false else
  if ResponseDirectives.NoStore respDirectives then false else
  if negb (Config.Private c) && ResponseDirectives.Private respDirectives
     && (negb (Config.RespectPrivateHeaders c)
         || Nat.eqb (length (default [] (ResponseDirectives.PrivateHeaders respDirectives))) 0)
  then false else
  if negb (Config.Private c) && Authorized req
     && negb (ResponseDirectives.MustRevalidate respDirectives)
     && negb (ResponseDirectives.Public respDirectives)
     && (ResponseDirectives.SMaxAge respDirectives <=? 0)
  then false else
  let respExpires := timeOf (Expires resp) in
  if negb
       (ResponseDirectives.Public respDirectives
        || (Config.Private c && ResponseDirectives.Private respDirectives)
        || negb (respExpires =? 0)
        || (ResponseDirectives.MaxAge respDirectives >? 0)
        || (negb (Config.Private c) && (ResponseDirectives.SMaxAge respDirectives >? 0))
        || cacheableByExtension c req resp
        || isHeuristicallyCacheableStatusCode c (Response.StatusCode resp))
  then false else
  if negb (Config.IgnoreRequestDirectiveNoStore c)
     && RequestDirectives.NoStore (fst (RequestDirectivesOf req))
  then false else
  true.

End Expires.

(** ** The other methods of requests, responses and the configuration *)

(** [strings.SplitSeq(s, sep)] for a one-byte separator: the pieces between
    the separators, [piece] being the one under construction. *)
Fixpoint splitFrom (sep : ascii) (s : string) (piece : string) : list string :=
  match s with
  | EmptyString => [piece]
  | String c s' =>
      if Ascii.eqb c sep then piece :: splitFrom sep s' ""
      else splitFrom sep s' (piece +:+ String c EmptyString)
  end.

Definition SplitSeq (s : string) (sep : ascii) : list string := splitFrom sep s "".

(** The ASCII path of [strings.TrimSpace]. *)
Fixpoint trimLeft (s : string) : string :=
  match s with
  | EmptyString => EmptyString
  | String c s' => if asciiSpace c then trimLeft s' else s
  end.

Fixpoint trimRight (s : string) : string :=
  match s with
  | EmptyString => EmptyString
  | String c s' =>
      match trimRight s' with
      | EmptyString => if asciiSpace c then EmptyString else String c EmptyString
      | t => String c t
      end
  end.

(** [strings.TrimSpace] *)
Definition TrimSpace {U : Unicode} (s : string) : string :=
  if isASCII s then trimRight (trimLeft s) else unicodeTrimSpace s.

(** [Response.Age] *)
Definition Age (r : Response.t) : Z + error :=
  let ss := values (Response.Header r) "Age" in
  if Nat.eqb (length ss) 0 then inl 0
  else ParseAge (StringsJoin ss ", ").

(** [ExtensionDirective.String] *)
Definition ExtensionString (e : ExtensionDirective.t) : string :=
  if ExtensionDirective.HasValue e then
    ExtensionDirective.Name e +:+ String "=" (String dquote EmptyString)
      +:+ ExtensionDirective.Value e +:+ String dquote EmptyString
  else ExtensionDirective.Name e.

Section HeaderKeys.

Context {U : Unicode}.

(** [http.CanonicalHeaderKey], which is [textproto.CanonicalMIMEHeaderKey],
    of the standard library, taken as given. *)
Variable CanonicalHeaderKey : string -> string.

(** [for header := range names { delete(headers, http.CanonicalHeaderKey(header)) }] *)
Definition deleteNamed (names : list string) (headers : gmap string (list string))
    : gmap string (list string) :=
  fold_left (fun headers header => delete (CanonicalHeaderKey header) headers)
    names headers.

(** [Config.RemoveUnstorableHeaders]. The source updates the map in place;
    here the updated map is the result. [strings.FieldsSeq] yields the
    strings that [strings.Fields] returns, in the same order. *)
Definition RemoveUnstorableHeaders (c : Config.t) (headers : gmap string (list string))
    : gmap string (list string) :=
  let connection := values headers "Connection" in
  let headers := delete "Connection" headers in
  let headers :=
    fold_left (fun headers tokens => deleteNamed (Fields tokens) headers)
      connection headers in
  let headers :=
    if Config.RespectPrivateHeaders c
       && Nat.ltb 0 (length (values headers "Cache-Control"))
    then
      let directives :=
        fst (ParseResponseDirectives (StringsJoin (values headers "Cache-Control") ",")) in
      deleteNamed (default [] (ResponseDirectives.PrivateHeaders directives)) headers
    else headers in
  if negb (Config.StoreProxyHeaders c) then
    delete "Proxy-Authorization"
      (delete "Proxy-Authentication-Info" (delete "Proxy-Authenticate" headers))
  else headers.

(** [slices.Sort] on strings, taken as given. *)
Variable slicesSort : list string -> list string.

(** The names gathered by the first loop of [Response.Vary]. *)
Definition varyNames (r : Response.t) : list string :=
  flat_map
    (fun vary =>
       map (fun header => CanonicalHeaderKey (TrimSpace header)) (SplitSeq vary ","))
    (values (Response.Header r) "Vary").

(** [headers[i]]; every index used by [Response.Vary] is within bounds. *)
Definition at' (headers : list string) (i : nat) : string := default "" (headers !! i).

(** One iteration of the second loop of [Response.Vary]: the slice and
    [last], before and after index [i]. *)
Definition varyStep (st : list string * nat) (i : nat) : list string * nat :=
  let '(headers, last) := st in
  if String.eqb (at' headers i) (at' headers last) then (headers, last)
  else (<[S last := at' headers i]> headers, S last).

(** The slice [sorted] that the second loop leaves of a non-empty slice. *)
Definition varyCompact (headers : list string) : list string :=
  let '(headers, last) := fold_left varyStep (seq 0 (length headers)) (headers, 0%nat) in
  take (S last) headers.

(** [Response.Vary]; [None] is the nil slice returned when no name is
    found. *)
Definition Vary (r : Response.t) : option (list string) :=
  let headers := varyNames r in
  if Nat.eqb (length headers) 0 then None
  else Some (varyCompact (slicesSort headers)).

End HeaderKeys.


(** ** Writing directives *)

(** [strconv.Itoa] of the standard library on an [int] of 64 bits: the
    decimal digits, most significant first, after a minus sign for a
    negative number. The digits are produced from the last one on; twenty
    rounds are more than an [int] has digits. *)
Definition digitByte (n : Z) : ascii := ascii_of_nat (48 + Z.to_nat n).

Fixpoint formatDigits (fuel : nat) (n : Z) (acc : string) : string :=
  match fuel with
  | O => acc
  | S fuel' =>
      let acc := String (digitByte (n mod 10)) acc in
      if n <? 10 then acc else formatDigits fuel' (n / 10) acc
  end.

Definition Itoa (n : Z) : string :=
  if n <? 0 then String "-" (formatDigits 20 (- n) "") else formatDigits 20 n "".

(** [strconv.Itoa(int(d/time.Second))]; the division of Go truncates, and
    the conversion to [int] keeps an [int64] as it is. *)
Definition secondsOf (d : Z) : string := Itoa (Z.quot d Second).

(** [if cond { ss = append(ss, s) }] *)
Definition appendIf (cond : bool) (ss : list string) (s : string) : list string :=
  if cond then ss ++ [s] else ss.

(** [for _, ext := range d.Extensions { ss = append(ss, ext.String()) }] *)
Definition appendExtensions (ss : list string) (extensions : list ExtensionDirective.t)
    : list string :=
  fold_left (fun ss ext => ss ++ [ExtensionString ext]) extensions ss.

(** [RequestDirectives.String] *)
Definition RequestString (d : RequestDirectives.t) : string :=
  let ss := [] in
  let ss := appendIf (RequestDirectives.MaxAge d >? 0) ss
              ("max-age=" +:+ secondsOf (RequestDirectives.MaxAge d)) in
  let ss := appendIf (RequestDirectives.MaxStale d >? 0) ss
              ("max-stale=" +:+ secondsOf (RequestDirectives.MaxStale d)) in
  let ss := appendIf (RequestDirectives.MinFresh d >? 0) ss
              ("min-fresh=" +:+ secondsOf (RequestDirectives.MinFresh d)) in
  let ss := appendIf (RequestDirectives.NoCache d) ss "no-cache" in
  let ss := appendIf (RequestDirectives.NoStore d) ss "no-store" in
  let ss := appendIf (RequestDirectives.NoTransform d) ss "no-transform" in
  let ss := appendIf (RequestDirectives.OnlyIfCached d) ss "only-if-cached" in
  let ss := appendExtensions ss (RequestDirectives.Extensions d) in
  StringsJoin ss ", ".

(** The two forms of [no-cache] and [private] in
    [ResponseDirectives.String]: with the header names between quotes when
    there are any, bare otherwise. *)
Definition appendNames (ss : list string) (name : string) (headers : option (list string))
    : list string :=
  if Nat.ltb 0 (length (default [] headers)) then
    ss ++ [name +:+ String "=" (String dquote EmptyString)
             +:+ StringsJoin (default [] headers) " " +:+ String dquote EmptyString]
  else ss ++ [name].

(** [ResponseDirectives.String] *)
Definition ResponseString (d : ResponseDirectives.t) : string :=
  let ss := [] in
  let ss := appendIf (ResponseDirectives.MaxAge d >? 0) ss
              ("max-age=" +:+ secondsOf (ResponseDirectives.MaxAge d)) in
  let ss := appendIf (ResponseDirectives.MustRevalidate d) ss "must-revalidate" in
  let ss := appendIf (ResponseDirectives.MustUnderstand d) ss "must-understand" in
  let ss := if ResponseDirectives.NoCache d
            then appendNames ss "no-cache" (ResponseDirectives.NoCacheHeaders d)
            else ss in
  let ss := appendIf (ResponseDirectives.NoStore d) ss "no-store" in
  let ss := appendIf (ResponseDirectives.NoTransform d) ss "no-transform" in
  let ss := if ResponseDirectives.Private d
            then appendNames ss "private" (ResponseDirectives.PrivateHeaders d)
            else ss in
  let ss := appendIf (ResponseDirectives.ProxyRevalidate d) ss "proxy-revalidate" in
  let ss := appendIf (ResponseDirectives.Public d) ss "public" in
  let ss := appendIf (ResponseDirectives.SMaxAge d >? 0) ss
              ("s-maxage=" +:+ secondsOf (ResponseDirectives.SMaxAge d)) in
  let ss := appendExtensions ss (ResponseDirectives.Extensions d) in
  StringsJoin ss ", ".
End httpcache.

(* ================================================================= *)
(** * Specification vocabulary *)

Import cachecontrol httpcache.

(** A stand-in for the Unicode paths of the library, for the sample inputs:
    these are ASCII, where the library does not take those paths. *)
Definition sampleUnicode : Unicode :=
  {| unicodeToLower := fun s => s;
     unicodeFields := fun s => [s];
     unicodeTrimSpace := fun s => s |}.

(** All that follows holds whatever the Unicode paths of the library
    return. *)
Section Library.

Context {U : Unicode}.

(** ** Token spans *)

(** The spans of [tokens], in order, tile the byte range [[from, to)]: each
    token starts where the previous one ended, none is empty, the first
    starts at [from] and the last ends at [to]. *)
Fixpoint contiguous (from : nat) (tokens : list Token.t) (to : nat) : Prop :=
  match tokens with
  | [] => from = to
  | token :: tokens' =>
      Token.Start token = from /\ (from < Token.End' token)%nat /\
      contiguous (Token.End' token) tokens' to
  end.

(** A token type that [Tokenize] may yield. *)
Definition validType (token : Token.t) : Prop := Token.Type' token <> TokenTypeInvalid.

(** The offset at which the next token to be yielded starts. *)
Definition pendingFrom (textStart : option nat) (i : nat) : nat :=
  match textStart with
  | Some t => t
  | None => i
  end.

(** An open text run started before the current offset. *)
Definition openBefore (textStart : option nat) (i : nat) : Prop :=
  match textStart with
  | Some t => (t < i)%nat
  | None => True
  end.


(** The bytes that end an unquoted text run. *)
Definition isDelimiter (c : ascii) : bool :=
  isControlCharacterOrSpace c || Ascii.eqb c "," || Ascii.eqb c "=".

(** Offset [k] ends a text run of [s]: the input ends there or a delimiter
    stands there. *)
Definition runEndsAt (s : string) (k : nat) : Prop :=
  k = String.length s \/ exists c, get k s = Some c /\ isDelimiter c = true.

(** Every byte of [w] satisfies [p]. *)
Fixpoint allBytes (p : ascii -> bool) (w : string) : bool :=
  match w with
  | EmptyString => true
  | String c w' => p c && allBytes p w'
  end.

(** [w] is empty or its first byte satisfies [p]. *)
Definition endOr (p : ascii -> bool) (w : string) : bool :=
  match w with
  | EmptyString => true
  | String c _ => p c
  end.

(** A word: a non-empty string without delimiters and without quotes. *)
Definition wordByte (c : ascii) : bool := negb (isDelimiter c) && negb (Ascii.eqb c dquote).

Definition isWord (w : string) : bool := negb (String.eqb w "") && allBytes wordByte w.


(** ** Decimal numerals *)

Definition isDigit (c : ascii) : bool :=
  Nat.leb 48 (nat_of_ascii c) && Nat.leb (nat_of_ascii c) 57.

(** A non-empty string of ASCII digits. *)
Definition isDigits (s : string) : bool :=
  negb (String.eqb s "") && allBytes isDigit s.

(** The number that the digits of [s] denote, to the right of the digits
    already read as [acc]; no bound applies. *)
Fixpoint decimalFrom (acc : Z) (s : string) : Z :=
  match s with
  | EmptyString => acc
  | String c s' => decimalFrom (10 * acc + (Z.of_nat (nat_of_ascii c) - 48)) s'
  end.

Definition decimalValue (s : string) : Z := decimalFrom 0 s.

(** ** Reading a directive list from its end *)

(** The last directive of [ds] whose lower-cased name is [name]. *)
Fixpoint lastNamed (name : string) (ds : list Directive.t) : option Directive.t :=
  match ds with
  | [] => None
  | d :: ds' =>
      match lastNamed name ds' with
      | Some d' => Some d'
      | None => if String.eqb (ToLower (Directive.Name d)) name then Some d else None
      end
  end.

(** The delta-seconds value of a directive, when it parses. *)
Definition parsedAge (d : Directive.t) : option Z :=
  match ParseAge (Directive.Value d) with
  | inl dur => Some dur
  | inr _ => None
  end.

(** The value of the last directive of [ds] named [name] whose value parses
    as delta-seconds. *)
Fixpoint lastParsedAge (name : string) (ds : list Directive.t) : option Z :=
  match ds with
  | [] => None
  | d :: ds' =>
      match lastParsedAge name ds' with
      | Some dur => Some dur
      | None =>
          if String.eqb (ToLower (Directive.Name d)) name then parsedAge d else None
      end
  end.

(** The header-name list that a [no-cache] or [private] directive carries. *)
Definition headerNames (d : option Directive.t) : option (list string) :=
  match d with
  | Some d =>
      if Directive.HasValue d then Some (Fields (Directive.Value d)) else None
  | None => None
  end.

Definition present (d : option Directive.t) : bool :=
  match d with
  | Some _ => true
  | None => false
  end.

(** The error that a response directive contributes: one for a [max-age] or
    [s-maxage] whose value does not parse, none otherwise. *)
Definition numericError (d : Directive.t) : list error :=
  let name := ToLower (Directive.Name d) in
  if String.eqb name "max-age" || String.eqb name "s-maxage" then
    match ParseAge (Directive.Value d) with
    | inl _ => []
    | inr err => [Errorf ("invalid value for " +:+ name +:+ ": ") err]
    end
  else [].

Definition numericErrors (ds : list Directive.t) : list error :=
  flat_map numericError ds.

(** ** Sample inputs *)

(** A [time.Parse] that rejects every input; the samples carry no [Expires]
    header. *)
Definition rejectTime (layout value : string) : Z + error := inr (ParseError layout value).

Definition sampleGet : Request.t := Request.mk "GET" None ∅.

Definition sampleAuthorizedGet : Request.t :=
  Request.mk "GET" None {[ "Authorization" := ["Basic dXNlcjpwYXNz"] ]}.

Definition sampleResponse (cacheControl : string) : Response.t :=
  Response.mk 200 {[ "Cache-Control" := [cacheControl] ]} ∅.

Definition samplePlainResponse : Response.t := Response.mk 200 ∅ ∅.

Definition privateConfig : Config.t :=
  Config.mk None None false None true false false None.

(** ** Proof automation *)

(** Case analysis on the name of a directive, along the [switch] of the
    classifier. *)
Ltac by_name :=
  repeat match goal with
         | |- context [String.eqb ?n ?lit] =>
             destruct (String.eqb_spec n lit) as [->|?]; cbn
         end.

(** What one step of [responseDirective] does to one field. *)
Ltac step_fact :=
  intros [c errs] d; destruct c; unfold responseDirective, numericError, parsedAge;
  cbn [fst snd ResponseDirectives.MaxAge ResponseDirectives.SMaxAge
       ResponseDirectives.Private ResponseDirectives.PrivateHeaders
       ResponseDirectives.NoCache ResponseDirectives.NoCacheHeaders];
  generalize (ToLower (Directive.Name d)); intros name;
  by_name; try destruct (ParseAge (Directive.Value d)); cbn;
  rewrite ?app_nil_r, ?orb_false_r, ?orb_true_r; reflexivity.

(** ** The vocabulary of the classifiers *)

Definition requestNames : list string :=
  ["max-age"; "max-stale"; "min-fresh"; "no-cache"; "no-store"; "no-transform";
   "only-if-cached"].

Definition responseNames : list string :=
  ["max-age"; "must-revalidate"; "must-understand"; "no-cache"; "no-store";
   "no-transform"; "private"; "proxy-revalidate"; "public"; "s-maxage"].

(** The lower-cased name of [d] is one of [names]. *)
Definition named (names : list string) (d : Directive.t) : bool :=
  existsb (String.eqb (ToLower (Directive.Name d))) names.

(** The directives of [ds] outside the vocabulary [names], as extensions. *)
Definition extensionsOf (names : list string) (ds : list Directive.t)
    : list ExtensionDirective.t :=
  map toExtension (filter (fun d => negb (named names d)) ds).

(** The error that a directive adds when it is one of the numeric
    directives [names] and its value does not parse. *)
Definition ageError (names : list string) (d : Directive.t) : list error :=
  if named names d then
    match ParseAge (Directive.Value d) with
    | inl _ => []
    | inr err =>
        [Errorf ("invalid value for " +:+ ToLower (Directive.Name d) +:+ ": ") err]
    end
  else [].

(** Every numeric directive among [names] has a non-empty value of digits. *)
Definition wellFormedAges (names : list string) (ds : list Directive.t) : bool :=
  forallb (fun d => negb (named names d) || isDigits (Directive.Value d)) ds.

(** What one step of [requestDirective] does to one field. *)
Ltac request_step_fact :=
  intros [c errs] d; destruct c;
  unfold requestDirective, ageError, named, requestNames, parsedAge, toExtension;
  cbn [fst snd existsb RequestDirectives.MaxAge RequestDirectives.MaxStale
       RequestDirectives.MinFresh RequestDirectives.NoCache RequestDirectives.NoStore
       RequestDirectives.NoTransform RequestDirectives.OnlyIfCached
       RequestDirectives.Extensions];
  generalize (ToLower (Directive.Name d)); intros name;
  by_name; try destruct (ParseAge (Directive.Value d)); cbn;
  rewrite ?app_nil_r, ?orb_false_r, ?orb_true_r; reflexivity.

(** The same for the fields of [responseDirective] that the claims leave
    out. *)
Ltac response_step_fact :=
  intros [c errs] d; destruct c;
  unfold responseDirective, ageError, named, responseNames, parsedAge, toExtension;
  cbn [fst snd existsb ResponseDirectives.MustRevalidate ResponseDirectives.MustUnderstand
       ResponseDirectives.NoStore ResponseDirectives.NoTransform
       ResponseDirectives.ProxyRevalidate ResponseDirectives.Public
       ResponseDirectives.Extensions];
  generalize (ToLower (Directive.Name d)); intros name;
  by_name; try destruct (ParseAge (Directive.Value d)); cbn;
  rewrite ?app_nil_r, ?orb_false_r, ?orb_true_r; reflexivity.

(** ** Configurations and header sets *)

(** [c] with its [Private] field set to [b]. *)
Definition withPrivate (b : bool) (c : Config.t) : Config.t :=
  Config.mk (Config.CacheableByExtension c) (Config.CanUnderstandResponseCode c)
    (Config.IgnoreRequestDirectiveNoStore c) (Config.IsHeuristicallyCacheableStatusCode c)
    b (Config.RespectPrivateHeaders c) (Config.StoreProxyHeaders c)
    (Config.SupportedRequestMethod c).

Section UnstorableKeys.

Variable canonical : string -> string.

(** The keys that the [Connection] header takes away: itself and the
    canonical form of every name it lists. *)
Definition connectionKeys (headers : gmap string (list string)) : list string :=
  "Connection" :: map canonical (flat_map Fields (values headers "Connection")).

(** The [Cache-Control] values still there when the [private] directive is
    looked up. *)
Definition remainingCacheControl (headers : gmap string (list string)) : list string :=
  if bool_decide ("Cache-Control" ∈ connectionKeys headers) then []
  else values headers "Cache-Control".

(** The keys named by the value of the [private] directive, when the
    configuration respects it. *)
Definition privateKeys (c : Config.t) (headers : gmap string (list string)) : list string :=
  if Config.RespectPrivateHeaders c then
    map canonical
      (default []
         (ResponseDirectives.PrivateHeaders
            (fst (ParseResponseDirectives
                    (StringsJoin (remainingCacheControl headers) ",")))))
  else [].

Definition proxyKeys (c : Config.t) : list string :=
  if Config.StoreProxyHeaders c then []
  else ["Proxy-Authenticate"; "Proxy-Authentication-Info"; "Proxy-Authorization"].

Definition unstorableKeys (c : Config.t) (headers : gmap string (list string))
    : list string :=
  connectionKeys headers ++ privateKeys c headers ++ proxyKeys c.

End UnstorableKeys.

(** ** Sorted lists of names *)

(** The order of Go strings: byte by byte. *)
Definition stringLe (a b : string) : Prop := String.leb a b = true.
Definition stringLt (a b : string) : Prop := String.ltb a b = true.

(** [kept] with [x] added at its end unless [x] is its last element. *)
Definition keepNew (kept : list string) (x : string) : list string :=
  match last kept with
  | Some y => if String.eqb x y then kept else kept ++ [x]
  | None => kept ++ [x]
  end.

(** [l] with every element that repeats its predecessor dropped. *)
Definition dedupAdjacent (l : list string) : list string := fold_left keepNew l [].

(** ** Well-formed directives and tokens *)

(** A directive without a value has a name and an empty value. *)
Definition wellFormedDirective (d : Directive.t) : Prop :=
  Directive.HasValue d = false -> Directive.Name d <> "" /\ Directive.Value d = "".

(** The state of [Parse] keeps no value while it reads a name. *)
Definition parserInvariant (p : Parser.t) : Prop :=
  (Parser.state p = stateName -> Parser.value p = "") /\
  Forall wellFormedDirective (Parser.yielded p).

(** A byte that separates directives without being part of one. *)
Definition isSeparator (c : ascii) : bool :=
  isControlCharacterOrSpace c || Ascii.eqb c ",".

Definition separatorToken (token : Token.t) : Prop :=
  Token.Type' token = TokenTypeComma \/ Token.Type' token = TokenTypeSpace.

(** The texts of [tokens], one after the other. *)
Definition concatTexts (tokens : list Token.t) : string :=
  fold_right (fun token rest => Token.Text token +:+ rest) "" tokens.

(** The token is a slice of the input, text included. *)
Definition verbatim (s : string) (token : Token.t) : Prop :=
  Token.Text token = slice s (Token.Start token) (Token.End' token).

(** The token is a quoted string of the input: a Text token that spans from
    a quote to a later quote. *)
Definition quotedIn (s : string) (token : Token.t) : Prop :=
  Token.Type' token = TokenTypeText /\
  get (Token.Start token) s = Some dquote /\
  get (Nat.pred (Token.End' token)) s = Some dquote /\
  (Token.Start token + 2 <= Token.End' token)%nat.

(** The content of a quoted string with its escapes resolved: a backslash
    is dropped and the byte after it kept. [None] when the content holds a
    bare quote or ends in a bare backslash, that is when it is not the
    content of a quoted string. *)
Fixpoint unescape (v : string) : option string :=
  match v with
  | EmptyString => Some EmptyString
  | String c v' =>
      if Ascii.eqb c backslash then
        match v' with
        | EmptyString => None
        | String e v'' => option_map (String e) (unescape v'')
        end
      else if Ascii.eqb c dquote then None
      else option_map (String c) (unescape v')
  end.

(** The tokens lie within the input and are slices of it or quoted
    strings. *)
Definition tokenInInput (s : string) (token : Token.t) : Prop :=
  (Token.End' token <= String.length s)%nat /\ (verbatim s token \/ quotedIn s token).

Definition notQuote (c : ascii) : bool := negb (Ascii.eqb c dquote).

(** A byte that stands for itself inside a quoted string. *)
Definition plainByte (c : ascii) : bool :=
  negb (Ascii.eqb c dquote) && negb (Ascii.eqb c backslash).

(** An extension directive that [ExtensionDirective.String] writes in a form
    that can be read back: its name is a word, and its value, if it has
    one, holds neither quote nor backslash (the method does not escape). *)
Definition printable (e : ExtensionDirective.t) : Prop :=
  isWord (ExtensionDirective.Name e) = true /\
  if ExtensionDirective.HasValue e
  then allBytes plainByte (ExtensionDirective.Value e) = true
  else ExtensionDirective.Value e = "".

(** ** More sample inputs *)

(** A canonical form of header names on ASCII letters: an upper-case letter
    first and after every hyphen, lower-case letters elsewhere. *)
Definition toUpperByte (c : ascii) : ascii :=
  let n := nat_of_ascii c in
  if Nat.leb 97 n && Nat.leb n 122 then ascii_of_nat (n - 32) else c.

Fixpoint canonicalFrom (upper : bool) (s : string) : string :=
  match s with
  | EmptyString => EmptyString
  | String c s' =>
      String (if upper then toUpperByte c else toLowerByte c)
        (canonicalFrom (Ascii.eqb c "-") s')
  end.

Definition sampleCanonical (s : string) : string := canonicalFrom true s.

(** A sorting function for strings. *)
Definition stringLe_dec (a b : string) : Decision (stringLe a b) :=
  decide (String.leb a b = true).

Definition sampleSort (l : list string) : list string :=
  @merge_sort string stringLe stringLe_dec l.

Definition sampleHeaders : gmap string (list string) :=
  {[ "Connection" := ["close"; "x-trace keep-alive"];
     "Keep-Alive" := ["timeout=5"];
     "X-Trace" := ["abc"];
     "Cache-Control" := ["max-age=60"];
     "Proxy-Authenticate" := ["Basic"];
     "Content-Type" := ["text/plain"] ]}.

Definition sampleVaryResponse : Response.t :=
  Response.mk 200 {[ "Vary" := [" header-3, HEADER-1"; "Header-2 , header-1"] ]} ∅.

(** ** Tokens of a part of the input *)

(** [token] moved [k] bytes to the right. *)
Definition shiftToken (k : nat) (token : Token.t) : Token.t :=
  Token.mk (Token.Type' token) (k + Token.Start token) (k + Token.End' token)
    (Token.Text token).

(** Two tokens that [Parse] cannot tell apart: it reads the type and the
    text only. *)
Definition sameToken (t u : Token.t) : Prop :=
  Token.Type' t = Token.Type' u /\ Token.Text t = Token.Text u.

(** Parser state [q] is state [p] with the directives [ys] yielded before,
    up to what [Parse] cannot tell apart. *)
Definition parserAfter (ys : list Directive.t) (p q : Parser.t) : Prop :=
  Parser.state q = Parser.state p /\
  Parser.name q = Parser.name p /\
  Parser.value q = Parser.value p /\
  Parser.yielded q = ys ++ Parser.yielded p /\
  (sameToken (Parser.lastToken p) (Parser.lastToken q) \/
   (Parser.state p = stateName /\ Parser.name p = "")).

(** ** Writing directives and reading them back *)

(** The part [a] of a header can be closed by a comma: its tokens are the
    same whatever follows the comma, and the tokens after the comma are
    those of what follows. *)
Definition separable (a : string) : Prop :=
  forall b,
    Tokenize (a +:+ String "," b) =
      Tokenize a ++
        Token.mk TokenTypeComma (String.length a) (S (String.length a)) ","
          :: map (shiftToken (S (String.length a))) (Tokenize b).

(** [part] is one separable part of a header that holds the directive
    [d] and nothing else. *)
Definition writes (part : string) (d : Directive.t) : Prop :=
  separable part /\ Parse part = [d].

(** The list with [x] if [cond] holds, the empty list otherwise. *)
Definition when {A : Type} (cond : bool) (x : A) : list A := if cond then [x] else [].

Definition ofExtension (e : ExtensionDirective.t) : Directive.t :=
  Directive.mk (ExtensionDirective.Name e) (ExtensionDirective.Value e)
    (ExtensionDirective.HasValue e).

(** A duration that is not negative, within the range of [time.Duration]. *)
Definition isDuration (d : Z) : Prop := (0 <= d <= MaxInt64)%Z.

(** The duration [d] cut down to whole seconds. *)
Definition wholeSeconds (d : Z) : Z := (Z.quot d Second * Second)%Z.

(** An extension that can be written and is not taken for one of the
    directives [names] when read back. *)
Definition extensionFor (names : list string) (e : ExtensionDirective.t) : Prop :=
  printable e /\ named names (ofExtension e) = false.

(** A header name that stands for itself in a quoted list of names
    separated by spaces: ASCII bytes, none of them white space, a quote or
    a backslash. *)
Definition nameByte (c : ascii) : bool :=
  Nat.ltb (nat_of_ascii c) 128 && negb (asciiSpace c) && plainByte c.

Definition isHeaderName (h : string) : bool :=
  negb (String.eqb h "") && allBytes nameByte h.

(** The header names of [no-cache] and [private] as they are read back:
    the nil slice unless the directive is set and has names. *)
Definition namesWritten (flag : bool) (headers : option (list string))
    : option (list string) :=
  if flag && Nat.ltb 0 (length (default [] headers)) then Some (default [] headers)
  else None.

Definition writableRequest (d : RequestDirectives.t) : Prop :=
  isDuration (RequestDirectives.MaxAge d) /\
  isDuration (RequestDirectives.MaxStale d) /\
  isDuration (RequestDirectives.MinFresh d) /\
  Forall (extensionFor requestNames) (RequestDirectives.Extensions d).

(** What is left of [d] once written: durations in whole seconds. *)
Definition requestWritten (d : RequestDirectives.t) : RequestDirectives.t :=
  RequestDirectives.mk
    (wholeSeconds (RequestDirectives.MaxAge d))
    (wholeSeconds (RequestDirectives.MaxStale d))
    (wholeSeconds (RequestDirectives.MinFresh d))
    (RequestDirectives.NoCache d) (RequestDirectives.NoStore d)
    (RequestDirectives.NoTransform d) (RequestDirectives.OnlyIfCached d)
    (RequestDirectives.Extensions d).

Definition writableResponse (d : ResponseDirectives.t) : Prop :=
  isDuration (ResponseDirectives.MaxAge d) /\
  isDuration (ResponseDirectives.SMaxAge d) /\
  Forall (fun h => isHeaderName h = true)
    (default [] (ResponseDirectives.NoCacheHeaders d)) /\
  Forall (fun h => isHeaderName h = true)
    (default [] (ResponseDirectives.PrivateHeaders d)) /\
  Forall (extensionFor responseNames) (ResponseDirectives.Extensions d).

(** What is left of [d] once written: durations in whole seconds, and
    header names only with their directive. *)
Definition responseWritten (d : ResponseDirectives.t) : ResponseDirectives.t :=
  ResponseDirectives.mk
    (wholeSeconds (ResponseDirectives.MaxAge d))
    (ResponseDirectives.MustRevalidate d) (ResponseDirectives.MustUnderstand d)
    (ResponseDirectives.NoCache d)
    (namesWritten (ResponseDirectives.NoCache d) (ResponseDirectives.NoCacheHeaders d))
    (ResponseDirectives.NoStore d) (ResponseDirectives.NoTransform d)
    (ResponseDirectives.Private d)
    (namesWritten (ResponseDirectives.Private d) (ResponseDirectives.PrivateHeaders d))
    (ResponseDirectives.ProxyRevalidate d) (ResponseDirectives.Public d)
    (wholeSeconds (ResponseDirectives.SMaxAge d))
    (ResponseDirectives.Extensions d).

(** The parts that the String methods write, and the directives they stand
    for. *)
Definition ageDirective (name : string) (d : Z) : Directive.t :=
  Directive.mk name (secondsOf d) true.

Definition flagDirective (name : string) : Directive.t := Directive.mk name "" false.

Definition namesDirective (name : string) (headers : option (list string)) : Directive.t :=
  if Nat.ltb 0 (length (default [] headers))
  then Directive.mk name (StringsJoin (default [] headers) " ") true
  else Directive.mk name "" false.

Definition namesPart (name : string) (headers : option (list string)) : string :=
  if Nat.ltb 0 (length (default [] headers))
  then name +:+ String "=" (String dquote EmptyString)
         +:+ StringsJoin (default [] headers) " " +:+ String dquote EmptyString
  else name.

Definition requestParts (d : RequestDirectives.t) : list string :=
  when (RequestDirectives.MaxAge d >? 0)%Z
    ("max-age=" +:+ secondsOf (RequestDirectives.MaxAge d)) ++
  when (RequestDirectives.MaxStale d >? 0)%Z
    ("max-stale=" +:+ secondsOf (RequestDirectives.MaxStale d)) ++
  when (RequestDirectives.MinFresh d >? 0)%Z
    ("min-fresh=" +:+ secondsOf (RequestDirectives.MinFresh d)) ++
  when (RequestDirectives.NoCache d) "no-cache" ++
  when (RequestDirectives.NoStore d) "no-store" ++
  when (RequestDirectives.NoTransform d) "no-transform" ++
  when (RequestDirectives.OnlyIfCached d) "only-if-cached" ++
  map ExtensionString (RequestDirectives.Extensions d).

Definition requestWrites (d : RequestDirectives.t) : list Directive.t :=
  when (RequestDirectives.MaxAge d >? 0)%Z
    (ageDirective "max-age" (RequestDirectives.MaxAge d)) ++
  when (RequestDirectives.MaxStale d >? 0)%Z
    (ageDirective "max-stale" (RequestDirectives.MaxStale d)) ++
  when (RequestDirectives.MinFresh d >? 0)%Z
    (ageDirective "min-fresh" (RequestDirectives.MinFresh d)) ++
  when (RequestDirectives.NoCache d) (flagDirective "no-cache") ++
  when (RequestDirectives.NoStore d) (flagDirective "no-store") ++
  when (RequestDirectives.NoTransform d) (flagDirective "no-transform") ++
  when (RequestDirectives.OnlyIfCached d) (flagDirective "only-if-cached") ++
  map ofExtension (RequestDirectives.Extensions d).

Definition responseParts (d : ResponseDirectives.t) : list string :=
  when (ResponseDirectives.MaxAge d >? 0)%Z
    ("max-age=" +:+ secondsOf (ResponseDirectives.MaxAge d)) ++
  when (ResponseDirectives.MustRevalidate d) "must-revalidate" ++
  when (ResponseDirectives.MustUnderstand d) "must-understand" ++
  when (ResponseDirectives.NoCache d)
    (namesPart "no-cache" (ResponseDirectives.NoCacheHeaders d)) ++
  when (ResponseDirectives.NoStore d) "no-store" ++
  when (ResponseDirectives.NoTransform d) "no-transform" ++
  when (ResponseDirectives.Private d)
    (namesPart "private" (ResponseDirectives.PrivateHeaders d)) ++
  when (ResponseDirectives.ProxyRevalidate d) "proxy-revalidate" ++
  when (ResponseDirectives.Public d) "public" ++
  when (ResponseDirectives.SMaxAge d >? 0)%Z
    ("s-maxage=" +:+ secondsOf (ResponseDirectives.SMaxAge d)) ++
  map ExtensionString (ResponseDirectives.Extensions d).

Definition responseWrites (d : ResponseDirectives.t) : list Directive.t :=
  when (ResponseDirectives.MaxAge d >? 0)%Z
    (ageDirective "max-age" (ResponseDirectives.MaxAge d)) ++
  when (ResponseDirectives.MustRevalidate d) (flagDirective "must-revalidate") ++
  when (ResponseDirectives.MustUnderstand d) (flagDirective "must-understand") ++
  when (ResponseDirectives.NoCache d)
    (namesDirective "no-cache" (ResponseDirectives.NoCacheHeaders d)) ++
  when (ResponseDirectives.NoStore d) (flagDirective "no-store") ++
  when (ResponseDirectives.NoTransform d) (flagDirective "no-transform") ++
  when (ResponseDirectives.Private d)
    (namesDirective "private" (ResponseDirectives.PrivateHeaders d)) ++
  when (ResponseDirectives.ProxyRevalidate d) (flagDirective "proxy-revalidate") ++
  when (ResponseDirectives.Public d) (flagDirective "public") ++
  when (ResponseDirectives.SMaxAge d >? 0)%Z
    (ageDirective "s-maxage" (ResponseDirectives.SMaxAge d)) ++
  map ofExtension (ResponseDirectives.Extensions d).

(** Sample directives to write. *)
Definition sampleRequestDirectives : RequestDirectives.t :=
  RequestDirectives.mk 90500000000 0 5000000000 true false false true
    [ExtensionDirective.mk "stale-if-error" "a, b=c" true;
     ExtensionDirective.mk "immutable" "" false].

Definition sampleResponseDirectives : ResponseDirectives.t :=
  ResponseDirectives.mk 3600000000000 true false true (Some ["Set-Cookie"; "X-Trace"])
    false true true None false false 1500000000
    [ExtensionDirective.mk "immutable" "" false;
     ExtensionDirective.mk "stale-while-revalidate" "30" true].

(* ================================================================= *)
(** * Properties of the tokenizer *)

Section TokenizerFacts.

Lemma get_lt (s : string) (i : nat) (c : ascii) :
  get i s = Some c -> (i < String.length s)%nat.
Proof.
  revert i. induction s as [|a s IH]; intros [|i] H; simpl in *; try discriminate; try lia.
  apply IH in H. lia.
Qed.

Lemma get_ge (s : string) (i : nat) :
  (String.length s <= i)%nat -> get i s = None.
Proof.
  revert i. induction s as [|a s IH]; intros [|i] H; simpl in *; try reflexivity; try lia.
  apply IH. lia.
Qed.

Lemma get_None (s : string) (i : nat) :
  get i s = None -> (String.length s <= i)%nat.
Proof.
  revert i. induction s as [|a s IH]; intros [|i] H; simpl in *; try discriminate; try lia.
  apply IH in H. lia.
Qed.

Lemma spaceRunEnd_ge (s : string) (fuel j : nat) : (j <= spaceRunEnd s fuel j)%nat.
Proof.
  revert j. induction fuel as [|fuel IH]; intros j; simpl; [lia|].
  destruct (get j s) as [c|]; [|lia].
  destruct (isControlCharacterOrSpace c); [|lia].
  specialize (IH (S j)). lia.
Qed.

Lemma spaceRunEnd_le (s : string) (fuel j : nat) :
  (j <= String.length s)%nat -> (spaceRunEnd s fuel j <= String.length s)%nat.
Proof.
  revert j. induction fuel as [|fuel IH]; intros j Hj; simpl; [lia|].
  destruct (get j s) as [c|] eqn:E; [|lia].
  destruct (isControlCharacterOrSpace c); [|lia].
  apply IH. apply get_lt in E. lia.
Qed.

Lemma scanQuoted_bounds (s : string) (i fuel j : nat) esc un unTo k text :
  scanQuoted s i fuel j esc un unTo = Some (k, text) ->
  (j <= k < String.length s)%nat.
Proof.
  revert j esc un unTo.
  induction fuel as [|fuel IH]; intros j esc un unTo; simpl; [discriminate|].
  destruct (get j s) as [c|] eqn:E; [|discriminate].
  apply get_lt in E.
  destruct esc.
  { intros H. apply IH in H. lia. }
  destruct (Ascii.eqb c backslash).
  { destruct (unTo <? j)%nat; intros H; apply IH in H; lia. }
  destruct (Ascii.eqb c dquote).
  { intros H. injection H as <- _. lia. }
  intros H. apply IH in H. lia.
Qed.

(** An iteration at offset [i] only continues at offsets beyond [i]. *)
Lemma tokenizeBody_ext (s : string) (k1 k2 : nat -> option nat -> list Token.t) i ts :
  (forall i' ts', (i < i')%nat -> k1 i' ts' = k2 i' ts') ->
  tokenizeBody s k1 i ts = tokenizeBody s k2 i ts.
Proof.
  intros Hk. unfold tokenizeBody.
  destruct (get i s) as [c|]; [|reflexivity].
  destruct (isControlCharacterOrSpace c).
  { destruct (flushText s ts i) as [pending ts'].
    rewrite Hk; [reflexivity|].
    pose proof (spaceRunEnd_ge s (String.length s - S i) (S i)). lia. }
  destruct (Ascii.eqb c ",").
  { destruct (flushText s ts i) as [pending ts']. rewrite Hk by lia. reflexivity. }
  destruct (Ascii.eqb c "=").
  { destruct (flushText s ts i) as [pending ts']. rewrite Hk by lia. reflexivity. }
  destruct ts as [t|]; [apply Hk; lia|].
  destruct (Ascii.eqb c dquote); [|apply Hk; lia].
  destruct (scanQuoted s i (String.length s - S i) (S i) false "" (S i)) as [[j text]|] eqn:E.
  - rewrite Hk; [reflexivity|]. apply scanQuoted_bounds in E. lia.
  - apply Hk. lia.
Qed.

(** Fuel beyond [len(s) - i] is never used. *)
Lemma tokenizeLoop_fuel (s : string) (f1 f2 i : nat) ts :
  (String.length s - i <= f1)%nat -> (String.length s - i <= f2)%nat ->
  tokenizeLoop s f1 i ts = tokenizeLoop s f2 i ts.
Proof.
  revert f2 i ts. induction f1 as [|f1 IH]; intros [|f2] i ts H1 H2; simpl.
  - reflexivity.
  - unfold tokenizeBody. rewrite get_ge by lia. reflexivity.
  - unfold tokenizeBody. rewrite get_ge by lia. reflexivity.
  - apply tokenizeBody_ext. intros i' ts' Hi. apply IH; lia.
Qed.

(** The loop equation of [Tokenize], free of fuel. *)
Lemma tokensFrom_unfold (s : string) (i : nat) ts :
  tokensFrom s i ts = tokenizeBody s (tokensFrom s) i ts.
Proof.
  unfold tokensFrom. destruct (String.length s - i)%nat as [|n] eqn:E; simpl.
  - unfold tokenizeBody. rewrite get_ge by lia. reflexivity.
  - apply tokenizeBody_ext. intros i' ts' Hi. apply tokenizeLoop_fuel; lia.
Qed.

End TokenizerFacts.

Section Spans.

Lemma flushText_open (s : string) ts i :
  openBefore ts i ->
  flushText s ts i =
    (match ts with
     | Some t => [Token.mk TokenTypeText t i (slice s t i)]
     | None => []
     end, None).
Proof.
  intros H. unfold flushText. destruct ts as [t|]; [|reflexivity].
  simpl in H. destruct (Nat.ltb_spec t i); [reflexivity|lia].
Qed.

Lemma contiguous_flush (s : string) ts i next ty text rest :
  openBefore ts i -> (i < next)%nat ->
  contiguous next rest (String.length s) ->
  contiguous (pendingFrom ts i)
    (match ts with
     | Some t => [Token.mk TokenTypeText t i (slice s t i)]
     | None => []
     end ++ Token.mk ty i next text :: rest) (String.length s).
Proof.
  intros Hts Hnext Hrest. destruct ts as [t|]; simpl in *; repeat split; auto.
Qed.

Lemma tokenizeLoop_contiguous (s : string) (fuel i : nat) ts :
  (String.length s - i <= fuel)%nat -> (i <= String.length s)%nat -> openBefore ts i ->
  contiguous (pendingFrom ts i) (tokenizeLoop s fuel i ts) (String.length s).
Proof.
  revert i ts. induction fuel as [|fuel IH]; intros i ts Hfuel Hi Hts.
  { simpl. destruct ts as [t|]; simpl in *; lia. }
  cbn [tokenizeLoop]. unfold tokenizeBody.
  destruct (get i s) as [c|] eqn:E.
  2:{ apply get_None in E. destruct ts as [t|]; simpl in *; lia. }
  pose proof (get_lt _ _ _ E) as Hlt.
  destruct (isControlCharacterOrSpace c).
  { pose proof (spaceRunEnd_ge s (String.length s - S i) (S i)) as Hge.
    pose proof (spaceRunEnd_le s (String.length s - S i) (S i) Hlt) as Hle.
    revert Hge Hle. generalize (spaceRunEnd s (String.length s - S i) (S i)).
    intros j Hge Hle.
    rewrite flushText_open by assumption.
    apply contiguous_flush; [assumption|lia|].
    apply (IH _ None); [lia|lia|exact I]. }
  destruct (Ascii.eqb c ",").
  { rewrite flushText_open by assumption.
    apply contiguous_flush; [assumption|lia|].
    apply (IH _ None); [lia|lia|exact I]. }
  destruct (Ascii.eqb c "=").
  { rewrite flushText_open by assumption.
    apply contiguous_flush; [assumption|lia|].
    apply (IH _ None); [lia|lia|exact I]. }
  destruct ts as [t|].
  { apply (IH (S i) (Some t)); [lia|lia|]. simpl in *. lia. }
  destruct (Ascii.eqb c dquote).
  2:{ apply (IH (S i) (Some i)); [lia|lia|]. simpl. lia. }
  destruct (scanQuoted s i (String.length s - S i) (S i) false "" (S i))
    as [[j text]|] eqn:Q.
  - apply scanQuoted_bounds in Q. simpl. repeat split; [lia|].
    apply (IH (S j) None); [lia|lia|exact I].
  - apply (IH (S i) (Some i)); [lia|lia|]. simpl. lia.
Qed.

End Spans.

(** C5. For every input string, the tokens of [Tokenize], in order, have
    spans that are contiguous and cover exactly the byte range
    [[0, len(input))]: the first token starts at 0, each token starts where
    its predecessor ends, no token is empty, and the last token ends at
    [len(input)] (no token at all for the empty input). *)
Theorem Tokenize_spans_cover_input (s : string) :
  contiguous 0 (Tokenize s) (String.length s).
Proof.
  unfold Tokenize, tokensFrom.
  apply (tokenizeLoop_contiguous s (String.length s - 0) 0 None); [lia|lia|exact I].
Qed.

(** ** Unquoted text runs *)

Section Runs.

Variable s : string.

Lemma get_some (i : nat) : (i < String.length s)%nat -> exists c, get i s = Some c.
Proof.
  intros H. destruct (get i s) as [c|] eqn:E; [eauto|].
  apply get_None in E. lia.
Qed.

Lemma isDelimiter_false (c : ascii) :
  isDelimiter c = false ->
  isControlCharacterOrSpace c = false /\ Ascii.eqb c "," = false /\ Ascii.eqb c "=" = false.
Proof.
  unfold isDelimiter. intros H.
  apply orb_false_elim in H as [H H3]. apply orb_false_elim in H as [H1 H2]. auto.
Qed.

(** An open text run swallows every byte that is not a delimiter. *)
Lemma tokensFrom_run (t i k : nat) :
  (i <= k <= String.length s)%nat ->
  (forall m c, (i <= m < k)%nat -> get m s = Some c -> isDelimiter c = false) ->
  tokensFrom s i (Some t) = tokensFrom s k (Some t).
Proof.
  intros [Hik Hk]. remember (k - i)%nat as n eqn:En. revert i Hik En.
  induction n as [|n IH]; intros i Hik En Hrun.
  { replace k with i by lia. reflexivity. }
  destruct (get_some i) as [c Hc]; [lia|].
  rewrite tokensFrom_unfold. unfold tokenizeBody. rewrite Hc.
  destruct (isDelimiter_false c) as (-> & -> & ->); [apply (Hrun i); [lia|assumption]|].
  apply IH; [lia|lia|]. intros m c' Hm. apply Hrun. lia.
Qed.

(** A byte that is neither a delimiter nor a quote opens a text run. *)
Lemma tokensFrom_open (i : nat) (c : ascii) :
  get i s = Some c -> isDelimiter c = false -> Ascii.eqb c dquote = false ->
  tokensFrom s i None = tokensFrom s (S i) (Some i).
Proof.
  intros Hc Hd Hq. rewrite tokensFrom_unfold. unfold tokenizeBody. rewrite Hc.
  destruct (isDelimiter_false c Hd) as (-> & -> & ->). rewrite Hq. reflexivity.
Qed.


(** At the end of a run the text token is yielded, and scanning goes on as
    if no run had been open. *)
Lemma tokensFrom_close (t k : nat) :
  (t < k)%nat -> runEndsAt s k ->
  tokensFrom s k (Some t) =
    Token.mk TokenTypeText t k (slice s t k) :: tokensFrom s k None.
Proof.
  intros Ht [->|(c & Hc & Hd)].
  - rewrite !tokensFrom_unfold. unfold tokenizeBody. rewrite get_ge by lia. reflexivity.
  - rewrite (tokensFrom_unfold s k (Some t)), (tokensFrom_unfold s k None).
    unfold tokenizeBody. rewrite Hc.
    rewrite (flushText_open s (Some t) k) by exact Ht.
    rewrite (flushText_open s None k) by exact I.
    unfold isDelimiter in Hd.
    destruct (isControlCharacterOrSpace c); [reflexivity|].
    destruct (Ascii.eqb c ","); [reflexivity|].
    destruct (Ascii.eqb c "="); [reflexivity|discriminate].
Qed.

(** The whole run: from its first byte at [i] to its end at [k]. *)
Lemma tokensFrom_text (i k : nat) :
  (i < k <= String.length s)%nat ->
  tokensFrom s i None = tokensFrom s (S i) (Some i) ->
  (forall m c, (i < m < k)%nat -> get m s = Some c -> isDelimiter c = false) ->
  runEndsAt s k ->
  tokensFrom s i None =
    Token.mk TokenTypeText i k (slice s i k) :: tokensFrom s k None.
Proof.
  intros Hik Hopen Hrun Hend.
  rewrite Hopen, (tokensFrom_run i (S i) k); [|lia|].
  - apply tokensFrom_close; [lia|assumption].
  - intros m c Hm. apply Hrun. lia.
Qed.


End Runs.


(** ** Strings built by concatenation *)

Section Concatenation.

Lemma app_cons (x : ascii) (a b : string) : String x a +:+ b = String x (a +:+ b).
Proof. reflexivity. Qed.

Lemma app_nil_l (b : string) : "" +:+ b = b.
Proof. reflexivity. Qed.

Lemma length_app (a b : string) :
  String.length (a +:+ b) = (String.length a + String.length b)%nat.
Proof.
  induction a as [|c a IH]; [reflexivity|].
  rewrite app_cons. simpl. now rewrite IH.
Qed.

Lemma app_assoc_str (a b c : string) : (a +:+ b) +:+ c = a +:+ (b +:+ c).
Proof.
  induction a as [|x a IH]; [reflexivity|].
  rewrite !app_cons. now rewrite IH.
Qed.

Lemma app_empty_r (a : string) : a +:+ "" = a.
Proof.
  induction a as [|x a IH]; [reflexivity|].
  rewrite app_cons. now rewrite IH.
Qed.

Lemma get_app_r (a b : string) (i : nat) :
  get (String.length a + i) (a +:+ b) = get i b.
Proof.
  induction a as [|x a IH]; [reflexivity|].
  rewrite app_cons. simpl. exact IH.
Qed.

Lemma get_app_l (a b : string) (i : nat) :
  (i < String.length a)%nat -> get i (a +:+ b) = get i a.
Proof.
  revert i. induction a as [|x a IH]; intros i H; simpl in H; [lia|].
  rewrite app_cons. destruct i as [|i]; [reflexivity|]. simpl. apply IH. lia.
Qed.

Lemma substring_app_r (a b : string) (n m : nat) :
  substring (String.length a + n) m (a +:+ b) = substring n m b.
Proof.
  induction a as [|x a IH]; [reflexivity|].
  rewrite app_cons. simpl. exact IH.
Qed.

Lemma substring_app_l (a b : string) :
  substring 0 (String.length a) (a +:+ b) = a.
Proof.
  induction a as [|x a IH].
  - rewrite app_nil_l. destruct b; reflexivity.
  - rewrite app_cons. simpl. now rewrite IH.
Qed.

(** The middle part of [pre ++ seg ++ rest], by offsets. *)
Lemma slice_mid (pre seg rest : string) :
  slice (pre +:+ seg +:+ rest) (String.length pre)
    (String.length pre + String.length seg) = seg.
Proof.
  unfold slice.
  replace (String.length pre + String.length seg - String.length pre)%nat
    with (String.length seg) by lia.
  rewrite <- (Nat.add_0_r (String.length pre)) at 1.
  rewrite substring_app_r. apply substring_app_l.
Qed.

Lemma get_mid (pre seg rest : string) (m : nat) :
  (String.length pre <= m < String.length pre + String.length seg)%nat ->
  get m (pre +:+ seg +:+ rest) = get (m - String.length pre) seg.
Proof.
  intros H.
  replace m with (String.length pre + (m - String.length pre))%nat at 1 by lia.
  rewrite get_app_r. apply get_app_l. lia.
Qed.

Lemma get_after (pre seg rest : string) :
  get (String.length pre + String.length seg) (pre +:+ seg +:+ rest) = get 0 rest.
Proof. now rewrite get_app_r, <- (Nat.add_0_r (String.length seg)), get_app_r. Qed.

Lemma allBytes_get (p : ascii -> bool) (w : string) (i : nat) (c : ascii) :
  allBytes p w = true -> get i w = Some c -> p c = true.
Proof.
  revert i. induction w as [|x w IH]; intros i H E; simpl in *; [discriminate|].
  apply andb_prop in H as [Hx Hw].
  destruct i as [|i]; [now injection E as <-|eauto].
Qed.

Lemma nonempty_length (w : string) :
  negb (String.eqb w "") = true -> (0 < String.length w)%nat.
Proof. destruct w; simpl; [discriminate|lia]. Qed.

Lemma nonempty_eqb (w : string) :
  negb (String.eqb w "") = true -> String.eqb w "" = false.
Proof. now destruct (String.eqb w ""). Qed.


(** What stands at the offset just after [seg]. *)
Lemma after_segment (p : ascii -> bool) (pre seg rest : string) :
  endOr p rest = true ->
  String.length pre + String.length seg = String.length (pre +:+ seg +:+ rest) \/
  exists c, get (String.length pre + String.length seg) (pre +:+ seg +:+ rest) = Some c /\
            p c = true.
Proof.
  intros H. destruct rest as [|c rest]; simpl in H.
  - left. rewrite !length_app. simpl. lia.
  - right. exists c. rewrite get_after. auto.
Qed.

End Concatenation.

(** ** Segments of the input and their tokens *)

Section Segments.

Variables pre seg rest : string.

Local Abbreviation s := (pre +:+ seg +:+ rest).
Local Abbreviation lo := (String.length pre).
Local Abbreviation hi := (String.length pre + String.length seg)%nat.

Lemma hi_le_length : (hi <= String.length s)%nat.
Proof. rewrite !length_app. lia. Qed.

Lemma spaceRunEnd_exact (str : string) (fuel j b : nat) :
  (j <= b)%nat -> (b - j <= fuel)%nat ->
  (forall m, (j <= m < b)%nat ->
     exists c, get m str = Some c /\ isControlCharacterOrSpace c = true) ->
  (b = String.length str \/
   exists c, get b str = Some c /\ isControlCharacterOrSpace c = false) ->
  spaceRunEnd str fuel j = b.
Proof.
  revert j. induction fuel as [|fuel IH]; intros j Hj Hfuel Hrun Hend; simpl; [lia|].
  destruct (Nat.eq_dec j b) as [->|Hne].
  - destruct Hend as [->|(c & -> & ->)]; [|reflexivity].
    now rewrite get_ge.
  - destruct (Hrun j) as (c & -> & ->); [lia|].
    apply IH; auto; try lia. intros m Hm. apply Hrun. lia.
Qed.

(** A word standing at [lo], followed by a delimiter or the end of the
    input, is one Text token. *)
Lemma tokensFrom_word :
  isWord seg = true -> endOr isDelimiter rest = true ->
  tokensFrom s lo None =
    Token.mk TokenTypeText lo hi seg :: tokensFrom s hi None.
Proof.
  intros Hword Hrest. apply andb_prop in Hword as [Hne Hall].
  pose proof (nonempty_length _ Hne) as Hlen.
  pose proof hi_le_length as Hhi.
  assert (Hbytes : forall m c, (lo <= m < hi)%nat -> get m s = Some c -> wordByte c = true).
  { intros m c Hm E. rewrite get_mid in E by exact Hm.
    eapply allBytes_get; eauto. }
  replace (Token.mk TokenTypeText lo hi seg)
    with (Token.mk TokenTypeText lo hi (slice s lo hi)) by now rewrite slice_mid.
  apply tokensFrom_text.
  - lia.
  - destruct (get_some s lo) as [c Hc]; [lia|].
    pose proof (Hbytes lo c ltac:(lia) Hc) as Hw.
    apply andb_prop in Hw as [Hd Hq].
    apply (tokensFrom_open s lo c Hc).
    + now destruct (isDelimiter c).
    + now destruct (Ascii.eqb c dquote).
  - intros m c Hm E. pose proof (Hbytes m c ltac:(lia) E) as Hw.
    apply andb_prop in Hw as [Hd _]. now destruct (isDelimiter c).
  - apply after_segment. exact Hrest.
Qed.


End Segments.

(** An equals sign standing at the end of [pre] is one Equals token. *)
Lemma tokensFrom_equals (pre rest : string) :
  tokensFrom (pre +:+ "=" +:+ rest) (String.length pre) None =
    Token.mk TokenTypeEquals (String.length pre) (S (String.length pre)) "="
      :: tokensFrom (pre +:+ "=" +:+ rest) (S (String.length pre)) None.
Proof.
  rewrite tokensFrom_unfold at 1. unfold tokenizeBody.
  rewrite <- (Nat.add_0_r (String.length pre)) at 1. rewrite get_app_r. simpl.
  reflexivity.
Qed.

Lemma tokensFrom_end (s : string) : tokensFrom s (String.length s) None = [].
Proof.
  rewrite tokensFrom_unfold. unfold tokenizeBody. now rewrite get_ge.
Qed.

(** ** Token types *)

Section TokenTypes.

Lemma flushText_types (s : string) ts i :
  Forall validType (fst (flushText s ts i)).
Proof.
  unfold flushText. destruct ts as [t|]; [destruct (t <? i)%nat|]; cbn [fst];
    repeat constructor; discriminate.
Qed.

Lemma tokenizeLoop_types (s : string) (fuel i : nat) ts :
  Forall validType (tokenizeLoop s fuel i ts).
Proof.
  revert i ts. induction fuel as [|fuel IH]; intros i ts; cbn [tokenizeLoop].
  { destruct ts; repeat constructor; discriminate. }
  unfold tokenizeBody.
  destruct (get i s) as [c|].
  2:{ destruct ts; repeat constructor; discriminate. }
  pose proof (flushText_types s ts i) as Hflush.
  destruct (flushText s ts i) as [pending ts']. cbn [fst] in Hflush.
  destruct (isControlCharacterOrSpace c).
  { apply Forall_app. split; [assumption|]. constructor; [discriminate|apply IH]. }
  destruct (Ascii.eqb c ",").
  { apply Forall_app. split; [assumption|]. constructor; [discriminate|apply IH]. }
  destruct (Ascii.eqb c "=").
  { apply Forall_app. split; [assumption|]. constructor; [discriminate|apply IH]. }
  destruct ts as [t|]; [apply IH|].
  destruct (Ascii.eqb c dquote); [|apply IH].
  destruct (scanQuoted _ _ _ _ _ _ _) as [[j text]|]; [|apply IH].
  constructor; [discriminate|apply IH].
Qed.

(** [Tokenize] never yields a token of type [TokenTypeInvalid]; the
    panicking branches of [Parse] are dead. *)
Lemma Tokenize_types (s : string) : Forall validType (Tokenize s).
Proof. apply tokenizeLoop_types. Qed.

End TokenTypes.

(** * Properties of the directive assembler *)

Section Assembler.

Lemma word_token (s pre seg rest : string) (lo hi : nat) :
  s = pre +:+ seg +:+ rest -> lo = String.length pre ->
  hi = (lo + String.length seg)%nat ->
  isWord seg = true -> endOr isDelimiter rest = true ->
  tokensFrom s lo None = Token.mk TokenTypeText lo hi seg :: tokensFrom s hi None.
Proof. intros -> -> ->. apply tokensFrom_word. Qed.


Lemma equals_token (s pre rest : string) (lo : nat) :
  s = pre +:+ "=" +:+ rest -> lo = String.length pre ->
  tokensFrom s lo None =
    Token.mk TokenTypeEquals lo (S lo) "=" :: tokensFrom s (S lo) None.
Proof. intros -> ->. apply tokensFrom_equals. Qed.

Lemma end_token (s : string) (n : nat) :
  n = String.length s -> tokensFrom s n None = [].
Proof. intros ->. apply tokensFrom_end. Qed.






Lemma isWord_nonempty (w : string) : isWord w = true -> String.eqb w "" = false.
Proof. intros H. apply andb_prop in H as [Hne _]. now apply nonempty_eqb. Qed.



End Assembler.


(** * Delta-seconds *)

Section DeltaSeconds.

Local Open Scope Z_scope.

Lemma isDigit_range (c : ascii) :
  isDigit c = true -> 48 <= Z.of_nat (nat_of_ascii c) <= 57.
Proof.
  unfold isDigit. intros H. apply andb_prop in H as [H1 H2].
  apply Nat.leb_le in H1, H2. lia.
Qed.

Lemma wrap_uint64_small (z : Z) : 0 <= z < 2 ^ 64 -> wrap_uint64 z = z.
Proof. intros H. unfold wrap_uint64. now apply Z.mod_small. Qed.

Lemma wrap_uint64_range (z : Z) : 0 <= wrap_uint64 z < 2 ^ 64.
Proof. unfold wrap_uint64. apply Z.mod_pos_bound. lia. Qed.

(** On digits the loop never fails, its accumulator never decreases, and as
    long as the result is small no step has wrapped around: the result is
    the number written. *)
Lemma parseDeltaSecondsFrom_digits (s : string) (d : Z) :
  allBytes isDigit s = true -> 0 <= d < 2 ^ 64 ->
  exists d', parseDeltaSecondsFrom s d = inl d' /\
             d <= d' < 2 ^ 64 /\
             (d' <= 9223372036 -> d' = decimalFrom d s).
Proof.
  revert d. induction s as [|c s IH]; intros d Hall Hd.
  { exists d. simpl. repeat split; lia. }
  simpl in Hall. apply andb_prop in Hall as [Hc Hall].
  apply isDigit_range in Hc.
  cbn [parseDeltaSecondsFrom decimalFrom].
  set (r := Z.of_nat (nat_of_ascii c)) in *.
  replace ((r <? 48) || (r >? 57)) with false
    by (symmetry; apply orb_false_intro; [|rewrite Z.gtb_ltb]; apply Z.ltb_ge; lia).
  set (d1 := wrap_uint64 (wrap_uint64 (d * 10) + (r - 48))).
  pose proof (wrap_uint64_range (wrap_uint64 (d * 10) + (r - 48))) as Hd1. fold d1 in Hd1.
  assert (Hd1def : d1 = wrap_uint64 (wrap_uint64 (d * 10) + (r - 48))) by reflexivity.
  clearbody d1 r.
  destruct (IH (if d1 <? d then MaxUint64 else d1) Hall) as (d' & E & Hrange & Hval).
  { destruct (d1 <? d); [unfold MaxUint64|]; lia. }
  exists d'. split; [exact E|].
  revert E Hrange Hval. unfold MaxUint64.
  destruct (Z.ltb_spec d1 d) as [Hlt|Hge]; intros E Hrange Hval.
  { split; [lia|]. intros Hsmall. lia. }
  split; [lia|]. intros Hsmall.
  assert (Hexact : d1 = 10 * d + (r - 48)).
  { rewrite Hd1def. rewrite (wrap_uint64_small (d * 10)) by lia.
    rewrite wrap_uint64_small by lia. lia. }
  rewrite Hval by exact Hsmall. now rewrite Hexact.
Qed.

Lemma wrap_int64_uint64 (d : Z) :
  0 <= d < 2 ^ 64 -> wrap_int64 d = if d <? 2 ^ 63 then d else d - 2 ^ 64.
Proof. intros H. unfold wrap_int64. now rewrite Z.mod_small. Qed.

End DeltaSeconds.

(** C4. For every non-empty string of ASCII digits whose value, in seconds,
    exceeds the largest [time.Duration], [ParseAge] returns that largest
    duration and no error -- whatever wrap-around the [uint64] accumulation
    of [parseDeltaSeconds] went through on the way. *)
Theorem ParseAge_saturates (s : string) :
  isDigits s = true ->
  (decimalValue s * Second > MaxInt64)%Z ->
  ParseAge s = inl MaxInt64.
Proof.
  intros Hdigits Hbig. apply andb_prop in Hdigits as [Hne Hall].
  unfold ParseAge, parseDeltaSeconds. rewrite (nonempty_eqb _ Hne).
  destruct (parseDeltaSecondsFrom_digits s 0 Hall) as (d & -> & Hrange & Hval); [lia|].
  assert (Hd : (9223372036 < d)%Z).
  { destruct (Z.le_gt_cases d 9223372036) as [Hle|]; [|assumption].
    rewrite (Hval Hle) in Hle. fold (decimalValue s) in Hle.
    unfold Second, MaxInt64 in Hbig. lia. }
  rewrite wrap_int64_uint64 by lia.
  change (MaxInt64 / Second)%Z with 9223372036%Z.
  destruct (Z.ltb_spec d (2 ^ 63)).
  - replace (d >? 9223372036)%Z with true by (symmetry; rewrite Z.gtb_ltb; apply Z.ltb_lt; lia).
    now rewrite orb_true_r.
  - replace (d - 2 ^ 64 <? 0)%Z with true by (symmetry; apply Z.ltb_lt; lia).
    reflexivity.
Qed.

(** * Properties of the directive classifier *)

Section Classifier.

Import ResponseDirectives.

(** What one directive does to each field. *)
Lemma step_MaxAge st d :
  MaxAge (fst (responseDirective st d)) =
    default (MaxAge (fst st))
      (if String.eqb (ToLower (Directive.Name d)) "max-age" then parsedAge d else None).
Proof. revert st d. step_fact. Qed.

Lemma step_SMaxAge st d :
  SMaxAge (fst (responseDirective st d)) =
    default (SMaxAge (fst st))
      (if String.eqb (ToLower (Directive.Name d)) "s-maxage" then parsedAge d else None).
Proof. revert st d. step_fact. Qed.

Lemma step_Private st d :
  Private (fst (responseDirective st d)) =
    Private (fst st) || String.eqb (ToLower (Directive.Name d)) "private".
Proof. revert st d. step_fact. Qed.

Lemma step_PrivateHeaders st d :
  PrivateHeaders (fst (responseDirective st d)) =
    if String.eqb (ToLower (Directive.Name d)) "private" then headerNames (Some d)
    else PrivateHeaders (fst st).
Proof. revert st d. step_fact. Qed.

Lemma step_NoCache st d :
  NoCache (fst (responseDirective st d)) =
    NoCache (fst st) || String.eqb (ToLower (Directive.Name d)) "no-cache".
Proof. revert st d. step_fact. Qed.

Lemma step_NoCacheHeaders st d :
  NoCacheHeaders (fst (responseDirective st d)) =
    if String.eqb (ToLower (Directive.Name d)) "no-cache" then headerNames (Some d)
    else NoCacheHeaders (fst st).
Proof. revert st d. step_fact. Qed.

Lemma step_errors st d :
  snd (responseDirective st d) = snd st ++ numericError d.
Proof. revert st d. step_fact. Qed.

(** The same facts for a whole directive list, from any starting state. *)
Lemma fold_MaxAge ds st :
  MaxAge (fst (fold_left responseDirective ds st)) =
    default (MaxAge (fst st)) (lastParsedAge "max-age" ds).
Proof.
  revert st. induction ds as [|d ds IH]; intros st; [reflexivity|].
  cbn [fold_left lastParsedAge]. rewrite IH, step_MaxAge.
  now destruct (lastParsedAge "max-age" ds).
Qed.

Lemma fold_SMaxAge ds st :
  SMaxAge (fst (fold_left responseDirective ds st)) =
    default (SMaxAge (fst st)) (lastParsedAge "s-maxage" ds).
Proof.
  revert st. induction ds as [|d ds IH]; intros st; [reflexivity|].
  cbn [fold_left lastParsedAge]. rewrite IH, step_SMaxAge.
  now destruct (lastParsedAge "s-maxage" ds).
Qed.

Lemma fold_Private ds st :
  Private (fst (fold_left responseDirective ds st)) =
    Private (fst st) || present (lastNamed "private" ds).
Proof.
  revert st. induction ds as [|d ds IH]; intros st; cbn [fold_left lastNamed].
  { now rewrite orb_false_r. }
  rewrite IH, step_Private.
  destruct (lastNamed "private" ds); cbn [present].
  - now rewrite !orb_true_r.
  - rewrite orb_false_r. now destruct (String.eqb _ "private").
Qed.

Lemma fold_PrivateHeaders ds st :
  PrivateHeaders (fst (fold_left responseDirective ds st)) =
    match lastNamed "private" ds with
    | Some d => headerNames (Some d)
    | None => PrivateHeaders (fst st)
    end.
Proof.
  revert st. induction ds as [|d ds IH]; intros st; cbn [fold_left lastNamed];
    [reflexivity|].
  rewrite IH, step_PrivateHeaders.
  destruct (lastNamed "private" ds); [reflexivity|].
  now destruct (String.eqb _ "private").
Qed.

Lemma fold_NoCache ds st :
  NoCache (fst (fold_left responseDirective ds st)) =
    NoCache (fst st) || present (lastNamed "no-cache" ds).
Proof.
  revert st. induction ds as [|d ds IH]; intros st; cbn [fold_left lastNamed].
  { now rewrite orb_false_r. }
  rewrite IH, step_NoCache.
  destruct (lastNamed "no-cache" ds); cbn [present].
  - now rewrite !orb_true_r.
  - rewrite orb_false_r. now destruct (String.eqb _ "no-cache").
Qed.

Lemma fold_NoCacheHeaders ds st :
  NoCacheHeaders (fst (fold_left responseDirective ds st)) =
    match lastNamed "no-cache" ds with
    | Some d => headerNames (Some d)
    | None => NoCacheHeaders (fst st)
    end.
Proof.
  revert st. induction ds as [|d ds IH]; intros st; cbn [fold_left lastNamed];
    [reflexivity|].
  rewrite IH, step_NoCacheHeaders.
  destruct (lastNamed "no-cache" ds); [reflexivity|].
  now destruct (String.eqb _ "no-cache").
Qed.

Lemma fold_errors ds st :
  snd (fold_left responseDirective ds st) = snd st ++ numericErrors ds.
Proof.
  revert st. induction ds as [|d ds IH]; intros st; cbn [fold_left numericErrors flat_map].
  { now rewrite app_nil_r. }
  fold (numericErrors ds). rewrite IH, step_errors. now rewrite <- app_assoc.
Qed.

(** [ParseResponseDirectives] through its two components. *)
Lemma ParseResponseDirectives_eq header :
  ParseResponseDirectives header =
    (fst (classifyResponse (Parse header)),
     joinErrors (snd (classifyResponse (Parse header)))).
Proof.
  unfold ParseResponseDirectives. now destruct (classifyResponse (Parse header)).
Qed.

End Classifier.

(** C8. When a numeric directive occurs more than once, the classifier keeps
    the value of its last occurrence that parsed: [MaxAge] and [SMaxAge] are
    the delta-seconds of the last [max-age] and [s-maxage] directive with a
    well-formed value (zero when there is none), every ill-formed one adds
    its error, in order, and none stops the classification. So
    [max-age=100, max-age=200] gives a [MaxAge] of 200 seconds and no error,
    [max-age=100, max-age=bad] keeps 100 seconds next to one error, and
    [no-cache, max-age=bad, no-store] gives [NoCache] and [NoStore] with
    exactly one invalid-value error for [max-age]. *)
Theorem ParseResponseDirectives_last_parsed_wins :
  (forall header : string,
     let ds := Parse header in
     let r := ParseResponseDirectives header in
     ResponseDirectives.MaxAge (fst r) = default 0%Z (lastParsedAge "max-age" ds) /\
     ResponseDirectives.SMaxAge (fst r) = default 0%Z (lastParsedAge "s-maxage" ds) /\
     snd r = joinErrors (numericErrors ds)) /\
  ParseResponseDirectives "max-age=100, max-age=200" =
    (ResponseDirectives.mk (200 * Second) false false false None false false
       false None false false 0 [], None) /\
  ParseResponseDirectives "max-age=100, max-age=bad" =
    (ResponseDirectives.mk (100 * Second) false false false None false false
       false None false false 0 [],
     Some (Join [Errorf "invalid value for max-age: " errInvalidDeltaSeconds])) /\
  ParseResponseDirectives "no-cache, max-age=bad, no-store" =
    (ResponseDirectives.mk 0 false false true None true false
       false None false false 0 [],
     Some (Join [Errorf "invalid value for max-age: " errInvalidDeltaSeconds])).
Proof.
  split; [|repeat split; vm_compute; reflexivity].
  intros header ds r. subst r. rewrite ParseResponseDirectives_eq.
  unfold classifyResponse. cbn [fst snd].
  rewrite fold_MaxAge, fold_SMaxAge, fold_errors. auto.
Qed.

(** C9. A [no-cache] or [private] directive sets its flag for good, and the
    header-name list is that of the last occurrence alone: the value split
    on whitespace when that occurrence carries a value, absent (nil) when it
    does not -- also when an earlier occurrence carried one. So a [private]
    with the quoted value [X Y] yields the list [X; Y], and the same
    followed by a bare [private] yields [Private] with no list. *)
Theorem ParseResponseDirectives_header_names :
  (forall header : string,
     let ds := Parse header in
     let c := fst (ParseResponseDirectives header) in
     ResponseDirectives.Private c = present (lastNamed "private" ds) /\
     ResponseDirectives.PrivateHeaders c = headerNames (lastNamed "private" ds) /\
     ResponseDirectives.NoCache c = present (lastNamed "no-cache" ds) /\
     ResponseDirectives.NoCacheHeaders c = headerNames (lastNamed "no-cache" ds)) /\
  ParseResponseDirectives ("private=" +:+ String dquote "X Y" +:+ String dquote "") =
    (ResponseDirectives.mk 0 false false false None false false
       true (Some ["X"; "Y"]) false false 0 [], None) /\
  ParseResponseDirectives
    ("private=" +:+ String dquote "X Y" +:+ String dquote ", private") =
    (ResponseDirectives.mk 0 false false false None false false
       true None false false 0 [], None).
Proof.
  split; [|split; vm_compute; reflexivity].
  intros header ds c. subst c. rewrite ParseResponseDirectives_eq.
  unfold classifyResponse. cbn [fst].
  rewrite fold_Private, fold_PrivateHeaders, fold_NoCache, fold_NoCacheHeaders.
  cbn. repeat split; now destruct (lastNamed _ ds).
Qed.

(** C10. The empty header yields nothing: [Parse] gives no directive, and
    both classifiers return the zero struct with a nil error. *)
Theorem empty_header_parses_to_nothing :
  Parse "" = [] /\
  ParseRequestDirectives "" =
    (RequestDirectives.mk 0 0 0 false false false false [], None) /\
  ParseResponseDirectives "" =
    (ResponseDirectives.mk 0 false false false None false false
       false None false false 0 [], None).
Proof. repeat split. Qed.

(** * Properties of the storage decision *)

Section Decision.

Variable timeParse : string -> string -> Z + error.

Local Open Scope Z_scope.

(** The directives of a response whose joined [Cache-Control] header holds a
    single, value-less [private]. *)
Lemma private_only_directives (resp : Response.t) (d : Directive.t) :
  Parse (StringsJoin (values (Response.Header resp) "Cache-Control") ", ") = [d] ->
  ToLower (Directive.Name d) = "private" ->
  Directive.HasValue d = false ->
  fst (ResponseDirectivesOf resp) =
    ResponseDirectives.mk 0 false false false None false false
      true None false false 0 [].
Proof.
  intros HP Hname Hval.
  unfold ResponseDirectivesOf, ParseResponseDirectives, classifyResponse.
  rewrite HP. cbn [fold_left]. unfold responseDirective, ResponseDirectives.zero.
  rewrite Hname, Hval. reflexivity.
Qed.

Lemma no_header_values (h : gmap string (list string)) (key : string) :
  h !! key = None -> values h key = [].
Proof. unfold values. now intros ->. Qed.

End Decision.

(** C1. In shared mode, a request that carries an [Authorization] value
    vetoes storage of every response whose directives hold neither
    [must-revalidate] nor [public] nor a positive [s-maxage]. *)
Theorem CanStore_authorization_veto
    (timeParse : string -> string -> Z + error)
    (c : Config.t) (req : Request.t) (resp : Response.t) (v : string) (vs : list string) :
  Config.Private c = false ->
  Request.Header req !! "Authorization" = Some (v :: vs) ->
  ResponseDirectives.MustRevalidate (fst (ResponseDirectivesOf resp)) = false ->
  ResponseDirectives.Public (fst (ResponseDirectivesOf resp)) = false ->
  ~ (ResponseDirectives.SMaxAge (fst (ResponseDirectivesOf resp)) > 0)%Z ->
  CanStore timeParse c req resp = false.
Proof.
  intros Hshared Hauth Hmr Hpub Hsm. unfold CanStore.
  destruct (negb (supportedRequestMethod c (Request.Method req))); [reflexivity|].
  destruct (Response.StatusCode resp <? 200)%Z; [reflexivity|].
  cbv zeta.
  destruct (_ && negb (canUnderstandResponseCode c (Response.StatusCode resp)));
    [reflexivity|].
  destruct (ResponseDirectives.NoStore _); [reflexivity|].
  destruct (negb (Config.Private c) && ResponseDirectives.Private _ && _); [reflexivity|].
  assert (HA : Authorized req = true).
  { unfold Authorized, values. now rewrite Hauth. }
  rewrite Hshared, HA, Hmr, Hpub.
  replace (_ <=? 0)%Z with true by (symmetry; apply Z.leb_le; lia).
  reflexivity.
Qed.

(** C2. A response whose only [Cache-Control] directive is a value-less
    [private] is never stored in shared mode; in private mode the directive
    itself is the signal that allows storing it, for every request and
    status that pass the checks made in both modes (supported method, final
    status, 206 and 304 understood, no [no-store] in the request unless
    ignored). *)
Theorem CanStore_private_directive
    (timeParse : string -> string -> Z + error)
    (c : Config.t) (req : Request.t) (resp : Response.t) (d : Directive.t) :
  Parse (StringsJoin (values (Response.Header resp) "Cache-Control") ", ") = [d] ->
  ToLower (Directive.Name d) = "private" ->
  Directive.HasValue d = false ->
  (Config.Private c = false -> CanStore timeParse c req resp = false) /\
  (Config.Private c = true ->
   supportedRequestMethod c (Request.Method req) = true ->
   (200 <= Response.StatusCode resp)%Z ->
   (Response.StatusCode resp = 206%Z \/ Response.StatusCode resp = 304%Z ->
    canUnderstandResponseCode c (Response.StatusCode resp) = true) ->
   (Config.IgnoreRequestDirectiveNoStore c = false ->
    RequestDirectives.NoStore (fst (RequestDirectivesOf req)) = false) ->
   CanStore timeParse c req resp = true).
Proof.
  intros HP Hname Hval.
  pose proof (private_only_directives resp d HP Hname Hval) as Hd.
  split.
  - intros Hshared. unfold CanStore. rewrite Hd, Hshared.
    cbn [ResponseDirectives.MustUnderstand ResponseDirectives.NoStore
         ResponseDirectives.Private ResponseDirectives.PrivateHeaders].
    destruct (negb (supportedRequestMethod c (Request.Method req))); [reflexivity|].
    destruct (Response.StatusCode resp <? 200)%Z; [reflexivity|].
    destruct (_ && negb (canUnderstandResponseCode c (Response.StatusCode resp)));
      [reflexivity|].
    cbn. now rewrite orb_true_r.
  - intros Hprivate Hmethod Hfinal Hunderstood Hnostore.
    unfold CanStore. rewrite Hd, Hprivate, Hmethod.
    cbn [ResponseDirectives.MustUnderstand ResponseDirectives.NoStore
         ResponseDirectives.Private ResponseDirectives.PrivateHeaders
         ResponseDirectives.Public ResponseDirectives.MustRevalidate negb].
    replace (Response.StatusCode resp <? 200)%Z with false
      by (symmetry; apply Z.ltb_ge; lia).
    assert (Hu : ((Response.StatusCode resp =? 206)%Z
                  || (Response.StatusCode resp =? 304)%Z || false)
                 && negb (canUnderstandResponseCode c (Response.StatusCode resp)) = false).
    { destruct (Z.eqb_spec (Response.StatusCode resp) 206) as [E|_].
      { rewrite Hunderstood by auto. reflexivity. }
      destruct (Z.eqb_spec (Response.StatusCode resp) 304) as [E|_].
      { rewrite Hunderstood by auto. reflexivity. }
      reflexivity. }
    rewrite Hu. cbn.
    destruct (Config.IgnoreRequestDirectiveNoStore c); [reflexivity|].
    now rewrite Hnostore.
Qed.

(** C3. With the zero configuration (shared mode, no hooks), a GET request
    and a 200 response that carry no [Cache-Control] header, the request
    carrying no [Authorization] header either, can be stored: GET is a
    method supported by default and 200 is heuristically cacheable by
    default. *)
Theorem CanStore_heuristic_default
    (timeParse : string -> string -> Z + error)
    (req : Request.t) (resp : Response.t) :
  Request.Method req = "GET" ->
  Response.StatusCode resp = 200%Z ->
  Request.Header req !! "Cache-Control" = None ->
  Request.Header req !! "Authorization" = None ->
  Response.Header resp !! "Cache-Control" = None ->
  supportedRequestMethod Config.zero "GET" = true /\
  isHeuristicallyCacheableStatusCode Config.zero 200 = true /\
  CanStore timeParse Config.zero req resp = true.
Proof.
  intros Hmethod Hcode Hreq Hauth Hresp. repeat split.
  unfold CanStore, ResponseDirectivesOf, RequestDirectivesOf, Authorized.
  rewrite Hmethod, Hcode.
  rewrite (no_header_values _ _ Hreq), (no_header_values _ _ Hauth),
    (no_header_values _ _ Hresp).
  cbn. now rewrite orb_true_r.
Qed.

(* ================================================================= *)
(** * Further properties *)

(** ** Delta-seconds, completely *)

Section DeltaSecondsSpec.

Local Open Scope Z_scope.

Lemma decimalFrom_ge (s : string) (d : Z) :
  allBytes isDigit s = true -> 0 <= d -> d <= decimalFrom d s.
Proof.
  revert d. induction s as [|c s IH]; intros d Hall Hd; simpl; [lia|].
  simpl in Hall. apply andb_prop in Hall as [Hc Hall]. apply isDigit_range in Hc.
  specialize (IH (10 * d + (Z.of_nat (nat_of_ascii c) - 48)) Hall). lia.
Qed.

(** While the number written stays small, the loop computes it. *)
Lemma parseDeltaSecondsFrom_exact (s : string) (d : Z) :
  allBytes isDigit s = true -> 0 <= d ->
  decimalFrom d s <= 9223372036 ->
  parseDeltaSecondsFrom s d = inl (decimalFrom d s).
Proof.
  revert d. induction s as [|c s IH]; intros d Hall Hd Hsmall; [reflexivity|].
  simpl in Hall. apply andb_prop in Hall as [Hc Hall].
  pose proof (isDigit_range c Hc) as Hr.
  cbn [parseDeltaSecondsFrom decimalFrom] in *.
  assert (Hge : 10 * d + (Z.of_nat (nat_of_ascii c) - 48)
                <= decimalFrom (10 * d + (Z.of_nat (nat_of_ascii c) - 48)) s)
    by (apply decimalFrom_ge; [assumption|lia]).
  remember (Z.of_nat (nat_of_ascii c)) as r eqn:Er.
  replace ((r <? 48) || (r >? 57)) with false
    by (symmetry; apply orb_false_intro; [|rewrite Z.gtb_ltb]; apply Z.ltb_ge; lia).
  rewrite (wrap_uint64_small (d * 10)) by lia.
  rewrite wrap_uint64_small by lia.
  replace (d * 10 + (r - 48) <? d) with false by (symmetry; apply Z.ltb_ge; lia).
  replace (d * 10 + (r - 48)) with (10 * d + (r - 48)) by lia.
  apply IH; auto; lia.
Qed.

(** A byte that is not a digit stops the loop, whatever was accumulated. *)
Lemma parseDeltaSecondsFrom_invalid (s : string) (d : Z) :
  allBytes isDigit s = false ->
  parseDeltaSecondsFrom s d = inr errInvalidDeltaSeconds.
Proof.
  revert d. induction s as [|c s IH]; intros d Hall; [discriminate|].
  simpl in Hall. cbn [parseDeltaSecondsFrom].
  destruct (isDigit c) eqn:Hc.
  - apply isDigit_range in Hc.
    replace ((Z.of_nat (nat_of_ascii c) <? 48) || (Z.of_nat (nat_of_ascii c) >? 57))
      with false
      by (symmetry; apply orb_false_intro; [|rewrite Z.gtb_ltb]; apply Z.ltb_ge; lia).
    apply IH. exact Hall.
  - unfold isDigit in Hc. apply andb_false_iff in Hc as [Hc|Hc];
      apply Nat.leb_gt in Hc.
    + replace (Z.of_nat (nat_of_ascii c) <? 48) with true
        by (symmetry; apply Z.ltb_lt; lia).
      reflexivity.
    + replace (Z.of_nat (nat_of_ascii c) >? 57) with true
        by (symmetry; rewrite Z.gtb_ltb; apply Z.ltb_lt; lia).
      now rewrite orb_true_r.
Qed.

(** The result of [ParseAge] on digits, in both regimes. *)
Lemma ParseAge_digits (s : string) :
  isDigits s = true ->
  ParseAge s =
    inl (if decimalValue s <=? 9223372036 then decimalValue s * Second else MaxInt64).
Proof.
  intros Hdigits. pose proof Hdigits as Hd. apply andb_prop in Hd as [Hne Hall].
  destruct (Z.leb_spec (decimalValue s) 9223372036) as [Hsmall|Hbig].
  - unfold ParseAge, parseDeltaSeconds. rewrite (nonempty_eqb _ Hne).
    rewrite parseDeltaSecondsFrom_exact by (auto; lia).
    fold (decimalValue s).
    pose proof (decimalFrom_ge s 0 Hall ltac:(lia)) as Hge. fold (decimalValue s) in Hge.
    rewrite wrap_int64_uint64 by lia.
    replace (decimalValue s <? 2 ^ 63) with true by (symmetry; apply Z.ltb_lt; lia).
    replace (decimalValue s <? 0) with false by (symmetry; apply Z.ltb_ge; lia).
    change (MaxInt64 / Second) with 9223372036.
    replace (decimalValue s >? 9223372036) with false
      by (symmetry; rewrite Z.gtb_ltb; apply Z.ltb_ge; lia).
    cbn [orb]. f_equal. unfold wrap_int64, Second.
    rewrite Z.mod_small by lia.
    replace (decimalValue s * 1000000000 <? 2 ^ 63) with true
      by (symmetry; apply Z.ltb_lt; lia).
    reflexivity.
  - unfold ParseAge, parseDeltaSeconds. rewrite (nonempty_eqb _ Hne).
    destruct (parseDeltaSecondsFrom_digits s 0 Hall) as (d & -> & Hrange & Hval); [lia|].
    assert (Hd : 9223372036 < d).
    { destruct (Z.le_gt_cases d 9223372036) as [Hle|]; [|assumption].
      rewrite (Hval Hle) in Hle. fold (decimalValue s) in Hle. lia. }
    rewrite wrap_int64_uint64 by lia.
    change (MaxInt64 / Second) with 9223372036.
    destruct (Z.ltb_spec d (2 ^ 63)).
    + replace (d >? 9223372036) with true by (symmetry; rewrite Z.gtb_ltb; apply Z.ltb_lt; lia).
      now rewrite orb_true_r.
    + replace (d - 2 ^ 64 <? 0) with true by (symmetry; apply Z.ltb_lt; lia).
      reflexivity.
Qed.

Lemma ParseAge_not_digits (s : string) :
  isDigits s = false ->
  ParseAge s =
    inr (if String.eqb s "" then errEmptyDeltaSeconds else errInvalidDeltaSeconds).
Proof.
  intros H. unfold ParseAge, parseDeltaSeconds.
  destruct (String.eqb s "") eqn:E; [reflexivity|].
  unfold isDigits in H. rewrite E in H. cbn [negb andb] in H.
  now rewrite parseDeltaSecondsFrom_invalid.
Qed.

Lemma comma_not_digits (a b : string) :
  allBytes isDigit (a +:+ String "," b) = false.
Proof.
  induction a as [|c a IH]; [reflexivity|].
  rewrite app_cons. cbn [allBytes]. rewrite IH. apply andb_false_r.
Qed.

End DeltaSecondsSpec.

(** [ParseAge] is the saturating reading of a decimal numeral: a non-empty
    string of digits gives the number of seconds written when it is at most
    9223372036 and the largest duration otherwise, never an error; the empty
    string gives the empty-value error and any other string the
    invalid-value error. *)
Theorem ParseAge_complete (s : string) :
  ParseAge s =
    if isDigits s then
      inl (if (decimalValue s <=? 9223372036)%Z
           then (decimalValue s * Second)%Z else MaxInt64)
    else
      inr (if String.eqb s "" then errEmptyDeltaSeconds else errInvalidDeltaSeconds).
Proof.
  destruct (isDigits s) eqn:E; [now apply ParseAge_digits|now apply ParseAge_not_digits].
Qed.

(** A duration returned by [ParseAge] is never negative and never beyond
    the largest duration; it is that largest duration or a whole number of
    seconds. *)
Theorem ParseAge_range (s : string) (dur : Z) :
  ParseAge s = inl dur ->
  (0 <= dur <= MaxInt64)%Z /\ (dur = MaxInt64 \/ (dur mod Second = 0)%Z).
Proof.
  intros H. destruct (isDigits s) eqn:E.
  - rewrite (ParseAge_digits s E) in H. injection H as <-.
    apply andb_prop in E as [_ Hall].
    pose proof (decimalFrom_ge s 0%Z Hall ltac:(lia)) as Hge. fold (decimalValue s) in Hge.
    destruct (Z.leb_spec (decimalValue s) 9223372036).
    + unfold MaxInt64, Second. split; [lia|]. right. apply Z.mod_mul. lia.
    + unfold MaxInt64. split; [lia|]. now left.
  - rewrite (ParseAge_not_digits s E) in H. discriminate H.
Qed.

(** [Response.Age]: without an [Age] header the age is zero with no error,
    one value is parsed as delta-seconds, and two or more values are always
    the invalid-value error, since they are joined with a comma. *)
Theorem Age_by_number_of_values (r : Response.t) :
  (Response.Header r !! "Age" = None -> Age r = inl 0%Z) /\
  (forall v, Response.Header r !! "Age" = Some [v] -> Age r = ParseAge v) /\
  (forall v1 v2 vs, Response.Header r !! "Age" = Some (v1 :: v2 :: vs) ->
     Age r = inr errInvalidDeltaSeconds).
Proof.
  unfold Age, values. repeat split.
  - now intros ->.
  - now intros v ->.
  - intros v1 v2 vs ->. cbn [default length Nat.eqb StringsJoin].
    rewrite ParseAge_not_digits.
    + destruct v1; reflexivity.
    + unfold isDigits. apply andb_false_iff. right. apply comma_not_digits.
Qed.

(** ** The classifiers, field by field *)

Section Folds.

Context {S : Type} (f : S -> Directive.t -> S).

(** A flag set by the directives named [name] and never reset. *)
Lemma fold_flag (flag : S -> bool) (name : string) :
  (forall st d, flag (f st d) = flag st || String.eqb (ToLower (Directive.Name d)) name) ->
  forall ds st, flag (fold_left f ds st) = flag st || present (lastNamed name ds).
Proof.
  intros Hstep ds. induction ds as [|d ds IH]; intros st; cbn [fold_left lastNamed].
  { now rewrite orb_false_r. }
  rewrite IH, Hstep. destruct (lastNamed name ds); cbn [present].
  - now rewrite !orb_true_r.
  - rewrite orb_false_r. now destruct (String.eqb _ name).
Qed.

(** A duration written by every directive named [name] whose value parses. *)
Lemma fold_age (age : S -> Z) (name : string) :
  (forall st d,
     age (f st d) =
       default (age st)
         (if String.eqb (ToLower (Directive.Name d)) name then parsedAge d else None)) ->
  forall ds st, age (fold_left f ds st) = default (age st) (lastParsedAge name ds).
Proof.
  intros Hstep ds. induction ds as [|d ds IH]; intros st; [reflexivity|].
  cbn [fold_left lastParsedAge]. rewrite IH, Hstep.
  now destruct (lastParsedAge name ds).
Qed.

(** A list that every directive may extend at its end. *)
Lemma fold_append {B : Type} (items : S -> list B) (g : Directive.t -> list B) :
  (forall st d, items (f st d) = items st ++ g d) ->
  forall ds st, items (fold_left f ds st) = items st ++ flat_map g ds.
Proof.
  intros Hstep ds. induction ds as [|d ds IH]; intros st; cbn [fold_left flat_map].
  { now rewrite app_nil_r. }
  rewrite IH, Hstep. now rewrite <- app_assoc.
Qed.

End Folds.

Section ClassifierFields.

Lemma flat_map_extensions (names : list string) (ds : list Directive.t) :
  flat_map (fun d => if named names d then [] else [toExtension d]) ds =
    extensionsOf names ds.
Proof.
  unfold extensionsOf. induction ds as [|d ds IH]; [reflexivity|].
  cbn [flat_map filter]. rewrite IH.
  unfold filter at 2. cbn [list_filter].
  destruct (decide (negb (named names d))) as [H|H];
    destruct (named names d); cbn in *; try reflexivity; tauto.
Qed.

Lemma ParseRequestDirectives_eq header :
  ParseRequestDirectives header =
    (fst (classifyRequest (Parse header)),
     joinErrors (snd (classifyRequest (Parse header)))).
Proof.
  unfold ParseRequestDirectives. now destruct (classifyRequest (Parse header)).
Qed.

Lemma joinErrors_nil (errs : list error) : joinErrors errs = None <-> errs = [].
Proof. destruct errs; cbn; split; intros H; try reflexivity; discriminate H. Qed.

(** The errors of a directive list are empty exactly when its numeric
    directives are well formed. *)
Lemma ageErrors_nil (names : list string) (ds : list Directive.t) :
  flat_map (ageError names) ds = [] <-> wellFormedAges names ds = true.
Proof.
  unfold wellFormedAges. induction ds as [|d ds IH]; cbn [flat_map forallb]; [tauto|].
  rewrite andb_true_iff, <- IH. unfold ageError.
  destruct (named names d); cbn [negb orb].
  - destruct (isDigits (Directive.Value d)) eqn:E.
    + rewrite (ParseAge_digits _ E). cbn. tauto.
    + rewrite (ParseAge_not_digits _ E). cbn. split; [discriminate|intros [? _]; discriminate].
  - cbn. tauto.
Qed.

End ClassifierFields.

(** [ParseRequestDirectives], field by field, for every header: a duration
    is the value of the last directive of its name that parses (zero when
    there is none), a flag is set exactly when a directive of its name
    occurs, with or without a value, and the names are matched without
    regard to case. *)
Theorem ParseRequestDirectives_fields (header : string) :
  let ds := Parse header in
  let c := fst (ParseRequestDirectives header) in
  RequestDirectives.MaxAge c = default 0%Z (lastParsedAge "max-age" ds) /\
  RequestDirectives.MaxStale c = default 0%Z (lastParsedAge "max-stale" ds) /\
  RequestDirectives.MinFresh c = default 0%Z (lastParsedAge "min-fresh" ds) /\
  RequestDirectives.NoCache c = present (lastNamed "no-cache" ds) /\
  RequestDirectives.NoStore c = present (lastNamed "no-store" ds) /\
  RequestDirectives.NoTransform c = present (lastNamed "no-transform" ds) /\
  RequestDirectives.OnlyIfCached c = present (lastNamed "only-if-cached" ds).
Proof.
  intros ds c. subst c. rewrite ParseRequestDirectives_eq. cbn [fst].
  unfold classifyRequest.
  rewrite (fold_age requestDirective (fun st => RequestDirectives.MaxAge (fst st)) "max-age")
    by request_step_fact.
  rewrite (fold_age requestDirective (fun st => RequestDirectives.MaxStale (fst st)) "max-stale")
    by request_step_fact.
  rewrite (fold_age requestDirective (fun st => RequestDirectives.MinFresh (fst st)) "min-fresh")
    by request_step_fact.
  rewrite (fold_flag requestDirective (fun st => RequestDirectives.NoCache (fst st)) "no-cache")
    by request_step_fact.
  rewrite (fold_flag requestDirective (fun st => RequestDirectives.NoStore (fst st)) "no-store")
    by request_step_fact.
  rewrite (fold_flag requestDirective (fun st => RequestDirectives.NoTransform (fst st))
             "no-transform") by request_step_fact.
  rewrite (fold_flag requestDirective (fun st => RequestDirectives.OnlyIfCached (fst st))
             "only-if-cached") by request_step_fact.
  cbn. auto 10.
Qed.

(** The fields of [ParseResponseDirectives] that are plain flags: each is
    set exactly when a directive of its name occurs. *)
Theorem ParseResponseDirectives_flags (header : string) :
  let ds := Parse header in
  let c := fst (ParseResponseDirectives header) in
  ResponseDirectives.MustRevalidate c = present (lastNamed "must-revalidate" ds) /\
  ResponseDirectives.MustUnderstand c = present (lastNamed "must-understand" ds) /\
  ResponseDirectives.NoStore c = present (lastNamed "no-store" ds) /\
  ResponseDirectives.NoTransform c = present (lastNamed "no-transform" ds) /\
  ResponseDirectives.ProxyRevalidate c = present (lastNamed "proxy-revalidate" ds) /\
  ResponseDirectives.Public c = present (lastNamed "public" ds).
Proof.
  intros ds c. subst c. rewrite ParseResponseDirectives_eq. cbn [fst].
  unfold classifyResponse.
  rewrite (fold_flag responseDirective (fun st => ResponseDirectives.MustRevalidate (fst st))
             "must-revalidate") by response_step_fact.
  rewrite (fold_flag responseDirective (fun st => ResponseDirectives.MustUnderstand (fst st))
             "must-understand") by response_step_fact.
  rewrite (fold_flag responseDirective (fun st => ResponseDirectives.NoStore (fst st))
             "no-store") by response_step_fact.
  rewrite (fold_flag responseDirective (fun st => ResponseDirectives.NoTransform (fst st))
             "no-transform") by response_step_fact.
  rewrite (fold_flag responseDirective (fun st => ResponseDirectives.ProxyRevalidate (fst st))
             "proxy-revalidate") by response_step_fact.
  rewrite (fold_flag responseDirective (fun st => ResponseDirectives.Public (fst st))
             "public") by response_step_fact.
  cbn. auto 10.
Qed.

(** The extensions of both classifiers are exactly the directives whose
    lower-cased name is outside the vocabulary, in the order of the header,
    repeated ones included, each with the name, value and has-value flag
    that [Parse] gave it: the name is kept as written. *)
Theorem Extensions_are_the_unknown_directives (header : string) :
  RequestDirectives.Extensions (fst (ParseRequestDirectives header)) =
    extensionsOf requestNames (Parse header) /\
  ResponseDirectives.Extensions (fst (ParseResponseDirectives header)) =
    extensionsOf responseNames (Parse header).
Proof.
  rewrite ParseRequestDirectives_eq, ParseResponseDirectives_eq. cbn [fst].
  unfold classifyRequest, classifyResponse. split.
  - rewrite (fold_append requestDirective
               (fun st => RequestDirectives.Extensions (fst st))
               (fun d => if named requestNames d then [] else [toExtension d]))
      by request_step_fact.
    apply flat_map_extensions.
  - rewrite (fold_append responseDirective
               (fun st => ResponseDirectives.Extensions (fst st))
               (fun d => if named responseNames d then [] else [toExtension d]))
      by response_step_fact.
    apply flat_map_extensions.
Qed.

(** Both classifiers return a nil error exactly when every numeric directive
    of the header has a non-empty value made of digits; a value too large to
    represent is no error. *)
Theorem classifier_error_is_nil_iff (header : string) :
  (snd (ParseRequestDirectives header) = None <->
   wellFormedAges ["max-age"; "max-stale"; "min-fresh"] (Parse header) = true) /\
  (snd (ParseResponseDirectives header) = None <->
   wellFormedAges ["max-age"; "s-maxage"] (Parse header) = true).
Proof.
  rewrite ParseRequestDirectives_eq, ParseResponseDirectives_eq. cbn [snd].
  unfold classifyRequest, classifyResponse. split.
  - rewrite (fold_append requestDirective snd
               (ageError ["max-age"; "max-stale"; "min-fresh"])).
    + cbn [snd app]. rewrite joinErrors_nil. apply ageErrors_nil.
    + intros [c errs] d. destruct c.
      unfold requestDirective, ageError, named. cbn [snd existsb].
      generalize (ToLower (Directive.Name d)); intros name.
      by_name; try destruct (ParseAge (Directive.Value d)); cbn;
        rewrite ?app_nil_r; reflexivity.
  - rewrite (fold_append responseDirective snd (ageError ["max-age"; "s-maxage"])).
    + cbn [snd app]. rewrite joinErrors_nil. apply ageErrors_nil.
    + intros [c errs] d. destruct c.
      unfold responseDirective, ageError, named. cbn [snd existsb].
      generalize (ToLower (Directive.Name d)); intros name.
      by_name; try destruct (ParseAge (Directive.Value d)); cbn;
        rewrite ?app_nil_r; reflexivity.
Qed.

(** ** The storage decision across modes *)

(** What [CanStore] never does, under any configuration and any hooks: it
    never stores for an unsupported method, an interim status, a response
    with [no-store], a 206, 304 or [must-understand] response whose status
    the configuration does not understand, or a request with [no-store]
    unless told to ignore it. *)
Theorem CanStore_necessary
    (timeParse : string -> string -> Z + error)
    (c : Config.t) (req : Request.t) (resp : Response.t) :
  CanStore timeParse c req resp = true ->
  supportedRequestMethod c (Request.Method req) = true /\
  (200 <= Response.StatusCode resp)%Z /\
  ResponseDirectives.NoStore (fst (ResponseDirectivesOf resp)) = false /\
  (Response.StatusCode resp = 206%Z \/ Response.StatusCode resp = 304%Z \/
   ResponseDirectives.MustUnderstand (fst (ResponseDirectivesOf resp)) = true ->
   canUnderstandResponseCode c (Response.StatusCode resp) = true) /\
  (Config.IgnoreRequestDirectiveNoStore c = false ->
   RequestDirectives.NoStore (fst (RequestDirectivesOf req)) = false).
Proof.
  unfold CanStore.
  destruct (supportedRequestMethod c (Request.Method req)); [|discriminate].
  cbn [negb]. destruct (Z.ltb_spec (Response.StatusCode resp) 200); [discriminate|].
  cbv zeta.
  destruct (ResponseDirectives.NoStore (fst (ResponseDirectivesOf resp))).
  { destruct (_ && negb (canUnderstandResponseCode c _)); discriminate. }
  destruct (canUnderstandResponseCode c (Response.StatusCode resp)) eqn:Hu.
  - rewrite andb_false_r.
    destruct (_ && _ && _); [discriminate|].
    destruct (_ && _ && _ && _ && _); [discriminate|].
    destruct (negb _); [discriminate|].
    destruct (Config.IgnoreRequestDirectiveNoStore c); cbn [negb andb].
    + intros _. repeat split; auto. discriminate.
    + destruct (RequestDirectives.NoStore _); [discriminate|]. repeat split; auto.
  - rewrite andb_true_r.
    destruct (Z.eqb_spec (Response.StatusCode resp) 206); [discriminate|].
    destruct (Z.eqb_spec (Response.StatusCode resp) 304); [discriminate|].
    destruct (ResponseDirectives.MustUnderstand _); [discriminate|]. cbn [orb].
    destruct (_ && _ && _); [discriminate|].
    destruct (_ && _ && _ && _ && _); [discriminate|].
    destruct (negb _); [discriminate|].
    destruct (Config.IgnoreRequestDirectiveNoStore c); cbn [negb andb].
    + intros _. repeat split; auto; try discriminate. intros [?|[?|?]]; congruence.
    + destruct (RequestDirectives.NoStore _); [discriminate|].
      repeat split; auto. intros [?|[?|?]]; congruence.
Qed.

(** The shared/private bit is all that separates the two modes, and it only
    matters through [private], [s-maxage] and [Authorization]: for a
    response without the [private] directive and without a positive
    [s-maxage], and a request without [Authorization] values, a shared cache
    and a private cache with otherwise the same configuration decide
    alike. *)
Theorem CanStore_modes_agree
    (timeParse : string -> string -> Z + error)
    (c : Config.t) (req : Request.t) (resp : Response.t) :
  ResponseDirectives.Private (fst (ResponseDirectivesOf resp)) = false ->
  (ResponseDirectives.SMaxAge (fst (ResponseDirectivesOf resp)) <= 0)%Z ->
  Authorized req = false ->
  CanStore timeParse (withPrivate false c) req resp =
    CanStore timeParse (withPrivate true c) req resp.
Proof.
  intros Hp Hs Ha. unfold CanStore.
  change (supportedRequestMethod (withPrivate false c))
    with (supportedRequestMethod (withPrivate true c)).
  change (canUnderstandResponseCode (withPrivate false c))
    with (canUnderstandResponseCode (withPrivate true c)).
  change (cacheableByExtension (withPrivate false c))
    with (cacheableByExtension (withPrivate true c)).
  change (isHeuristicallyCacheableStatusCode (withPrivate false c))
    with (isHeuristicallyCacheableStatusCode (withPrivate true c)).
  cbn [withPrivate Config.Private Config.RespectPrivateHeaders
       Config.IgnoreRequestDirectiveNoStore].
  rewrite Hp, Ha.
  replace (ResponseDirectives.SMaxAge (fst (ResponseDirectivesOf resp)) >? 0)%Z
    with false by (symmetry; rewrite Z.gtb_ltb; apply Z.ltb_ge; lia).
  cbn [negb andb orb]. reflexivity.
Qed.

(** A positive [s-maxage] is a reason to store for a shared cache only: when
    it is the one signal a response carries, a private cache refuses the
    response, while a shared cache stores it as soon as the checks that
    [CanStore_necessary] lists pass, be the request authorized or not. *)
Theorem CanStore_s_maxage_is_for_shared_caches
    (timeParse : string -> string -> Z + error)
    (c : Config.t) (req : Request.t) (resp : Response.t) :
  let d := fst (ResponseDirectivesOf resp) in
  (0 < ResponseDirectives.SMaxAge d)%Z ->
  ResponseDirectives.Public d = false ->
  ResponseDirectives.Private d = false ->
  (ResponseDirectives.MaxAge d <= 0)%Z ->
  timeOf (Expires timeParse resp) = 0%Z ->
  cacheableByExtension c req resp = false ->
  isHeuristicallyCacheableStatusCode c (Response.StatusCode resp) = false ->
  CanStore timeParse (withPrivate true c) req resp = false /\
  (supportedRequestMethod c (Request.Method req) = true ->
   (200 <= Response.StatusCode resp)%Z ->
   ResponseDirectives.NoStore d = false ->
   (Response.StatusCode resp = 206%Z \/ Response.StatusCode resp = 304%Z \/
    ResponseDirectives.MustUnderstand d = true ->
    canUnderstandResponseCode c (Response.StatusCode resp) = true) ->
   (Config.IgnoreRequestDirectiveNoStore c = false ->
    RequestDirectives.NoStore (fst (RequestDirectivesOf req)) = false) ->
   CanStore timeParse (withPrivate false c) req resp = true).
Proof.
  intros d Hs Hpub Hpriv Hmax Hexp Hext Hheur. subst d.
  assert (Hgt : (ResponseDirectives.SMaxAge (fst (ResponseDirectivesOf resp)) >? 0)%Z = true)
    by (rewrite Z.gtb_ltb; apply Z.ltb_lt; lia).
  assert (Hle : (ResponseDirectives.SMaxAge (fst (ResponseDirectivesOf resp)) <=? 0)%Z = false)
    by (apply Z.leb_gt; lia).
  assert (Hm : (ResponseDirectives.MaxAge (fst (ResponseDirectivesOf resp)) >? 0)%Z = false)
    by (rewrite Z.gtb_ltb; apply Z.ltb_ge; lia).
  unfold CanStore.
  change (supportedRequestMethod (withPrivate true c)) with (supportedRequestMethod c).
  change (canUnderstandResponseCode (withPrivate true c)) with (canUnderstandResponseCode c).
  change (cacheableByExtension (withPrivate true c)) with (cacheableByExtension c).
  change (isHeuristicallyCacheableStatusCode (withPrivate true c))
    with (isHeuristicallyCacheableStatusCode c).
  change (supportedRequestMethod (withPrivate false c)) with (supportedRequestMethod c).
  change (canUnderstandResponseCode (withPrivate false c)) with (canUnderstandResponseCode c).
  change (cacheableByExtension (withPrivate false c)) with (cacheableByExtension c).
  change (isHeuristicallyCacheableStatusCode (withPrivate false c))
    with (isHeuristicallyCacheableStatusCode c).
  cbn [withPrivate Config.Private Config.RespectPrivateHeaders
       Config.IgnoreRequestDirectiveNoStore].
  rewrite Hpub, Hpriv, Hexp, Hext, Hheur, Hgt, Hle, Hm.
  cbn [negb andb orb Z.eqb].
  rewrite !andb_false_r. cbn [negb andb orb].
  split.
  - destruct (supportedRequestMethod c _); [|reflexivity].
    destruct (_ <? 200)%Z; [reflexivity|].
    destruct (_ && negb (canUnderstandResponseCode c _)); [reflexivity|].
    now destruct (ResponseDirectives.NoStore _).
  - intros Hmethod Hfinal Hnostore Hunderstood Hreq.
    rewrite Hmethod, Hnostore. cbn [negb].
    replace (Response.StatusCode resp <? 200)%Z with false
      by (symmetry; apply Z.ltb_ge; lia).
    assert (Hu : ((Response.StatusCode resp =? 206)%Z
                  || (Response.StatusCode resp =? 304)%Z
                  || ResponseDirectives.MustUnderstand (fst (ResponseDirectivesOf resp)))
                 && negb (canUnderstandResponseCode c (Response.StatusCode resp)) = false).
    { destruct (Z.eqb_spec (Response.StatusCode resp) 206) as [E|_].
      { rewrite Hunderstood by auto. reflexivity. }
      destruct (Z.eqb_spec (Response.StatusCode resp) 304) as [E|_].
      { rewrite Hunderstood by auto. reflexivity. }
      destruct (ResponseDirectives.MustUnderstand _) eqn:E; [|reflexivity].
      rewrite Hunderstood by auto. reflexivity. }
    rewrite Hu.
    destruct (Config.IgnoreRequestDirectiveNoStore c); [reflexivity|].
    now rewrite Hreq.
Qed.

(** ** Header fields that must not be stored *)

Section Unstorable.

Variable canonical : string -> string.

Lemma deleteNamed_lookup (names : list string) (h : gmap string (list string)) (k : string) :
  deleteNamed canonical names h !! k =
    if bool_decide (k ∈ map canonical names) then None else h !! k.
Proof.
  unfold deleteNamed. revert h.
  induction names as [|n names IH]; intros h; cbn [fold_left map].
  { rewrite bool_decide_eq_false_2; [reflexivity|]. apply not_elem_of_nil. }
  rewrite IH, lookup_delete.
  destruct (decide (canonical n = k)) as [<-|Hne].
  - rewrite (bool_decide_eq_true_2 (canonical n ∈ canonical n :: map canonical names))
      by apply list_elem_of_here.
    now destruct (bool_decide _).
  - destruct (bool_decide (k ∈ map canonical names)) eqn:E.
    + apply bool_decide_eq_true in E.
      rewrite bool_decide_eq_true_2; [reflexivity|]. now apply list_elem_of_further.
    + apply bool_decide_eq_false in E.
      rewrite bool_decide_eq_false_2; [reflexivity|].
      intros H. apply elem_of_cons in H as [H|H]; [congruence|contradiction].
Qed.

Lemma deleteNamed_app (xs ys : list string) (h : gmap string (list string)) :
  deleteNamed canonical (xs ++ ys) h = deleteNamed canonical ys (deleteNamed canonical xs h).
Proof. unfold deleteNamed. apply fold_left_app. Qed.

Lemma deleteNamed_connection (connection : list string) (h : gmap string (list string)) :
  fold_left (fun headers tokens => deleteNamed canonical (Fields tokens) headers)
    connection h =
  deleteNamed canonical (flat_map Fields connection) h.
Proof.
  revert h. induction connection as [|t connection IH]; intros h; [reflexivity|].
  cbn [fold_left flat_map]. now rewrite IH, deleteNamed_app.
Qed.

(** The map as the [Connection] header leaves it. *)
Lemma after_connection_lookup (h : gmap string (list string)) (k : string) :
  deleteNamed canonical (flat_map Fields (values h "Connection"))
    (delete "Connection" h) !! k =
  if bool_decide (k ∈ connectionKeys canonical h) then None else h !! k.
Proof.
  rewrite deleteNamed_lookup, lookup_delete. unfold connectionKeys.
  destruct (decide ("Connection" = k)) as [<-|Hne].
  - rewrite (bool_decide_eq_true_2 ("Connection" ∈ "Connection" :: _))
      by apply list_elem_of_here.
    now destruct (bool_decide _).
  - destruct (bool_decide (k ∈ map canonical _)) eqn:E.
    + apply bool_decide_eq_true in E.
      rewrite bool_decide_eq_true_2; [reflexivity|]. now apply list_elem_of_further.
    + apply bool_decide_eq_false in E.
      rewrite bool_decide_eq_false_2; [reflexivity|].
      intros H. apply elem_of_cons in H as [H|H]; [congruence|contradiction].
Qed.

Lemma after_connection_cache_control (h : gmap string (list string)) :
  values
    (deleteNamed canonical (flat_map Fields (values h "Connection"))
       (delete "Connection" h)) "Cache-Control" =
  remainingCacheControl canonical h.
Proof.
  unfold values at 1. rewrite after_connection_lookup. unfold remainingCacheControl.
  now destruct (bool_decide _).
Qed.

Lemma proxy_lookup (c : Config.t) (h : gmap string (list string)) (k : string) :
  (if negb (Config.StoreProxyHeaders c) then
     delete "Proxy-Authorization"
       (delete "Proxy-Authentication-Info" (delete "Proxy-Authenticate" h))
   else h) !! k =
  if bool_decide (k ∈ proxyKeys c) then None else h !! k.
Proof.
  unfold proxyKeys. destruct (Config.StoreProxyHeaders c); cbn [negb].
  { rewrite bool_decide_eq_false_2; [reflexivity|]. apply not_elem_of_nil. }
  rewrite !lookup_delete.
  destruct (decide ("Proxy-Authorization" = k)) as [<-|H1]; [reflexivity|].
  destruct (decide ("Proxy-Authentication-Info" = k)) as [<-|H2]; [reflexivity|].
  destruct (decide ("Proxy-Authenticate" = k)) as [<-|H3]; [reflexivity|].
  rewrite bool_decide_eq_false_2; [reflexivity|].
  rewrite !elem_of_cons, elem_of_nil. intros [?|[?|[?|[]]]]; congruence.
Qed.

Lemma private_lookup (c : Config.t) (h : gmap string (list string)) (k : string) :
  let h2 := deleteNamed canonical (flat_map Fields (values h "Connection"))
              (delete "Connection" h) in
  (if Config.RespectPrivateHeaders c && Nat.ltb 0 (length (values h2 "Cache-Control"))
   then
     deleteNamed canonical
       (default []
          (ResponseDirectives.PrivateHeaders
             (fst (ParseResponseDirectives (StringsJoin (values h2 "Cache-Control") ",")))))
       h2
   else h2) !! k =
  if bool_decide (k ∈ privateKeys canonical c h) then None else h2 !! k.
Proof.
  intros h2. subst h2. rewrite after_connection_cache_control. unfold privateKeys.
  destruct (Config.RespectPrivateHeaders c); cbn [andb].
  2:{ rewrite bool_decide_eq_false_2; [reflexivity|]. apply not_elem_of_nil. }
  destruct (remainingCacheControl canonical h) as [|v vs] eqn:E.
  - cbn. rewrite bool_decide_eq_false_2; [reflexivity|]. apply not_elem_of_nil.
  - cbn [length Nat.ltb Nat.leb]. apply deleteNamed_lookup.
Qed.

(** [RemoveUnstorableHeaders], key by key. *)
Lemma RemoveUnstorableHeaders_lookup (c : Config.t) (h : gmap string (list string))
    (k : string) :
  RemoveUnstorableHeaders canonical c h !! k =
    if bool_decide (k ∈ unstorableKeys canonical c h) then None else h !! k.
Proof.
  unfold RemoveUnstorableHeaders. cbv zeta.
  rewrite deleteNamed_connection, proxy_lookup, private_lookup, after_connection_lookup.
  unfold unstorableKeys.
  destruct (bool_decide (k ∈ proxyKeys c)) eqn:E3;
    destruct (bool_decide (k ∈ privateKeys canonical c h)) eqn:E2;
    destruct (bool_decide (k ∈ connectionKeys canonical h)) eqn:E1;
    try apply bool_decide_eq_true in E1; try apply bool_decide_eq_true in E2;
    try apply bool_decide_eq_true in E3; try apply bool_decide_eq_false in E1;
    try apply bool_decide_eq_false in E2; try apply bool_decide_eq_false in E3;
    (rewrite bool_decide_eq_true_2 by (rewrite !elem_of_app; tauto); reflexivity)
    || (rewrite bool_decide_eq_false_2 by (rewrite !elem_of_app; tauto); reflexivity).
Qed.

End Unstorable.

(** [RemoveUnstorableHeaders] only ever removes whole fields, and removes
    exactly these: [Connection] and the fields it names; when the
    configuration respects them, the fields named by the [private]
    directive of the [Cache-Control] header (if [Connection] has not taken
    that header away); and, unless the configuration stores them, the three
    proxy fields. Every other field is kept with its values. *)
Theorem RemoveUnstorableHeaders_removes_exactly
    (canonical : string -> string) (c : Config.t) (h : gmap string (list string)) :
  (forall k, k ∈ unstorableKeys canonical c h ->
     RemoveUnstorableHeaders canonical c h !! k = None) /\
  (forall k, k ∉ unstorableKeys canonical c h ->
     RemoveUnstorableHeaders canonical c h !! k = h !! k).
Proof.
  split; intros k Hk; rewrite RemoveUnstorableHeaders_lookup.
  - now rewrite bool_decide_eq_true_2.
  - now rewrite bool_decide_eq_false_2.
Qed.

(** Removing the unstorable fields twice is the same as removing them
    once. *)
Theorem RemoveUnstorableHeaders_idempotent
    (canonical : string -> string) (c : Config.t) (h : gmap string (list string)) :
  RemoveUnstorableHeaders canonical c (RemoveUnstorableHeaders canonical c h) =
    RemoveUnstorableHeaders canonical c h.
Proof.
  set (h' := RemoveUnstorableHeaders canonical c h).
  apply map_eq. intros k. rewrite RemoveUnstorableHeaders_lookup.
  destruct (bool_decide (k ∈ unstorableKeys canonical c h')) eqn:E; [|reflexivity].
  apply bool_decide_eq_true in E. symmetry.
  assert (Hconn : values h' "Connection" = []).
  { unfold values, h'. rewrite RemoveUnstorableHeaders_lookup.
    rewrite bool_decide_eq_true_2; [reflexivity|].
    unfold unstorableKeys, connectionKeys. rewrite elem_of_app. left. apply list_elem_of_here. }
  assert (Hgone : forall k', k' ∈ unstorableKeys canonical c h -> h' !! k' = None).
  { intros k' Hk'. unfold h'. rewrite RemoveUnstorableHeaders_lookup.
    now rewrite bool_decide_eq_true_2. }
  unfold unstorableKeys in E. rewrite !elem_of_app in E.
  destruct E as [E|[E|E]].
  - unfold connectionKeys in E. rewrite Hconn in E. cbn in E.
    apply list_elem_of_singleton in E as ->.
    apply Hgone. unfold unstorableKeys, connectionKeys. rewrite elem_of_app. left.
    apply list_elem_of_here.
  - assert (Hcc : remainingCacheControl canonical h' = [] \/
                  remainingCacheControl canonical h' = remainingCacheControl canonical h).
    { assert (Hkeys : connectionKeys canonical h' = ["Connection"])
        by (unfold connectionKeys; now rewrite Hconn).
      assert (Hleft : remainingCacheControl canonical h' = values h' "Cache-Control").
      { unfold remainingCacheControl.
        destruct (bool_decide ("Cache-Control" ∈ connectionKeys canonical h')) eqn:X;
          [|reflexivity].
        apply bool_decide_eq_true in X. rewrite Hkeys in X.
        apply list_elem_of_singleton in X. discriminate X. }
      rewrite Hleft. unfold values at 1 2. unfold h'.
      rewrite RemoveUnstorableHeaders_lookup.
      destruct (bool_decide ("Cache-Control" ∈ unstorableKeys canonical c h)) eqn:E';
        [now left|].
      right. apply bool_decide_eq_false in E'. unfold remainingCacheControl.
      rewrite bool_decide_eq_false_2; [reflexivity|].
      intros H. apply E'. unfold unstorableKeys. rewrite elem_of_app. now left. }
    unfold privateKeys in E. destruct Hcc as [Hcc|Hcc]; rewrite Hcc in E.
    + destruct (Config.RespectPrivateHeaders c); cbn in E; now apply elem_of_nil in E.
    + apply Hgone. unfold unstorableKeys. rewrite !elem_of_app. right. left. exact E.
  - apply Hgone. unfold unstorableKeys. rewrite !elem_of_app. auto.
Qed.

(** ** The names of the Vary header *)

Section Compaction.

Lemma dedupAdjacent_snoc (l : list string) (x : string) :
  dedupAdjacent (l ++ [x]) = keepNew (dedupAdjacent l) x.
Proof. unfold dedupAdjacent. now rewrite fold_left_app. Qed.

Lemma at_lookup (l : list string) (i : nat) (x : string) :
  l !! i = Some x -> at' l i = x.
Proof. unfold at'. now intros ->. Qed.

(** The state of the second loop of [Response.Vary] after the indexes below
    [i]: the slice up to [last] holds the names kept so far, and the slice
    from [i] on is untouched. *)
Lemma varyLoop_invariant (l : list string) (i : nat) :
  (1 <= i <= length l)%nat ->
  let '(hs, k) := fold_left varyStep (seq 0 i) (l, 0%nat) in
  (k < i)%nat /\ length hs = length l /\ drop i hs = drop i l /\
  take (S k) hs = dedupAdjacent (take i l).
Proof.
  intros [Hlo Hhi]. induction i as [|i IH]; [lia|].
  destruct (Nat.eq_dec i 0) as [->|Hi].
  { destruct l as [|x l]; [simpl in Hhi; lia|].
    cbn [seq fold_left varyStep]. unfold at'. cbn [lookup list_lookup default].
    rewrite String.eqb_refl. repeat split; try lia. }
  rewrite seq_S, fold_left_app. cbn [fold_left Nat.add].
  destruct (fold_left varyStep (seq 0 i) (l, 0%nat)) as [hs k].
  destruct IH as (Hk & Hlen & Hdrop & Htake); [lia|lia|].
  destruct (lookup_lt_is_Some_2 l i ltac:(lia)) as [x Hx].
  destruct (lookup_lt_is_Some_2 hs k ltac:(lia)) as [y Hy].
  assert (Hxi : hs !! i = Some x).
  { rewrite <- (Nat.add_0_r i), <- lookup_drop, Hdrop, lookup_drop, Nat.add_0_r. exact Hx. }
  assert (Hkept : last (dedupAdjacent (take i l)) = Some y).
  { rewrite <- Htake, last_lookup, length_take.
    replace (Init.Nat.pred (S k `min` length hs)) with k by lia.
    rewrite lookup_take_lt by lia. exact Hy. }
  rewrite (take_S_r l i x Hx), dedupAdjacent_snoc. unfold keepNew. rewrite Hkept.
  unfold varyStep. rewrite (at_lookup hs i x Hxi), (at_lookup hs k y Hy).
  destruct (String.eqb x y).
  - repeat split; try lia; [|exact Htake].
    replace (S i) with (i + 1)%nat by lia. rewrite <- !drop_drop. now rewrite Hdrop.
  - repeat split; try lia.
    + now rewrite length_insert.
    + rewrite drop_insert_lt by lia.
      replace (S i) with (i + 1)%nat by lia. rewrite <- !drop_drop. now rewrite Hdrop.
    + rewrite (take_S_r _ (S k) x) by (apply list_lookup_insert_eq; lia).
      rewrite take_insert_ge by lia. now rewrite Htake.
Qed.

Lemma keepNew_elem (kept : list string) (a x : string) :
  x ∈ keepNew kept a <-> x ∈ kept \/ x = a.
Proof.
  unfold keepNew. destruct (last kept) as [y|] eqn:E.
  - destruct (String.eqb_spec a y) as [->|Hne].
    + apply last_Some in E as [l' ->]. rewrite elem_of_app, list_elem_of_singleton. tauto.
    + rewrite elem_of_app, list_elem_of_singleton. tauto.
  - rewrite elem_of_app, list_elem_of_singleton. tauto.
Qed.

Lemma dedupAdjacent_elem (l : list string) (x : string) :
  x ∈ dedupAdjacent l <-> x ∈ l.
Proof.
  induction l as [|a l IH] using rev_ind; [reflexivity|].
  rewrite dedupAdjacent_snoc, keepNew_elem, IH, elem_of_app, list_elem_of_singleton.
  tauto.
Qed.

Lemma compare_refl (a : string) : String.compare a a = Eq.
Proof.
  pose proof (String.compare_antisym a a) as H.
  destruct (String.compare a a); try reflexivity; discriminate H.
Qed.

Lemma stringLt_le (a b : string) : stringLt a b -> stringLe a b /\ a <> b.
Proof.
  unfold stringLt, stringLe, String.ltb, String.leb. intros H. split.
  - now destruct (String.compare a b).
  - intros ->. rewrite compare_refl in H. discriminate H.
Qed.

Lemma stringLe_lt (a b : string) : stringLe a b -> a <> b -> stringLt a b.
Proof.
  unfold stringLt, stringLe, String.ltb, String.leb. intros H Hne.
  destruct (String.compare a b) eqn:E; try reflexivity; try discriminate H.
  now apply String.compare_eq_iff in E.
Qed.

(** On a sorted list, dropping the adjacent repetitions leaves a strictly
    increasing list. *)
Lemma dedupAdjacent_sorted (l : list string) :
  StronglySorted stringLe l -> StronglySorted stringLt (dedupAdjacent l).
Proof.
  induction l as [|a l IH] using rev_ind; intros Hs; [constructor|].
  apply StronglySorted_app in Hs as (Hle & Hl & _). specialize (IH Hl).
  rewrite dedupAdjacent_snoc. unfold keepNew.
  destruct (last (dedupAdjacent l)) as [z|] eqn:E.
  2:{ apply last_None in E. rewrite E. repeat constructor. }
  destruct (String.eqb_spec a z) as [->|Hne]; [exact IH|].
  apply StronglySorted_app_2; [|exact IH|repeat constructor].
  intros y a' Hy Ha'. apply list_elem_of_singleton in Ha' as ->.
  assert (Hya : stringLe y a).
  { apply Hle; [now apply dedupAdjacent_elem|apply list_elem_of_here]. }
  apply stringLe_lt; [exact Hya|]. intros ->.
  apply last_Some in E as [kept E]. rewrite E in IH, Hy.
  assert (Hza : stringLe z a).
  { apply Hle; [|apply list_elem_of_here]. apply dedupAdjacent_elem. rewrite E.
    rewrite elem_of_app, list_elem_of_singleton. now right. }
  apply elem_of_app in Hy as [Hy|Hy]; [|apply list_elem_of_singleton in Hy; congruence].
  apply StronglySorted_app in IH as (Hlt & _ & _).
  destruct (stringLt_le a z) as [Haz _].
  { apply Hlt; [exact Hy|apply list_elem_of_here]. }
  apply Hne. now apply String.leb_antisym.
Qed.

Lemma varyCompact_eq (l : list string) : varyCompact l = dedupAdjacent l.
Proof.
  destruct l as [|x l]; [reflexivity|].
  unfold varyCompact.
  pose proof (varyLoop_invariant (x :: l) (length (x :: l))) as H.
  destruct (fold_left varyStep (seq 0 (length (x :: l))) (x :: l, 0%nat)) as [hs k].
  destruct H as (_ & _ & _ & ->); [simpl; lia|].
  now rewrite take_ge.
Qed.

End Compaction.

(** The second loop of [Response.Vary], which moves names forward within
    the slice it reads, leaves exactly the slice with every name that
    repeats its predecessor dropped, whatever the slice. *)
Theorem varyCompact_drops_adjacent_repetitions (l : list string) :
  varyCompact l = dedupAdjacent l.
Proof. exact (varyCompact_eq l). Qed.

(** [Response.Vary] returns nil exactly when the [Vary] header holds no
    name: the result is nil when the first loop gathers no name, and it is
    not nil when the loop gathers one. In that case, [slices.Sort] giving a
    sorted permutation, it returns the gathered names in strictly increasing
    order: each name once, none missing and none invented. *)
Theorem Vary_is_the_sorted_set_of_names
    (canonical : string -> string) (sort : list string -> list string)
    (r : Response.t) :
  (forall l, sort l ≡ₚ l) ->
  (forall l, StronglySorted stringLe (sort l)) ->
  match Vary canonical sort r with
  | None => varyNames canonical r = []
  | Some names =>
      varyNames canonical r <> [] /\
      StronglySorted stringLt names /\
      (forall x, x ∈ names <-> x ∈ varyNames canonical r)
  end.
Proof.
  intros Hperm Hsorted. unfold Vary.
  destruct (varyNames canonical r) as [|n ns] eqn:E; [reflexivity|].
  cbn [length Nat.eqb]. rewrite varyCompact_eq. split; [discriminate|split].
  - apply dedupAdjacent_sorted, Hsorted.
  - intros x. rewrite dedupAdjacent_elem. now rewrite (Hperm (n :: ns)).
Qed.

(** ** Invariants of the assembler *)

Section ParserInvariant.

Lemma parseStep_invariant (p : Parser.t) (token : Token.t) :
  parserInvariant p -> parserInvariant (parseStep p token).
Proof.
  intros [Hvalue Hyielded]. destruct p as [st name value lastToken yielded].
  cbn [Parser.state Parser.value Parser.yielded] in *.
  unfold parseStep, parseSwitch, parserInvariant.
  destruct st; destruct (Token.Type' token);
    cbn [Parser.state Parser.name Parser.value Parser.yielded];
    try (split; [first [exact Hvalue|discriminate|reflexivity]|exact Hyielded]).
  - destruct (String.eqb_spec name "") as [->|Hne];
      cbn [Parser.state Parser.name Parser.value Parser.yielded].
    + split; [exact Hvalue|exact Hyielded].
    + split; [exact Hvalue|]. apply Forall_app. split; [exact Hyielded|].
      constructor; [|constructor]. intros _. now split.
  - split; [reflexivity|]. apply Forall_app. split; [exact Hyielded|].
    constructor; [|constructor]. intros H. discriminate H.
Qed.

Lemma parse_fold_invariant (tokens : list Token.t) (p : Parser.t) :
  parserInvariant p -> parserInvariant (fold_left parseStep tokens p).
Proof.
  revert p. induction tokens as [|token tokens IH]; intros p Hp; [exact Hp|].
  cbn [fold_left]. apply IH, parseStep_invariant, Hp.
Qed.

Lemma parseFinish_wellFormed (p : Parser.t) :
  parserInvariant p -> Forall wellFormedDirective (parseFinish p).
Proof.
  intros [Hvalue Hyielded]. unfold parseFinish.
  destruct (Parser.state p) eqn:E.
  - destruct (String.eqb_spec (Parser.name p) "") as [Hn|Hn]; [exact Hyielded|].
    apply Forall_app. split; [exact Hyielded|]. constructor; [|constructor].
    intros _. cbn. split; [exact Hn|]. now apply Hvalue.
  - apply Forall_app. split; [exact Hyielded|]. constructor; [|constructor].
    intros H. discriminate H.
Qed.

(** Separators alone leave the assembler where it started. *)
Lemma parse_fold_separators (tokens : list Token.t) (lastToken : Token.t) :
  Forall separatorToken tokens ->
  exists lastToken',
    fold_left parseStep tokens (Parser.mk stateName "" "" lastToken []) =
      Parser.mk stateName "" "" lastToken' [].
Proof.
  revert lastToken. induction tokens as [|token tokens IH]; intros lastToken Hall.
  { now exists lastToken. }
  apply Forall_cons in Hall as [Htoken Hall]. cbn [fold_left].
  replace (parseStep (Parser.mk stateName "" "" lastToken []) token)
    with (Parser.mk stateName "" "" token []).
  { apply IH, Hall. }
  unfold parseStep, parseSwitch. now destruct Htoken as [-> | ->].
Qed.

Lemma tokenizeLoop_separators (s : string) (fuel i : nat) :
  (forall m c, get m s = Some c -> isSeparator c = true) ->
  Forall separatorToken (tokenizeLoop s fuel i None).
Proof.
  intros Hsep. revert i. induction fuel as [|fuel IH]; intros i; cbn [tokenizeLoop].
  { constructor. }
  unfold tokenizeBody. destruct (get i s) as [c|] eqn:E; [|constructor].
  specialize (Hsep i c E). unfold isSeparator in Hsep. cbn [flushText app].
  destruct (isControlCharacterOrSpace c).
  { constructor; [now right|apply IH]. }
  cbn [orb] in Hsep. rewrite Hsep. constructor; [now left|apply IH].
Qed.

End ParserInvariant.

(** Every directive that [Parse] yields without a value has a non-empty name
    and an empty value: a name may be empty only in front of an equals
    sign. *)
Theorem Parse_directives_well_formed (s : string) :
  Forall wellFormedDirective (Parse s).
Proof.
  unfold Parse. apply parseFinish_wellFormed, parse_fold_invariant.
  split; [reflexivity|constructor].
Qed.

(** A header made of commas, spaces and control characters only holds no
    directive. *)
Theorem Parse_separators_only (s : string) :
  allBytes isSeparator s = true -> Parse s = [].
Proof.
  intros Hall. unfold Parse, parseInit.
  destruct (parse_fold_separators (Tokenize s) (Token.mk TokenTypeInvalid 0 0 ""))
    as [lastToken ->]; [|reflexivity].
  apply tokenizeLoop_separators. intros m c. now apply allBytes_get.
Qed.

(** ** The text of the tokens *)

Section Slices.

Lemma substring_split (s : string) (n m1 m2 : nat) :
  substring n m1 s +:+ substring (n + m1) m2 s = substring n (m1 + m2) s.
Proof.
  revert n m1. induction s as [|c s IH]; intros n m1.
  - destruct n, m1, m2; reflexivity.
  - destruct n as [|n].
    + destruct m1 as [|m1]; [cbn [Nat.add]; now destruct m2|].
      cbn [Nat.add substring]. rewrite app_cons. f_equal. apply (IH 0%nat).
    + cbn [Nat.add substring]. apply IH.
Qed.

Lemma slice_app (s : string) (a m b : nat) :
  (a <= m <= b)%nat -> slice s a m +:+ slice s m b = slice s a b.
Proof.
  intros H. unfold slice.
  replace m with (a + (m - a))%nat at 2 by lia.
  rewrite substring_split. f_equal. lia.
Qed.

Lemma substring_all (s : string) : substring 0 (String.length s) s = s.
Proof. induction s as [|c s IH]; [reflexivity|]. cbn. now rewrite IH. Qed.

Lemma slice_all (s : string) : slice s 0 (String.length s) = s.
Proof. unfold slice. rewrite Nat.sub_0_r. apply substring_all. Qed.

Lemma slice_empty (s : string) (a : nat) : slice s a a = "".
Proof.
  unfold slice. rewrite Nat.sub_diag. revert a.
  induction s as [|c s IH]; intros [|a]; try reflexivity. cbn. apply IH.
Qed.

Lemma slice_one (s : string) (i : nat) (c : ascii) :
  get i s = Some c -> slice s i (S i) = String c "".
Proof.
  unfold slice. replace (S i - i)%nat with 1%nat by lia. revert i.
  induction s as [|x s IH]; intros [|i] H; cbn in *; try discriminate.
  - injection H as ->. now destruct s.
  - now apply IH.
Qed.

Lemma slice_snoc (s : string) (a j : nat) (c : ascii) :
  (a <= j)%nat -> get j s = Some c -> slice s a (S j) = slice s a j +:+ String c "".
Proof.
  intros Ha Hc. rewrite <- (slice_app s a j (S j)) by lia. now rewrite (slice_one s j c).
Qed.

Lemma scanQuoted_closing (s : string) (i fuel j : nat) esc un unTo k text :
  scanQuoted s i fuel j esc un unTo = Some (k, text) -> get k s = Some dquote.
Proof.
  revert j esc un unTo.
  induction fuel as [|fuel IH]; intros j esc un unTo; simpl; [discriminate|].
  destruct (get j s) as [c|] eqn:E; [|discriminate].
  destruct esc; [apply IH|].
  destruct (Ascii.eqb c backslash); [destruct (unTo <? j)%nat; apply IH|].
  destruct (Ascii.eqb_spec c dquote) as [->|_]; [|apply IH].
  intros H. now injection H as <- _.
Qed.

Lemma tokenizeLoop_in_input (s : string) (fuel i : nat) ts :
  (i <= String.length s)%nat -> openBefore ts i ->
  Forall (tokenInInput s) (tokenizeLoop s fuel i ts).
Proof.
  revert i ts. induction fuel as [|fuel IH]; intros i ts Hi Hts; cbn [tokenizeLoop].
  { destruct ts as [t|]; [|constructor].
    constructor; [|constructor]. split; [cbn; lia|left; reflexivity]. }
  unfold tokenizeBody. destruct (get i s) as [c|] eqn:E.
  2:{ destruct ts as [t|]; [|constructor].
      constructor; [|constructor]. split; [cbn; lia|left; reflexivity]. }
  pose proof (get_lt _ _ _ E) as Hlt.
  assert (Hpending : Forall (tokenInInput s)
            match ts with
            | Some t => [Token.mk TokenTypeText t i (slice s t i)]
            | None => []
            end).
  { destruct ts as [t|]; [|constructor].
    constructor; [|constructor]. split; [cbn; lia|left; reflexivity]. }
  destruct (isControlCharacterOrSpace c).
  { rewrite flushText_open by assumption.
    pose proof (spaceRunEnd_le s (String.length s - S i) (S i) Hlt) as Hle.
    apply Forall_app. split; [exact Hpending|].
    constructor; [split; [exact Hle|now left]|]. now apply IH. }
  destruct (Ascii.eqb_spec c ",") as [->|_].
  { rewrite flushText_open by assumption.
    apply Forall_app. split; [exact Hpending|].
    constructor; [|apply IH; [lia|exact I]].
    split; [exact Hlt|]. left. unfold verbatim. cbn. now rewrite (slice_one s i ","). }
  destruct (Ascii.eqb_spec c "=") as [->|_].
  { rewrite flushText_open by assumption.
    apply Forall_app. split; [exact Hpending|].
    constructor; [|apply IH; [lia|exact I]].
    split; [exact Hlt|]. left. unfold verbatim. cbn. now rewrite (slice_one s i "="). }
  destruct ts as [t|]; [apply IH; [lia|simpl in *; lia]|].
  destruct (Ascii.eqb_spec c dquote) as [->|_]; [|apply IH; [lia|simpl; lia]].
  destruct (scanQuoted s i (String.length s - S i) (S i) false "" (S i))
    as [[j text]|] eqn:Q; [|apply IH; [lia|simpl; lia]].
  pose proof (scanQuoted_bounds _ _ _ _ _ _ _ _ _ Q) as Hj.
  pose proof (scanQuoted_closing _ _ _ _ _ _ _ _ _ Q) as Hq.
  constructor; [|apply IH; [lia|exact I]].
  split; [cbn; lia|]. right. repeat split; cbn; auto; lia.
Qed.

(** The texts of a chain of verbatim tokens make up the slice they span. *)
Lemma concatTexts_slice (s : string) (tokens : list Token.t) (a b : nat) :
  contiguous a tokens b -> Forall (verbatim s) tokens ->
  concatTexts tokens = slice s a b.
Proof.
  revert a. induction tokens as [|token tokens IH]; intros a Hc Hv.
  { simpl in Hc. subst b. symmetry. apply slice_empty. }
  destruct Hc as (Hstart & Hlt & Hrest). apply Forall_cons in Hv as [Hv Hvs].
  cbn [concatTexts fold_right]. fold (concatTexts tokens).
  rewrite (IH _ Hrest Hvs), Hv, Hstart.
  apply slice_app. split; [lia|].
  clear - Hrest. revert Hrest. generalize (Token.End' token).
  induction tokens as [|t ts IH]; intros e H; simpl in H; [lia|].
  destruct H as (<- & Hlt & H). specialize (IH _ H). lia.
Qed.

End Slices.

(** Every token that [Tokenize] yields lies within the input, and its text
    is the slice of the input that it spans, unless it is a quoted string:
    a Text token that begins with a quote and ends with a later quote. *)
Theorem Tokenize_tokens_in_input (s : string) :
  Forall (tokenInInput s) (Tokenize s).
Proof. apply tokenizeLoop_in_input; [lia|exact I]. Qed.

(** On an input without a double quote the tokenizer loses nothing: the
    texts of the tokens, one after the other, are the input. *)
Theorem Tokenize_texts_rebuild_input (s : string) :
  allBytes notQuote s = true -> concatTexts (Tokenize s) = s.
Proof.
  intros Hall.
  rewrite (concatTexts_slice s (Tokenize s) 0 (String.length s)).
  - apply slice_all.
  - apply (tokenizeLoop_contiguous s (String.length s - 0) 0 None); [lia|lia|exact I].
  - pose proof (tokenizeLoop_in_input s (String.length s - 0) 0 None ltac:(lia) I) as H.
    eapply Forall_impl; [exact H|].
    intros token [_ [Hv|(_ & Hq & _)]]; [exact Hv|].
    pose proof (allBytes_get _ _ _ _ Hall Hq) as Hn. discriminate Hn.
Qed.

(** ** Quoted strings *)

Section Quoted.

Lemma length_zero (u : string) : String.length u = 0%nat -> u = "".
Proof. destruct u; [reflexivity|discriminate]. Qed.

(** The scan of a quoted string, from any point of its content on: the text
    is what was gathered so far followed by the rest of the content with its
    escapes resolved. *)
Lemma scanQuoted_unescape (s : string) (i : nat) (n : nat) :
  forall (v : string) (j : nat) (un : string) (unTo : nat) (t : string) (fuel : nat),
  (String.length v <= n)%nat ->
  (forall m c, get m v = Some c -> get (j + m) s = Some c) ->
  get (j + String.length v) s = Some dquote ->
  (unTo <= j)%nat ->
  (String.length un = 0%nat -> unTo = S i) ->
  unescape v = Some t ->
  (String.length v < fuel)%nat ->
  scanQuoted s i fuel j false un unTo =
    Some ((j + String.length v)%nat, un +:+ slice s unTo j +:+ t).
Proof.
  induction n as [n IH] using lt_wf_ind.
  intros v j un unTo t fuel Hn Hget Hclose HunTo Hun Hv Hfuel.
  destruct fuel as [|fuel]; [lia|]. cbn [scanQuoted].
  destruct v as [|c v].
  { cbn in Hclose, Hv. rewrite Nat.add_0_r in *. injection Hv as <-.
    rewrite Hclose. cbn [Ascii.eqb]. change (Ascii.eqb dquote backslash) with false.
    change (Ascii.eqb dquote dquote) with true. cbn iota.
    rewrite app_empty_r. destruct (Nat.ltb_spec 0 (String.length un)); [reflexivity|].
    assert (E : String.length un = 0%nat) by lia.
    rewrite (Hun E), (length_zero un E). reflexivity. }
  pose proof (Hget 0%nat c eq_refl) as Hc. rewrite Nat.add_0_r in Hc. rewrite Hc.
  cbn [unescape] in Hv. cbn [String.length] in *.
  destruct (Ascii.eqb c backslash) eqn:Eb.
  - destruct v as [|e v]; [discriminate|].
    destruct (unescape v) as [t'|] eqn:Hv'; [|discriminate]. injection Hv as <-.
    cbn [String.length] in *.
    destruct fuel as [|fuel]; [lia|].
    pose proof (Hget 1%nat e eq_refl) as He. rewrite Nat.add_1_r in He.
    assert (Hstep : forall un1 unTo1,
              un1 +:+ String e "" +:+ t' = un +:+ slice s unTo j +:+ String e t' ->
              scanQuoted s i (S fuel) (S j) true un1 unTo1 =
                Some ((j + S (S (String.length v)))%nat,
                      un +:+ slice s unTo j +:+ String e t')).
    { intros un1 unTo1 Heq. cbn [scanQuoted]. rewrite He.
      rewrite (IH (String.length v) ltac:(lia) v (S (S j)) (un1 +:+ String e "")
                 (S (S j)) t' fuel); try lia; auto.
      - f_equal. f_equal; [lia|].
        rewrite slice_empty, app_nil_l, <- Heq. now rewrite app_assoc_str.
      - intros m c' Hm. replace (S (S j) + m)%nat with (j + S (S m))%nat by lia.
        now apply Hget.
      - replace (S (S j) + String.length v)%nat
          with (j + S (S (String.length v)))%nat by lia. exact Hclose.
      - rewrite length_app. cbn. lia. }
    destruct (Nat.ltb_spec unTo j).
    + apply Hstep. now rewrite !app_assoc_str.
    + apply Hstep. replace unTo with j by lia. now rewrite slice_empty, app_nil_l.
  - destruct (Ascii.eqb c dquote) eqn:Eq; [discriminate|].
    destruct (unescape v) as [t'|] eqn:Hv'; [|discriminate]. injection Hv as <-.
    rewrite (IH (String.length v) ltac:(lia) v (S j) un unTo t' fuel); try lia; auto.
    + f_equal. f_equal; [lia|].
      rewrite (slice_snoc s unTo j c HunTo Hc). now rewrite app_assoc_str.
    + intros m c' Hm. replace (S j + m)%nat with (j + S m)%nat by lia. now apply Hget.
    + replace (S j + String.length v)%nat with (j + S (String.length v))%nat by lia.
      exact Hclose.
Qed.

(** A quoted string standing at the end of [pre], with content [v]. *)
Lemma tokensFrom_quoted (pre v rest t : string) :
  unescape v = Some t ->
  tokensFrom (pre +:+ String dquote (v +:+ String dquote rest)) (String.length pre) None =
    Token.mk TokenTypeText (String.length pre) (String.length pre + String.length v + 2) t
      :: tokensFrom (pre +:+ String dquote (v +:+ String dquote rest))
           (String.length pre + String.length v + 2) None.
Proof.
  intros Hv. set (s := pre +:+ String dquote (v +:+ String dquote rest)).
  set (i := String.length pre).
  assert (Hlen : String.length s = (i + S (String.length v + S (String.length rest)))%nat).
  { subst s i. rewrite length_app. cbn [String.length]. rewrite length_app. reflexivity. }
  assert (Hat : forall m, get (i + S m) s = get m (v +:+ String dquote rest)).
  { intros m. subst s i. now rewrite get_app_r. }
  rewrite tokensFrom_unfold at 1. unfold tokenizeBody.
  replace (get i s) with (Some dquote)
    by (subst s i; rewrite <- (Nat.add_0_r (String.length pre)); now rewrite get_app_r).
  change (isControlCharacterOrSpace dquote) with false.
  change (Ascii.eqb dquote ",") with false. change (Ascii.eqb dquote "=") with false.
  change (Ascii.eqb dquote dquote) with true. cbn iota.
  rewrite (scanQuoted_unescape s i (String.length v) v (S i) "" (S i) t); auto; try lia.
  - rewrite slice_empty, !app_nil_l.
    replace (S (S i + String.length v)) with (i + String.length v + 2)%nat by lia.
    reflexivity.
  - intros m c Hm. replace (S i + m)%nat with (i + S m)%nat by lia.
    rewrite Hat, get_app_l; [exact Hm|]. now apply get_lt in Hm.
  - replace (S i + String.length v)%nat with (i + S (String.length v))%nat by lia.
    rewrite Hat, <- (Nat.add_0_r (String.length v)), get_app_r. reflexivity.
Qed.

Lemma unescape_plain (v : string) : allBytes plainByte v = true -> unescape v = Some v.
Proof.
  induction v as [|c v IH]; intros H; [reflexivity|].
  cbn [allBytes] in H. apply andb_prop in H as [Hc Hv].
  unfold plainByte in Hc. apply andb_prop in Hc as [Hq Hb].
  cbn [unescape]. destruct (Ascii.eqb c backslash); [discriminate|].
  destruct (Ascii.eqb c dquote); [discriminate|]. now rewrite IH.
Qed.

End Quoted.

(** A quoted string is one Text token whose text is the content with its
    escapes resolved: wherever [Tokenize] stands at a quote with no text run
    open, and the bytes up to the next bare quote are the content [v] of a
    quoted string, the next token spans both quotes and its text is [v] with
    each backslash dropped and the byte after it kept. *)
Theorem Tokenize_quoted_string
    (pre v rest t : string) (yielded : list Token.t) :
  let s := pre +:+ String dquote (v +:+ String dquote rest) in
  Tokenize s = yielded ++ tokensFrom s (String.length pre) None ->
  unescape v = Some t ->
  Tokenize s =
    yielded ++
      Token.mk TokenTypeText (String.length pre) (String.length pre + String.length v + 2) t
        :: tokensFrom s (String.length pre + String.length v + 2) None.
Proof.
  intros s Hreach Hv. rewrite Hreach. f_equal. now apply tokensFrom_quoted.
Qed.

(** ** Headers made of several parts *)

Section Shift.

Variables pre b : string.

Local Abbreviation s := (pre +:+ b).
Local Abbreviation k := (String.length pre).

Lemma slice_shift (x y : nat) : slice s (k + x) (k + y) = slice b x y.
Proof.
  unfold slice. replace (k + y - (k + x))%nat with (y - x)%nat by lia.
  apply substring_app_r.
Qed.

Lemma spaceRunEnd_shift (fuel j : nat) :
  spaceRunEnd s fuel (k + j) = (k + spaceRunEnd b fuel j)%nat.
Proof.
  revert j. induction fuel as [|fuel IH]; intros j; cbn [spaceRunEnd]; [reflexivity|].
  rewrite get_app_r. destruct (get j b) as [c|]; [|reflexivity].
  destruct (isControlCharacterOrSpace c); [|reflexivity].
  rewrite <- Nat.add_succ_r. apply IH.
Qed.

Lemma scanQuoted_shift (i fuel j : nat) esc un unTo :
  scanQuoted s (k + i) fuel (k + j) esc un (k + unTo) =
    option_map (fun r => ((k + fst r)%nat, snd r)) (scanQuoted b i fuel j esc un unTo).
Proof.
  revert j esc un unTo. induction fuel as [|fuel IH]; intros j esc un unTo;
    cbn [scanQuoted]; [reflexivity|].
  rewrite get_app_r. destruct (get j b) as [c|]; [|reflexivity].
  destruct esc.
  { rewrite <- !Nat.add_succ_r. apply IH. }
  destruct (Ascii.eqb c backslash).
  { replace (k + unTo <? k + j)%nat with (unTo <? j)%nat
      by (destruct (Nat.ltb_spec unTo j), (Nat.ltb_spec (k + unTo) (k + j)); lia || reflexivity).
    destruct (unTo <? j)%nat.
    - rewrite slice_shift, <- !Nat.add_succ_r. apply IH.
    - rewrite <- !Nat.add_succ_r. apply IH. }
  destruct (Ascii.eqb c dquote).
  { cbn [option_map fst snd]. rewrite slice_shift, <- Nat.add_succ_r, slice_shift.
    reflexivity. }
  rewrite <- !Nat.add_succ_r. apply IH.
Qed.

Lemma flushText_shift ts i :
  flushText s (option_map (Nat.add k) ts) (k + i) =
    (map (shiftToken k) (fst (flushText b ts i)),
     option_map (Nat.add k) (snd (flushText b ts i))).
Proof.
  unfold flushText. destruct ts as [t|]; cbn [option_map]; [|reflexivity].
  replace (k + t <? k + i)%nat with (t <? i)%nat
    by (destruct (Nat.ltb_spec t i), (Nat.ltb_spec (k + t) (k + i)); lia || reflexivity).
  destruct (t <? i)%nat; cbn; [|reflexivity].
  unfold shiftToken. cbn. now rewrite slice_shift.
Qed.

Lemma finalText_shift ts :
  finalText s (option_map (Nat.add k) ts) = map (shiftToken k) (finalText b ts).
Proof.
  unfold finalText. destruct ts as [t|]; cbn [option_map map]; [|reflexivity].
  unfold shiftToken. cbn. rewrite length_app, slice_shift. reflexivity.
Qed.

(** The tokens from an offset on do not depend on what stands before it,
    positions apart. *)
Lemma tokenizeLoop_shift (fuel i : nat) ts :
  tokenizeLoop s fuel (k + i) (option_map (Nat.add k) ts) =
    map (shiftToken k) (tokenizeLoop b fuel i ts).
Proof.
  revert i ts. induction fuel as [|fuel IH]; intros i ts; cbn [tokenizeLoop].
  { apply finalText_shift. }
  unfold tokenizeBody. rewrite get_app_r.
  destruct (get i b) as [c|]; [|apply finalText_shift].
  rewrite flushText_shift.
  replace (String.length s - S (k + i))%nat with (String.length b - S i)%nat
    by (rewrite length_app; lia).
  destruct (flushText b ts i) as [pending ts'] eqn:F. cbn [fst snd].
  destruct (isControlCharacterOrSpace c).
  { rewrite <- Nat.add_succ_r, spaceRunEnd_shift, map_app. cbn [map].
    rewrite IH. unfold shiftToken at 2. cbn. now rewrite slice_shift. }
  destruct (Ascii.eqb c ",").
  { rewrite map_app. cbn [map]. rewrite <- Nat.add_succ_r, IH. reflexivity. }
  destruct (Ascii.eqb c "=").
  { rewrite map_app. cbn [map]. rewrite <- Nat.add_succ_r, IH. reflexivity. }
  destruct ts as [t|]; cbn [option_map].
  { rewrite <- Nat.add_succ_r. apply (IH (S i) (Some t)). }
  destruct (Ascii.eqb c dquote).
  2:{ rewrite <- Nat.add_succ_r. apply (IH (S i) (Some i)). }
  rewrite <- Nat.add_succ_r, scanQuoted_shift.
  destruct (scanQuoted b i (String.length b - S i) (S i) false "" (S i))
    as [[j text]|]; cbn [option_map fst snd].
  - cbn [map]. replace (S (k + j)) with (k + S j)%nat by lia.
    f_equal. apply (IH (S j) None).
  - apply (IH (S i) (Some i)).
Qed.

Lemma tokensFrom_shift (i : nat) :
  tokensFrom s (k + i) None = map (shiftToken k) (tokensFrom b i None).
Proof.
  unfold tokensFrom.
  replace (String.length s - (k + i))%nat with (String.length b - i)%nat
    by (rewrite length_app; lia).
  apply (tokenizeLoop_shift _ i None).
Qed.

End Shift.

Section BeforeComma.

Lemma substring_prefix (a x : string) (n m : nat) :
  (n + m <= String.length a)%nat -> substring n m (a +:+ x) = substring n m a.
Proof.
  revert n m. induction a as [|c a IH]; intros n m H; cbn [String.length] in H.
  - replace n with 0%nat by lia. replace m with 0%nat by lia.
    rewrite app_nil_l. now destruct x.
  - rewrite app_cons. destruct n as [|n].
    + destruct m as [|m]; [reflexivity|]. cbn [substring]. f_equal. apply IH. lia.
    + cbn [substring]. apply IH. lia.
Qed.

Lemma slice_prefix (a x : string) (lo hi : nat) :
  (lo <= hi <= String.length a)%nat -> slice (a +:+ x) lo hi = slice a lo hi.
Proof. intros H. unfold slice. apply substring_prefix. lia. Qed.

(** Where the inner loop of the whitespace case stops. *)
Lemma spaceRunEnd_stops (str : string) (fuel j : nat) :
  (j <= String.length str)%nat -> (String.length str - j <= fuel)%nat ->
  let r := spaceRunEnd str fuel j in
  (j <= r <= String.length str)%nat /\
  (forall m, (j <= m < r)%nat ->
     exists c, get m str = Some c /\ isControlCharacterOrSpace c = true) /\
  (r = String.length str \/
   exists c, get r str = Some c /\ isControlCharacterOrSpace c = false).
Proof.
  revert j. induction fuel as [|fuel IH]; intros j Hj Hfuel; cbn [spaceRunEnd].
  { repeat split; try lia; left; lia. }
  destruct (get j str) as [c|] eqn:E.
  2:{ apply get_None in E. repeat split; try lia; left; lia. }
  destruct (isControlCharacterOrSpace c) eqn:Ec.
  2:{ repeat split; try lia; right; eauto. }
  apply get_lt in E as Hlt.
  destruct (IH (S j) ltac:(lia) ltac:(lia)) as (Hr & Hrun & Hend).
  repeat split; try lia; [|exact Hend].
  intros m Hm. destruct (Nat.eq_dec m j) as [->|Hne]; [eauto|]. apply Hrun. lia.
Qed.

Variables a b : string.

Local Abbreviation s := (a +:+ String "," b).
Local Abbreviation n := (String.length a).

Lemma get_before_comma (i : nat) : (i < n)%nat -> get i s = get i a.
Proof. apply get_app_l. Qed.

Lemma get_comma : get n s = Some ","%char.
Proof. rewrite <- (Nat.add_0_r n). now rewrite get_app_r. Qed.

Lemma spaceRunEnd_before_comma (i : nat) :
  (i < n)%nat ->
  spaceRunEnd s (String.length s - S i) (S i) = spaceRunEnd a (n - S i) (S i).
Proof.
  intros Hi.
  destruct (spaceRunEnd_stops a (n - S i) (S i) ltac:(lia) ltac:(lia))
    as (Hr & Hrun & Hend).
  apply spaceRunEnd_exact.
  - lia.
  - rewrite length_app. cbn [String.length]. lia.
  - intros m Hm. rewrite get_before_comma by lia. now apply Hrun.
  - right. destruct Hend as [->|(c & Hc & Hctl)].
    + exists ","%char. split; [apply get_comma|reflexivity].
    + exists c. split; [|exact Hctl]. rewrite get_before_comma; [exact Hc|].
      now apply get_lt in Hc.
Qed.

Lemma flushText_before_comma ts i :
  (i <= n)%nat -> openBefore ts i -> flushText s ts i = flushText a ts i.
Proof.
  intros Hi Hts. rewrite !flushText_open by assumption.
  destruct ts as [t|]; [|reflexivity]. simpl in Hts.
  now rewrite slice_prefix by lia.
Qed.

(** Up to a comma that follows a part without quotes, the tokens are those
    of the part alone. *)
Lemma tokensFrom_before_comma (fuel : nat) :
  allBytes notQuote a = true ->
  forall i ts, (n - i <= fuel)%nat -> (i <= n)%nat -> openBefore ts i ->
  tokensFrom s i ts =
    tokensFrom a i ts ++
      Token.mk TokenTypeComma n (S n) "," :: tokensFrom s (S n) None.
Proof.
  intros Hq. induction fuel as [|fuel IH]; intros i ts Hfuel Hi Hts.
  - assert (i = n) as -> by lia.
    rewrite (tokensFrom_unfold s), (tokensFrom_unfold a). unfold tokenizeBody.
    rewrite get_comma, (get_ge a n) by lia. cbn iota.
    change (isControlCharacterOrSpace ",") with false. cbn iota.
    change (Ascii.eqb "," ",") with true. cbn iota.
    rewrite flushText_open by assumption. unfold finalText.
    destruct ts as [t|]; [|reflexivity]. simpl in Hts.
    cbn [app]. now rewrite slice_prefix by lia.
  - destruct (Nat.eq_dec i n) as [->|Hne]; [apply IH; [lia|lia|assumption]|].
    assert (Hlt : (i < n)%nat) by lia.
    rewrite (tokensFrom_unfold s i), (tokensFrom_unfold a i). unfold tokenizeBody.
    rewrite get_before_comma by lia.
    destruct (get_some a i Hlt) as [c Hc]. rewrite Hc.
    pose proof (allBytes_get _ _ _ _ Hq Hc) as Hnq. unfold notQuote in Hnq.
    rewrite flushText_before_comma by (assumption || lia).
    rewrite (flushText_open a ts i Hts).
    destruct (isControlCharacterOrSpace c).
    { rewrite spaceRunEnd_before_comma by lia.
      pose proof (spaceRunEnd_ge a (n - S i) (S i)) as Hge.
      pose proof (spaceRunEnd_le a (n - S i) (S i) Hlt) as Hle.
      revert Hge Hle. generalize (spaceRunEnd a (n - S i) (S i)). intros j Hge Hle.
      rewrite slice_prefix by lia. rewrite (IH j None) by (lia || exact I).
      now rewrite <- app_assoc. }
    destruct (Ascii.eqb c ",").
    { rewrite (IH (S i) None) by (lia || exact I). now rewrite <- app_assoc. }
    destruct (Ascii.eqb c "=").
    { rewrite (IH (S i) None) by (lia || exact I). now rewrite <- app_assoc. }
    destruct (Ascii.eqb c dquote); [discriminate Hnq|].
    destruct ts as [t|].
    + apply IH; [lia|lia|]. simpl in *. lia.
    + apply IH; [lia|lia|]. simpl. lia.
Qed.

(** The tokens of a part without quotes, a comma and a second part. *)
Lemma Tokenize_comma :
  allBytes notQuote a = true ->
  Tokenize s =
    Tokenize a ++ Token.mk TokenTypeComma n (S n) "," :: map (shiftToken (S n)) (Tokenize b).
Proof.
  intros Hq. unfold Tokenize.
  rewrite (tokensFrom_before_comma n Hq 0 None) by (lia || exact I).
  f_equal. f_equal.
  pose proof (tokensFrom_shift (a +:+ ",") b 0) as H.
  rewrite app_assoc_str, length_app in H. cbn [String.length] in H.
  rewrite !Nat.add_0_r, Nat.add_1_r in H. exact H.
Qed.

End BeforeComma.

Section AfterSpace.

(** The tokens of a control character or space followed by [b]: one Space
    token, and then the tokens that [b] has after its leading run. *)
Lemma Tokenize_leading_space (c : ascii) (b : string) :
  isControlCharacterOrSpace c = true ->
  exists j j0 text,
    Tokenize (String c b) =
      Token.mk TokenTypeSpace 0 j text :: map (shiftToken 1) (tokensFrom b j0 None) /\
    (Tokenize b = tokensFrom b j0 None \/
     exists text0,
       Tokenize b = Token.mk TokenTypeSpace 0 j0 text0 :: tokensFrom b j0 None).
Proof.
  intros Hc. set (j0 := spaceRunEnd b (String.length b) 0).
  exists (S j0), j0, (slice (String c b) 0 (S j0)). split.
  - unfold Tokenize. rewrite tokensFrom_unfold. unfold tokenizeBody.
    change (get 0 (String c b)) with (Some c). cbv beta iota. rewrite Hc.
    cbn [flushText app].
    replace (String.length (String c b) - 1)%nat with (String.length b)
      by (cbn [String.length]; lia).
    pose proof (spaceRunEnd_shift (String c "") b (String.length b) 0) as E.
    cbn in E. change (String c b) with (String c "" +:+ b). rewrite E. fold j0.
    f_equal. apply (tokensFrom_shift (String c "") b j0).
  - subst j0. destruct b as [|c0 b']; [left; reflexivity|].
    cbn [String.length spaceRunEnd].
    change (get 0 (String c0 b')) with (Some c0). cbv beta iota.
    destruct (isControlCharacterOrSpace c0) eqn:E0.
    + right. unfold Tokenize. rewrite (tokensFrom_unfold _ 0). unfold tokenizeBody.
      change (get 0 (String c0 b')) with (Some c0). cbv beta iota. rewrite E0.
      cbn [flushText app String.length].
      replace (S (String.length b') - 1)%nat with (String.length b') by lia.
      eauto.
    + left. reflexivity.
Qed.

End AfterSpace.

Section Simulation.

Lemma appendText_same (acc : string) (l l' t t' : Token.t) :
  sameToken l l' \/ acc = "" -> sameToken t t' ->
  appendText acc l t = appendText acc l' t'.
Proof.
  intros Hl [_ Ht]. unfold appendText. rewrite Ht.
  destruct Hl as [[Hty Htx]| ->].
  - now rewrite Hty, Htx.
  - now destruct (Token.Type' l), (Token.Type' l').
Qed.

Lemma parseStep_after (ys : list Directive.t) (p q : Parser.t) (t u : Token.t) :
  parserAfter ys p q -> sameToken t u ->
  parserAfter ys (parseStep p t) (parseStep q u).
Proof.
  intros (Hst & Hn & Hv & Hy & Hl) Htu.
  destruct p as [st name value l y], q as [st' name' value' l' y'].
  cbn [Parser.state Parser.name Parser.value Parser.yielded Parser.lastToken] in *.
  subst st' name' value' y'.
  assert (Hname : appendText name l t = appendText name l' u).
  { apply appendText_same; [|exact Htu]. destruct Hl as [Hl|[_ Hl]]; auto. }
  unfold parserAfter, parseStep, parseSwitch. pose proof Htu as [Hty Htx].
  rewrite <- Hty.
  destruct st; destruct (Token.Type' t);
    cbn [Parser.state Parser.name Parser.value Parser.yielded Parser.lastToken];
    try (repeat split; solve [reflexivity | symmetry; exact Hname | left; exact Htu]).
  - destruct (String.eqb name "");
      cbn [Parser.state Parser.name Parser.value Parser.yielded Parser.lastToken];
      repeat split; solve [reflexivity | symmetry; apply app_assoc | left; exact Htu].
  - repeat split; solve [reflexivity | symmetry; apply app_assoc | left; exact Htu].
  - assert (Hvalue : appendText value l t = appendText value l' u).
    { apply appendText_same; [|exact Htu].
      destruct Hl as [Hl|[Hl _]]; [auto|discriminate Hl]. }
    repeat split; solve [reflexivity | symmetry; exact Hvalue | left; exact Htu].
  - assert (Hvalue : appendText value l t = appendText value l' u).
    { apply appendText_same; [|exact Htu].
      destruct Hl as [Hl|[Hl _]]; [auto|discriminate Hl]. }
    repeat split; solve [reflexivity | symmetry; exact Hvalue | left; exact Htu].
Qed.

Lemma parse_fold_after (ys : list Directive.t) (k : nat) (tokens : list Token.t) :
  forall p q, parserAfter ys p q ->
  parserAfter ys (fold_left parseStep tokens p)
    (fold_left parseStep (map (shiftToken k) tokens) q).
Proof.
  induction tokens as [|token tokens IH]; intros p q Hpq; [exact Hpq|].
  cbn [map fold_left]. apply IH, parseStep_after; [exact Hpq|now split].
Qed.

Lemma parseFinish_after (ys : list Directive.t) (p q : Parser.t) :
  parserAfter ys p q -> parseFinish q = ys ++ parseFinish p.
Proof.
  intros (Hst & Hn & Hv & Hy & _). unfold parseFinish. rewrite Hst, Hn, Hv, Hy.
  destruct (Parser.state p); [destruct (String.eqb (Parser.name p) "")|];
    now rewrite ?app_assoc.
Qed.

(** A comma closes the directive being read: the assembler goes on as from
    its start, having yielded what it would have yielded at the end of the
    input. *)
Lemma parseStep_comma (p : Parser.t) (token : Token.t) :
  parserInvariant p -> Token.Type' token = TokenTypeComma ->
  parserAfter (parseFinish p) parseInit (parseStep p token).
Proof.
  intros [Hvalue _] Hty. destruct p as [st name value l y].
  cbn [Parser.state Parser.value] in Hvalue.
  unfold parserAfter, parseStep, parseSwitch, parseFinish, parseInit. rewrite Hty.
  cbn [Parser.state Parser.name Parser.value Parser.yielded Parser.lastToken].
  destruct st.
  - rewrite (Hvalue eq_refl). destruct (String.eqb name "") eqn:E;
      cbn [Parser.state Parser.name Parser.value Parser.yielded Parser.lastToken];
      rewrite ?app_nil_r; repeat split; try (now right).
    now apply String.eqb_eq in E.
  - cbn [Parser.state Parser.name Parser.value Parser.yielded Parser.lastToken].
    rewrite app_nil_r. repeat split. now right.
Qed.

Lemma parseStep_space (token : Token.t) :
  Token.Type' token = TokenTypeSpace ->
  parserAfter [] parseInit (parseStep parseInit token).
Proof.
  intros Hty. unfold parserAfter, parseStep, parseSwitch, parseInit. rewrite Hty.
  cbn. repeat split. now right.
Qed.

(** A comma after a separable part separates two headers. *)
Lemma Parse_separable (a b : string) :
  separable a -> Parse (a +:+ String "," b) = Parse a ++ Parse b.
Proof.
  intros Ha. unfold Parse. rewrite (Ha b), fold_left_app.
  cbn [fold_left]. apply parseFinish_after, parse_fold_after, parseStep_comma.
  - apply parse_fold_invariant. split; [reflexivity|constructor].
  - reflexivity.
Qed.

Lemma Parse_space (c : ascii) (b : string) :
  isControlCharacterOrSpace c = true -> Parse (String c b) = Parse b.
Proof.
  intros Hc. destruct (Tokenize_leading_space c b Hc) as (j & j0 & text & E & Hb).
  unfold Parse. rewrite E. cbn [fold_left].
  set (rest := tokensFrom b j0 None) in *.
  assert (H : forall p q, parserAfter [] p q ->
            parseFinish (fold_left parseStep (map (shiftToken 1) rest) q) =
            parseFinish (fold_left parseStep rest p)).
  { intros p q Hpq. now apply (parseFinish_after []), parse_fold_after. }
  destruct Hb as [->|[text0 ->]].
  - apply H. now apply parseStep_space.
  - cbn [fold_left]. apply H. unfold parserAfter, parseStep, parseSwitch, parseInit.
    cbn. repeat split. now right.
Qed.

Lemma separable_plain (a : string) : allBytes notQuote a = true -> separable a.
Proof. intros H b. now apply Tokenize_comma. Qed.

(** The join that [Request.Directives] and [Response.Directives] make of
    the Cache-Control values, for separable values. *)
Lemma Parse_join (vs : list string) :
  Forall separable vs -> Parse (StringsJoin vs ", ") = flat_map Parse vs.
Proof.
  induction vs as [|v vs IH]; intros Hall; [reflexivity|].
  apply Forall_cons in Hall as [Hv Hall]. specialize (IH Hall).
  destruct vs as [|v' vs'].
  { cbn [StringsJoin flat_map]. now rewrite app_nil_r. }
  change (StringsJoin (v :: v' :: vs') ", ")
    with (v +:+ String "," (String " " (StringsJoin (v' :: vs') ", "))).
  rewrite (Parse_separable _ _ Hv), (Parse_space " ") by reflexivity.
  now rewrite IH.
Qed.

End Simulation.

(** A comma after a part that holds no double quote separates two headers:
    the directives of the whole are those of the part, followed by those of
    the rest. *)
Theorem Parse_comma (a b : string) :
  allBytes notQuote a = true ->
  Parse (a +:+ String "," b) = Parse a ++ Parse b.
Proof. intros Hq. now apply Parse_separable, separable_plain. Qed.

(** Control characters and spaces in front of a header change none of its
    directives. *)
Theorem Parse_leading_whitespace (ws b : string) :
  allBytes isControlCharacterOrSpace ws = true -> Parse (ws +:+ b) = Parse b.
Proof.
  induction ws as [|c ws IH]; intros Hall; [now rewrite app_nil_l|].
  cbn [allBytes] in Hall. apply andb_prop in Hall as [Hc Hall].
  rewrite app_cons, (Parse_space c _ Hc). now apply IH.
Qed.

(** [Request.Directives] and [Response.Directives] read the list of
    Cache-Control values through one join: as long as no value holds a
    double quote, the directives are those of the values, one value after
    the other. *)
Theorem Parse_joined_values (vs : list string) :
  Forall (fun v => allBytes notQuote v = true) vs ->
  Parse (StringsJoin vs ", ") = flat_map Parse vs.
Proof.
  intros Hall. apply Parse_join. eapply Forall_impl; [exact Hall|].
  intros v. apply separable_plain.
Qed.

(** ** Writing directives and reading them back *)

Section Numerals.

Local Open Scope Z_scope.

Lemma digitByte_value (k : Z) :
  0 <= k < 10 -> Z.of_nat (nat_of_ascii (digitByte k)) = 48 + k.
Proof.
  intros Hk. unfold digitByte. rewrite nat_ascii_embedding; lia.
Qed.

Lemma digitByte_digit (k : Z) : 0 <= k < 10 -> isDigit (digitByte k) = true.
Proof.
  intros Hk. pose proof (digitByte_value k Hk) as H. unfold isDigit.
  apply andb_true_intro. split; apply Nat.leb_le; lia.
Qed.

Lemma formatDigits_digits (fuel : nat) (n : Z) (acc : string) :
  0 <= n -> allBytes isDigit acc = true ->
  allBytes isDigit (formatDigits fuel n acc) = true.
Proof.
  revert n acc. induction fuel as [|fuel IH]; intros n acc Hn Hacc; [exact Hacc|].
  cbn [formatDigits].
  assert (Hd : allBytes isDigit (String (digitByte (n mod 10)) acc) = true).
  { cbn [allBytes]. rewrite Hacc, digitByte_digit; [reflexivity|].
    apply Z.mod_pos_bound. lia. }
  destruct (n <? 10); [exact Hd|]. apply IH; [|exact Hd].
  apply Z.div_pos; lia.
Qed.

Lemma formatDigits_nonempty (fuel : nat) (n : Z) (acc : string) :
  negb (String.eqb acc "") = true ->
  negb (String.eqb (formatDigits fuel n acc) "") = true.
Proof.
  revert n acc. induction fuel as [|fuel IH]; intros n acc Hacc; [exact Hacc|].
  cbn [formatDigits]. destruct (n <? 10); [reflexivity|]. now apply IH.
Qed.

Lemma formatDigits_some (fuel : nat) (n : Z) (acc : string) :
  negb (String.eqb (formatDigits (S fuel) n acc) "") = true.
Proof.
  cbn [formatDigits]. destruct (n <? 10); [reflexivity|].
  now apply formatDigits_nonempty.
Qed.

Lemma formatDigits_value (fuel : nat) (n : Z) (acc : string) :
  0 <= n < 10 ^ Z.of_nat fuel -> (0 < fuel)%nat ->
  decimalValue (formatDigits fuel n acc) = decimalFrom n acc.
Proof.
  revert n acc. induction fuel as [|fuel IH]; intros n acc Hn Hfuel; [lia|].
  cbn [formatDigits].
  assert (Hm : 0 <= n mod 10 < 10) by (apply Z.mod_pos_bound; lia).
  assert (Hlast : forall hi, hi = 10 * (n / 10) ->
            decimalFrom (n / 10) (String (digitByte (n mod 10)) acc) = decimalFrom n acc).
  { intros hi _. cbn [decimalFrom]. rewrite digitByte_value by exact Hm.
    f_equal. pose proof (Z.div_mod n 10 ltac:(lia)). lia. }
  destruct (Z.ltb_spec n 10) as [Hlt|Hge].
  - unfold decimalValue. cbn [decimalFrom]. rewrite digitByte_value by exact Hm.
    f_equal. rewrite Z.mod_small; lia.
  - rewrite Nat2Z.inj_succ, Z.pow_succ_r in Hn by lia.
    destruct fuel as [|fuel]; [cbn in Hn; lia|].
    rewrite IH; [now apply (Hlast (10 * (n / 10)))| |lia].
    split; [apply Z.div_pos; lia|]. apply Z.div_lt_upper_bound; lia.
Qed.

(** What [strconv.Itoa] writes for a number that is not negative is the
    numeral of that number. *)
Lemma Itoa_digits (n : Z) :
  0 <= n < 10 ^ 20 -> isDigits (Itoa n) = true /\ decimalValue (Itoa n) = n.
Proof.
  intros Hn. unfold Itoa. replace (n <? 0) with false by (symmetry; apply Z.ltb_ge; lia).
  split.
  - unfold isDigits. apply andb_true_intro. split.
    + apply (formatDigits_some 19).
    + apply formatDigits_digits; [lia|reflexivity].
  - now rewrite formatDigits_value by (exact Hn || lia).
Qed.

Lemma seconds_range (d : Z) : isDuration d -> 0 <= Z.quot d Second <= 9223372036.
Proof.
  unfold isDuration, MaxInt64, Second. intros Hd.
  rewrite Z.quot_div_nonneg by lia. split; [apply Z.div_pos; lia|].
  apply Z.lt_succ_r, Z.div_lt_upper_bound; lia.
Qed.

Lemma secondsOf_digits (d : Z) : isDuration d -> isDigits (secondsOf d) = true.
Proof.
  intros Hd. pose proof (seconds_range d Hd). apply Itoa_digits. lia.
Qed.

(** The seconds of a duration, written and read back. *)
Lemma ParseAge_secondsOf (d : Z) :
  isDuration d -> ParseAge (secondsOf d) = inl (wholeSeconds d).
Proof.
  intros Hd. pose proof (seconds_range d Hd) as Hr.
  destruct (Itoa_digits (Z.quot d Second)) as [Hdigits Hvalue]; [lia|].
  rewrite (ParseAge_digits _ (secondsOf_digits d Hd)). unfold secondsOf at 1 2.
  rewrite Hvalue. replace (Z.quot d Second <=? 9223372036) with true
    by (symmetry; apply Z.leb_le; lia).
  reflexivity.
Qed.

Lemma wholeSeconds_zero (d : Z) :
  isDuration d -> (d >? 0) = false -> wholeSeconds d = 0.
Proof.
  unfold isDuration. intros Hd Hz. rewrite Z.gtb_ltb in Hz. apply Z.ltb_ge in Hz.
  now replace d with 0 by lia.
Qed.

End Numerals.

Section Parts.

Lemma allBytes_app (p : ascii -> bool) (a b : string) :
  allBytes p (a +:+ b) = allBytes p a && allBytes p b.
Proof.
  induction a as [|c a IH]; [now rewrite app_nil_l|].
  rewrite app_cons. cbn [allBytes]. now rewrite IH, andb_assoc.
Qed.

Lemma allBytes_impl (p q : ascii -> bool) (w : string) :
  (forall c, p c = true -> q c = true) -> allBytes p w = true -> allBytes q w = true.
Proof.
  intros Hpq. induction w as [|c w IH]; [reflexivity|]. cbn [allBytes].
  intros H. apply andb_prop in H as [Hc Hw]. now rewrite (Hpq c Hc), IH.
Qed.

Lemma wordByte_notQuote (c : ascii) : wordByte c = true -> notQuote c = true.
Proof. unfold wordByte, notQuote. intros H. now apply andb_prop in H as [_ H]. Qed.

Lemma isDigit_wordByte (c : ascii) : isDigit c = true -> wordByte c = true.
Proof.
  destruct c as [[] [] [] [] [] [] [] []]; intros H; vm_compute in H;
    try discriminate H; reflexivity.
Qed.

Lemma isDigits_word (w : string) : isDigits w = true -> isWord w = true.
Proof.
  unfold isDigits, isWord. intros H. apply andb_prop in H as [Hne Hall].
  rewrite Hne. cbn [andb]. exact (allBytes_impl _ _ _ isDigit_wordByte Hall).
Qed.

Lemma isWord_notQuote (w : string) : isWord w = true -> allBytes notQuote w = true.
Proof.
  intros H. apply andb_prop in H as [_ Hall].
  exact (allBytes_impl _ _ _ wordByte_notQuote Hall).
Qed.

(** A comma standing at the end of [a], with no text run open. *)
Lemma tokensFrom_comma (a b : string) :
  tokensFrom (a +:+ String "," b) (String.length a) None =
    Token.mk TokenTypeComma (String.length a) (S (String.length a)) ","
      :: map (shiftToken (S (String.length a))) (Tokenize b).
Proof.
  rewrite tokensFrom_unfold. unfold tokenizeBody. rewrite get_comma.
  cbn [flushText app]. change (isControlCharacterOrSpace ",") with false.
  change (Ascii.eqb "," ",") with true. cbv beta iota. f_equal.
  pose proof (tokensFrom_shift (a +:+ ",") b 0) as H.
  rewrite app_assoc_str, length_app in H. cbn [String.length] in H.
  rewrite !Nat.add_0_r, Nat.add_1_r in H. exact H.
Qed.

Lemma Tokenize_word (w rest : string) :
  isWord w = true -> endOr isDelimiter rest = true ->
  Tokenize (w +:+ rest) =
    Token.mk TokenTypeText 0 (String.length w) w
      :: tokensFrom (w +:+ rest) (String.length w) None.
Proof.
  intros Hw Hrest. unfold Tokenize.
  now rewrite (word_token (w +:+ rest) "" w rest 0 (String.length w)).
Qed.

Lemma Tokenize_word_equals (w rest : string) :
  isWord w = true ->
  Tokenize (w +:+ "=" +:+ rest) =
    Token.mk TokenTypeText 0 (String.length w) w
      :: Token.mk TokenTypeEquals (String.length w) (S (String.length w)) "="
      :: tokensFrom (w +:+ "=" +:+ rest) (S (String.length w)) None.
Proof.
  intros Hw. rewrite Tokenize_word by auto. f_equal.
  now apply (equals_token _ w rest).
Qed.

Lemma Parse_flag (w : string) : isWord w = true -> Parse w = [flagDirective w].
Proof.
  intros Hw. pose proof (isWord_nonempty _ Hw) as Hne.
  pose proof (Tokenize_word w "" Hw eq_refl) as HT.
  rewrite app_empty_r, tokensFrom_end in HT. unfold Parse. rewrite HT.
  cbn [fold_left parseStep parseSwitch parseInit parseFinish
       Token.Type' Token.Text Parser.state Parser.name Parser.value
       Parser.yielded Parser.lastToken].
  unfold appendText. cbn [Token.Type' Token.Text app String.eqb].
  rewrite !app_nil_l, Hne. reflexivity.
Qed.

(** The directive read from a name, an equals sign and one Text token. *)
Lemma Parse_name_value (s n v : string) (a b c d : nat) :
  isWord n = true ->
  Tokenize s =
    [Token.mk TokenTypeText 0 a n; Token.mk TokenTypeEquals a b "=";
     Token.mk TokenTypeText c d v] ->
  Parse s = [Directive.mk n v true].
Proof.
  intros Hn HT. unfold Parse. rewrite HT.
  cbn [fold_left parseStep parseSwitch parseInit parseFinish
       Token.Type' Token.Text Parser.state Parser.name Parser.value
       Parser.yielded Parser.lastToken].
  unfold appendText. cbn [Token.Type' Token.Text app String.eqb].
  rewrite !app_nil_l. reflexivity.
Qed.

Lemma Tokenize_word_value (n v rest : string) :
  isWord n = true -> isWord v = true -> endOr isDelimiter rest = true ->
  Tokenize (n +:+ "=" +:+ v +:+ rest) =
    Token.mk TokenTypeText 0 (String.length n) n
      :: Token.mk TokenTypeEquals (String.length n) (S (String.length n)) "="
      :: Token.mk TokenTypeText (S (String.length n))
           (S (String.length n) + String.length v) v
      :: tokensFrom (n +:+ "=" +:+ v +:+ rest)
           (S (String.length n) + String.length v) None.
Proof.
  intros Hn Hv Hrest. rewrite Tokenize_word_equals by exact Hn. do 2 f_equal.
  apply (word_token _ (n +:+ "=") v rest); auto.
  - now rewrite !app_assoc_str.
  - rewrite length_app. cbn [String.length]. now rewrite Nat.add_1_r.
Qed.

Lemma Parse_word_value (n v : string) :
  isWord n = true -> isWord v = true ->
  Parse (n +:+ "=" +:+ v) = [Directive.mk n v true].
Proof.
  intros Hn Hv. pose proof (Tokenize_word_value n v "" Hn Hv eq_refl) as HT.
  rewrite app_empty_r in HT. rewrite end_token in HT.
  - exact (Parse_name_value _ _ _ _ _ _ _ Hn HT).
  - rewrite length_app. cbn [String.length]. rewrite length_app. cbn. lia.
Qed.

Lemma Tokenize_quoted_value (n v rest : string) :
  isWord n = true -> allBytes plainByte v = true ->
  Tokenize (n +:+ "=" +:+ String dquote (v +:+ String dquote rest)) =
    Token.mk TokenTypeText 0 (String.length n) n
      :: Token.mk TokenTypeEquals (String.length n) (S (String.length n)) "="
      :: Token.mk TokenTypeText (S (String.length n))
           (S (String.length n) + String.length v + 2) v
      :: tokensFrom (n +:+ "=" +:+ String dquote (v +:+ String dquote rest))
           (S (String.length n) + String.length v + 2) None.
Proof.
  intros Hn Hv. rewrite Tokenize_word_equals by exact Hn. do 2 f_equal.
  pose proof (tokensFrom_quoted (n +:+ "=") v rest v (unescape_plain v Hv)) as H.
  rewrite app_assoc_str, length_app in H. cbn [String.length] in H.
  rewrite Nat.add_1_r in H. exact H.
Qed.

Lemma quoted_length (n v : string) :
  String.length (n +:+ "=" +:+ String dquote (v +:+ String dquote "")) =
    (S (String.length n) + String.length v + 2)%nat.
Proof.
  rewrite !length_app. cbn [String.length]. rewrite length_app. cbn [String.length].
  lia.
Qed.

Lemma Parse_quoted_value (n v : string) :
  isWord n = true -> allBytes plainByte v = true ->
  Parse (n +:+ "=" +:+ String dquote (v +:+ String dquote "")) = [Directive.mk n v true].
Proof.
  intros Hn Hv. pose proof (Tokenize_quoted_value n v "" Hn Hv) as HT.
  rewrite end_token in HT by (symmetry; apply quoted_length).
  exact (Parse_name_value _ _ _ _ _ _ _ Hn HT).
Qed.

(** A quoted value protects its commas, and the comma after it separates. *)
Lemma separable_quoted_value (n v : string) :
  isWord n = true -> allBytes plainByte v = true ->
  separable (n +:+ "=" +:+ String dquote (v +:+ String dquote "")).
Proof.
  intros Hn Hv b.
  set (a := n +:+ "=" +:+ String dquote (v +:+ String dquote "")).
  assert (Ha : a +:+ String "," b =
               n +:+ "=" +:+ String dquote (v +:+ String dquote (String "," b))).
  { subst a. rewrite !app_assoc_str. do 2 f_equal. rewrite app_cons. f_equal.
    now rewrite app_assoc_str. }
  pose proof (Tokenize_quoted_value n v "" Hn Hv) as HT. fold a in HT.
  rewrite end_token in HT by (symmetry; apply quoted_length).
  rewrite HT. cbn [app].
  pose proof (tokensFrom_comma a b) as HC. rewrite <- HC.
  rewrite Ha, Tokenize_quoted_value by assumption. rewrite <- Ha.
  now rewrite <- (quoted_length n v).
Qed.

End Parts.

Section Written.

Lemma writes_flag (w : string) : isWord w = true -> writes w (flagDirective w).
Proof.
  intros Hw. split; [apply separable_plain, isWord_notQuote, Hw|apply Parse_flag, Hw].
Qed.

Lemma writes_age (name : string) (d : Z) :
  isWord name = true -> isDuration d ->
  writes (name +:+ "=" +:+ secondsOf d) (ageDirective name d).
Proof.
  intros Hname Hd. pose proof (isDigits_word _ (secondsOf_digits d Hd)) as Hw. split.
  - apply separable_plain. rewrite !allBytes_app.
    now rewrite (isWord_notQuote _ Hname), (isWord_notQuote _ Hw).
  - now apply Parse_word_value.
Qed.

Lemma writes_quoted (name value : string) :
  isWord name = true -> allBytes plainByte value = true ->
  writes (name +:+ String "=" (String dquote EmptyString) +:+ value
            +:+ String dquote EmptyString)
         (Directive.mk name value true).
Proof.
  intros Hname Hvalue.
  split; [apply (separable_quoted_value name value)|apply (Parse_quoted_value name value)];
    assumption.
Qed.

Lemma writes_extension (e : ExtensionDirective.t) :
  printable e -> writes (ExtensionString e) (ofExtension e).
Proof.
  destruct e as [name value hasValue]. unfold printable, ExtensionString, ofExtension.
  cbn [ExtensionDirective.Name ExtensionDirective.Value ExtensionDirective.HasValue].
  intros [Hname Hvalue]. destruct hasValue.
  - now apply writes_quoted.
  - subst value. now apply writes_flag.
Qed.

Lemma nameByte_plain (c : ascii) : nameByte c = true -> plainByte c = true.
Proof. unfold nameByte. intros H. now apply andb_prop in H as [_ H]. Qed.

Lemma nameByte_ascii (c : ascii) :
  nameByte c = true -> Nat.ltb (nat_of_ascii c) 128 = true.
Proof.
  unfold nameByte. intros H. apply andb_prop in H as [H _].
  now apply andb_prop in H as [H _].
Qed.

Lemma nameByte_not_space (c : ascii) : nameByte c = true -> asciiSpace c = false.
Proof.
  unfold nameByte. intros H. apply andb_prop in H as [H _].
  apply andb_prop in H as [_ H]. now destruct (asciiSpace c).
Qed.

Lemma isASCII_allBytes (s : string) :
  isASCII s = allBytes (fun c => Nat.ltb (nat_of_ascii c) 128) s.
Proof. induction s as [|c s IH]; [reflexivity|]. cbn [isASCII allBytes]. now rewrite IH. Qed.

Lemma join_all (p : ascii -> bool) (hs : list string) :
  p " "%char = true -> Forall (fun h => allBytes p h = true) hs ->
  allBytes p (StringsJoin hs " ") = true.
Proof.
  intros Hspace. induction hs as [|h hs IH]; intros Hall; [reflexivity|].
  apply Forall_cons in Hall as [Hh Hall]. specialize (IH Hall).
  destruct hs as [|h' hs]; [exact Hh|].
  change (StringsJoin (h :: h' :: hs) " ") with (h +:+ String " " (StringsJoin (h' :: hs) " ")).
  rewrite allBytes_app. cbn [allBytes]. now rewrite Hh, Hspace, IH.
Qed.

Lemma names_all (p : ascii -> bool) (hs : list string) :
  (forall c, nameByte c = true -> p c = true) ->
  Forall (fun h => isHeaderName h = true) hs ->
  Forall (fun h => allBytes p h = true) hs.
Proof.
  intros Hp Hall. eapply Forall_impl; [exact Hall|]. intros h Hh.
  apply andb_prop in Hh as [_ Hh]. exact (allBytes_impl _ _ _ Hp Hh).
Qed.

Lemma join_plain (hs : list string) :
  Forall (fun h => isHeaderName h = true) hs ->
  allBytes plainByte (StringsJoin hs " ") = true.
Proof.
  intros Hall. apply join_all; [reflexivity|]. exact (names_all _ _ nameByte_plain Hall).
Qed.

Lemma join_ascii (hs : list string) :
  Forall (fun h => isHeaderName h = true) hs -> isASCII (StringsJoin hs " ") = true.
Proof.
  intros Hall. rewrite isASCII_allBytes. apply join_all; [reflexivity|].
  exact (names_all _ _ nameByte_ascii Hall).
Qed.

Lemma fieldsFrom_name (h rest field : string) :
  allBytes nameByte h = true ->
  fieldsFrom (h +:+ rest) field = fieldsFrom rest (field +:+ h).
Proof.
  revert field. induction h as [|c h IH]; intros field Hall.
  { now rewrite app_nil_l, app_empty_r. }
  cbn [allBytes] in Hall. apply andb_prop in Hall as [Hc Hall].
  rewrite app_cons. cbn [fieldsFrom]. rewrite (nameByte_not_space c Hc).
  rewrite (IH _ Hall). now rewrite app_assoc_str.
Qed.

Lemma fieldsFrom_join (hs : list string) :
  Forall (fun h => isHeaderName h = true) hs -> (0 < length hs)%nat ->
  fieldsFrom (StringsJoin hs " ") "" = hs.
Proof.
  induction hs as [|h hs IH]; intros Hall Hlen; [cbn in Hlen; lia|].
  apply Forall_cons in Hall as [Hh Hall]. apply andb_prop in Hh as [Hne Hh].
  apply nonempty_eqb in Hne. destruct hs as [|h' hs].
  - cbn [StringsJoin]. rewrite <- (app_empty_r h) at 1.
    rewrite (fieldsFrom_name h "" "" Hh), app_nil_l. cbn [fieldsFrom]. now rewrite Hne.
  - change (StringsJoin (h :: h' :: hs) " ") with (h +:+ String " " (StringsJoin (h' :: hs) " ")).
    rewrite (fieldsFrom_name h _ "" Hh), app_nil_l. cbn [fieldsFrom].
    change (asciiSpace " ") with true. cbv iota. rewrite Hne. f_equal.
    apply IH; [exact Hall|cbn; lia].
Qed.

(** Header names joined by spaces are the fields of the joined string. *)
Lemma Fields_join (hs : list string) :
  Forall (fun h => isHeaderName h = true) hs -> (0 < length hs)%nat ->
  Fields (StringsJoin hs " ") = hs.
Proof.
  intros Hall Hlen. unfold Fields. rewrite (join_ascii hs Hall).
  now apply fieldsFrom_join.
Qed.

Lemma writes_names (name : string) (headers : option (list string)) :
  isWord name = true ->
  Forall (fun h => isHeaderName h = true) (default [] headers) ->
  writes (namesPart name headers) (namesDirective name headers).
Proof.
  intros Hname Hall. unfold namesPart, namesDirective.
  destruct (Nat.ltb 0 (length (default [] headers))).
  - apply writes_quoted; [exact Hname|now apply join_plain].
  - now apply writes_flag.
Qed.

Lemma writes_when (cond : bool) (part : string) (d : Directive.t) :
  writes part d -> Forall2 writes (when cond part) (when cond d).
Proof.
  intros H. destruct cond; cbn [when]; [constructor; [exact H|constructor]|constructor].
Qed.

Lemma writes_extensions (names : list string) (extensions : list ExtensionDirective.t) :
  Forall (extensionFor names) extensions ->
  Forall2 writes (map ExtensionString extensions) (map ofExtension extensions).
Proof.
  induction 1 as [|e extensions [He _] _ IH]; cbn [map]; constructor; [|exact IH].
  now apply writes_extension.
Qed.

(** A header written part by part is read back directive by directive. *)
Lemma Parse_written (parts : list string) (ds : list Directive.t) :
  Forall2 writes parts ds -> Parse (StringsJoin parts ", ") = ds.
Proof.
  intros H. rewrite Parse_join.
  - induction H as [|part d parts ds [_ Hd] _ IH]; [reflexivity|].
    cbn [flat_map]. now rewrite Hd, IH.
  - induction H as [|part d parts ds [Hs _] _ IH]; constructor; assumption.
Qed.

(** A fold over a list in two pieces. *)
Lemma fold_chain {S : Type} (f : S -> Directive.t -> S) (l1 l2 : list Directive.t)
    (st st1 st2 : S) :
  fold_left f l1 st = st1 -> fold_left f l2 st1 = st2 ->
  fold_left f (l1 ++ l2) st = st2.
Proof. intros <- <-. apply fold_left_app. Qed.

Lemma appendIf_when (cond : bool) (ss : list string) (s : string) :
  appendIf cond ss s = ss ++ when cond s.
Proof. destruct cond; cbn; [reflexivity|now rewrite app_nil_r]. Qed.

Lemma appendExtensions_map (ss : list string) (extensions : list ExtensionDirective.t) :
  appendExtensions ss extensions = ss ++ map ExtensionString extensions.
Proof.
  unfold appendExtensions. revert ss.
  induction extensions as [|e extensions IH]; intros ss; cbn [fold_left map].
  - now rewrite app_nil_r.
  - now rewrite IH, <- app_assoc.
Qed.

Lemma toExtension_ofExtension (e : ExtensionDirective.t) : toExtension (ofExtension e) = e.
Proof. now destruct e. Qed.

End Written.

Section RequestWritten.

Local Open Scope Z_scope.

Lemma RequestString_parts (d : RequestDirectives.t) :
  RequestString d = StringsJoin (requestParts d) ", ".
Proof.
  unfold RequestString, requestParts. cbv zeta.
  rewrite appendExtensions_map, !appendIf_when, <- !app_assoc. reflexivity.
Qed.

Lemma requestWrites_ok (d : RequestDirectives.t) :
  writableRequest d -> Forall2 writes (requestParts d) (requestWrites d).
Proof.
  intros (H1 & H2 & H3 & Hext). unfold requestParts, requestWrites.
  repeat apply Forall2_app; try (apply writes_when; now apply writes_flag).
  - apply writes_when, (writes_age "max-age"); [reflexivity|exact H1].
  - apply writes_when, (writes_age "max-stale"); [reflexivity|exact H2].
  - apply writes_when, (writes_age "min-fresh"); [reflexivity|exact H3].
  - exact (writes_extensions _ _ Hext).
Qed.

Lemma request_max_age x c2 c3 b1 b2 b3 b4 exts errs :
  isDuration x ->
  fold_left requestDirective (when (x >? 0) (ageDirective "max-age" x))
    (RequestDirectives.mk 0 c2 c3 b1 b2 b3 b4 exts, errs) =
    (RequestDirectives.mk (wholeSeconds x) c2 c3 b1 b2 b3 b4 exts, errs).
Proof.
  intros Hx. destruct (x >? 0) eqn:E; cbn [when fold_left].
  - unfold requestDirective, ageDirective. cbn [Directive.Name Directive.Value].
    rewrite (ParseAge_secondsOf x Hx). reflexivity.
  - now rewrite (wholeSeconds_zero x Hx E).
Qed.

Lemma request_max_stale x c1 c3 b1 b2 b3 b4 exts errs :
  isDuration x ->
  fold_left requestDirective (when (x >? 0) (ageDirective "max-stale" x))
    (RequestDirectives.mk c1 0 c3 b1 b2 b3 b4 exts, errs) =
    (RequestDirectives.mk c1 (wholeSeconds x) c3 b1 b2 b3 b4 exts, errs).
Proof.
  intros Hx. destruct (x >? 0) eqn:E; cbn [when fold_left].
  - unfold requestDirective, ageDirective. cbn [Directive.Name Directive.Value].
    rewrite (ParseAge_secondsOf x Hx). reflexivity.
  - now rewrite (wholeSeconds_zero x Hx E).
Qed.

Lemma request_min_fresh x c1 c2 b1 b2 b3 b4 exts errs :
  isDuration x ->
  fold_left requestDirective (when (x >? 0) (ageDirective "min-fresh" x))
    (RequestDirectives.mk c1 c2 0 b1 b2 b3 b4 exts, errs) =
    (RequestDirectives.mk c1 c2 (wholeSeconds x) b1 b2 b3 b4 exts, errs).
Proof.
  intros Hx. destruct (x >? 0) eqn:E; cbn [when fold_left].
  - unfold requestDirective, ageDirective. cbn [Directive.Name Directive.Value].
    rewrite (ParseAge_secondsOf x Hx). reflexivity.
  - now rewrite (wholeSeconds_zero x Hx E).
Qed.

Lemma request_no_cache b c1 c2 c3 b2 b3 b4 exts errs :
  fold_left requestDirective (when b (flagDirective "no-cache"))
    (RequestDirectives.mk c1 c2 c3 false b2 b3 b4 exts, errs) =
    (RequestDirectives.mk c1 c2 c3 b b2 b3 b4 exts, errs).
Proof. now destruct b. Qed.

Lemma request_no_store b c1 c2 c3 b1 b3 b4 exts errs :
  fold_left requestDirective (when b (flagDirective "no-store"))
    (RequestDirectives.mk c1 c2 c3 b1 false b3 b4 exts, errs) =
    (RequestDirectives.mk c1 c2 c3 b1 b b3 b4 exts, errs).
Proof. now destruct b. Qed.

Lemma request_no_transform b c1 c2 c3 b1 b2 b4 exts errs :
  fold_left requestDirective (when b (flagDirective "no-transform"))
    (RequestDirectives.mk c1 c2 c3 b1 b2 false b4 exts, errs) =
    (RequestDirectives.mk c1 c2 c3 b1 b2 b b4 exts, errs).
Proof. now destruct b. Qed.

Lemma request_only_if_cached b c1 c2 c3 b1 b2 b3 exts errs :
  fold_left requestDirective (when b (flagDirective "only-if-cached"))
    (RequestDirectives.mk c1 c2 c3 b1 b2 b3 false exts, errs) =
    (RequestDirectives.mk c1 c2 c3 b1 b2 b3 b exts, errs).
Proof. now destruct b. Qed.

Lemma request_extension c1 c2 c3 b1 b2 b3 b4 exts errs (d : Directive.t) :
  named requestNames d = false ->
  requestDirective (RequestDirectives.mk c1 c2 c3 b1 b2 b3 b4 exts, errs) d =
    (RequestDirectives.mk c1 c2 c3 b1 b2 b3 b4 (exts ++ [toExtension d]), errs).
Proof.
  unfold requestDirective, named, requestNames. cbn [existsb].
  generalize (ToLower (Directive.Name d)); intros name.
  by_name; intros H; try discriminate H; reflexivity.
Qed.

Lemma request_extensions c1 c2 c3 b1 b2 b3 b4 errs (new : list ExtensionDirective.t) :
  Forall (extensionFor requestNames) new ->
  forall exts,
  fold_left requestDirective (map ofExtension new)
    (RequestDirectives.mk c1 c2 c3 b1 b2 b3 b4 exts, errs) =
    (RequestDirectives.mk c1 c2 c3 b1 b2 b3 b4 (exts ++ new), errs).
Proof.
  induction 1 as [|e new [_ He] _ IH]; intros exts; cbn [map fold_left].
  - now rewrite app_nil_r.
  - rewrite (request_extension _ _ _ _ _ _ _ _ _ _ He), IH, toExtension_ofExtension.
    now rewrite <- app_assoc.
Qed.

Lemma classifyRequest_written (d : RequestDirectives.t) :
  writableRequest d -> classifyRequest (requestWrites d) = (requestWritten d, []).
Proof.
  intros (H1 & H2 & H3 & Hext).
  unfold classifyRequest, requestWrites, requestWritten, RequestDirectives.zero.
  eapply fold_chain; [exact (request_max_age _ _ _ _ _ _ _ _ _ H1)|].
  eapply fold_chain; [exact (request_max_stale _ _ _ _ _ _ _ _ _ H2)|].
  eapply fold_chain; [exact (request_min_fresh _ _ _ _ _ _ _ _ _ H3)|].
  eapply fold_chain; [apply request_no_cache|].
  eapply fold_chain; [apply request_no_store|].
  eapply fold_chain; [apply request_no_transform|].
  eapply fold_chain; [apply request_only_if_cached|].
  exact (request_extensions _ _ _ _ _ _ _ _ _ Hext []).
Qed.

End RequestWritten.

Section ResponseWritten.

Local Open Scope Z_scope.

Lemma appendNames_when (flag : bool) (ss : list string) (name : string)
    (headers : option (list string)) :
  (if flag then appendNames ss name headers else ss) =
    ss ++ when flag (namesPart name headers).
Proof.
  destruct flag; cbn [when]; [|now rewrite app_nil_r].
  unfold appendNames, namesPart. now destruct (Nat.ltb 0 (length (default [] headers))).
Qed.

Lemma ResponseString_parts (d : ResponseDirectives.t) :
  ResponseString d = StringsJoin (responseParts d) ", ".
Proof.
  unfold ResponseString, responseParts. cbv zeta.
  rewrite appendExtensions_map.
  repeat first [rewrite appendIf_when | rewrite appendNames_when].
  rewrite <- !app_assoc. reflexivity.
Qed.

Lemma responseWrites_ok (d : ResponseDirectives.t) :
  writableResponse d -> Forall2 writes (responseParts d) (responseWrites d).
Proof.
  intros (H1 & H2 & Hnc & Hp & Hext). unfold responseParts, responseWrites.
  repeat apply Forall2_app; try (apply writes_when; now apply writes_flag).
  - apply writes_when, (writes_age "max-age"); [reflexivity|exact H1].
  - apply writes_when, writes_names; [reflexivity|exact Hnc].
  - apply writes_when, writes_names; [reflexivity|exact Hp].
  - apply writes_when, (writes_age "s-maxage"); [reflexivity|exact H2].
  - exact (writes_extensions _ _ Hext).
Qed.

Lemma response_max_age x f1 f2 f3 h3 f4 f5 f6 h6 f7 f8 a2 exts errs :
  isDuration x ->
  fold_left responseDirective (when (x >? 0) (ageDirective "max-age" x))
    (ResponseDirectives.mk 0 f1 f2 f3 h3 f4 f5 f6 h6 f7 f8 a2 exts, errs) =
    (ResponseDirectives.mk (wholeSeconds x) f1 f2 f3 h3 f4 f5 f6 h6 f7 f8 a2 exts, errs).
Proof.
  intros Hx. destruct (x >? 0) eqn:E; cbn [when fold_left].
  - unfold responseDirective, ageDirective. cbn [Directive.Name Directive.Value].
    rewrite (ParseAge_secondsOf x Hx). reflexivity.
  - now rewrite (wholeSeconds_zero x Hx E).
Qed.

Lemma response_s_maxage x a1 f1 f2 f3 h3 f4 f5 f6 h6 f7 f8 exts errs :
  isDuration x ->
  fold_left responseDirective (when (x >? 0) (ageDirective "s-maxage" x))
    (ResponseDirectives.mk a1 f1 f2 f3 h3 f4 f5 f6 h6 f7 f8 0 exts, errs) =
    (ResponseDirectives.mk a1 f1 f2 f3 h3 f4 f5 f6 h6 f7 f8 (wholeSeconds x) exts, errs).
Proof.
  intros Hx. destruct (x >? 0) eqn:E; cbn [when fold_left].
  - unfold responseDirective, ageDirective. cbn [Directive.Name Directive.Value].
    rewrite (ParseAge_secondsOf x Hx). reflexivity.
  - now rewrite (wholeSeconds_zero x Hx E).
Qed.

Lemma response_must_revalidate b a1 f2 f3 h3 f4 f5 f6 h6 f7 f8 a2 exts errs :
  fold_left responseDirective (when b (flagDirective "must-revalidate"))
    (ResponseDirectives.mk a1 false f2 f3 h3 f4 f5 f6 h6 f7 f8 a2 exts, errs) =
    (ResponseDirectives.mk a1 b f2 f3 h3 f4 f5 f6 h6 f7 f8 a2 exts, errs).
Proof. now destruct b. Qed.

Lemma response_must_understand b a1 f1 f3 h3 f4 f5 f6 h6 f7 f8 a2 exts errs :
  fold_left responseDirective (when b (flagDirective "must-understand"))
    (ResponseDirectives.mk a1 f1 false f3 h3 f4 f5 f6 h6 f7 f8 a2 exts, errs) =
    (ResponseDirectives.mk a1 f1 b f3 h3 f4 f5 f6 h6 f7 f8 a2 exts, errs).
Proof. now destruct b. Qed.

Lemma response_no_cache b hs a1 f1 f2 f4 f5 f6 h6 f7 f8 a2 exts errs :
  Forall (fun h => isHeaderName h = true) (default [] hs) ->
  fold_left responseDirective (when b (namesDirective "no-cache" hs))
    (ResponseDirectives.mk a1 f1 f2 false None f4 f5 f6 h6 f7 f8 a2 exts, errs) =
    (ResponseDirectives.mk a1 f1 f2 b (namesWritten b hs) f4 f5 f6 h6 f7 f8 a2 exts, errs).
Proof.
  intros Hall. destruct b; cbn [when fold_left]; [|reflexivity].
  unfold namesDirective, namesWritten. cbn [andb].
  destruct (Nat.ltb_spec 0 (length (default [] hs))); [|reflexivity].
  unfold responseDirective. cbn [Directive.Name Directive.Value Directive.HasValue].
  rewrite (Fields_join _ Hall) by assumption. reflexivity.
Qed.

Lemma response_no_store b a1 f1 f2 f3 h3 f5 f6 h6 f7 f8 a2 exts errs :
  fold_left responseDirective (when b (flagDirective "no-store"))
    (ResponseDirectives.mk a1 f1 f2 f3 h3 false f5 f6 h6 f7 f8 a2 exts, errs) =
    (ResponseDirectives.mk a1 f1 f2 f3 h3 b f5 f6 h6 f7 f8 a2 exts, errs).
Proof. now destruct b. Qed.

Lemma response_no_transform b a1 f1 f2 f3 h3 f4 f6 h6 f7 f8 a2 exts errs :
  fold_left responseDirective (when b (flagDirective "no-transform"))
    (ResponseDirectives.mk a1 f1 f2 f3 h3 f4 false f6 h6 f7 f8 a2 exts, errs) =
    (ResponseDirectives.mk a1 f1 f2 f3 h3 f4 b f6 h6 f7 f8 a2 exts, errs).
Proof. now destruct b. Qed.

Lemma response_private b hs a1 f1 f2 f3 h3 f4 f5 f7 f8 a2 exts errs :
  Forall (fun h => isHeaderName h = true) (default [] hs) ->
  fold_left responseDirective (when b (namesDirective "private" hs))
    (ResponseDirectives.mk a1 f1 f2 f3 h3 f4 f5 false None f7 f8 a2 exts, errs) =
    (ResponseDirectives.mk a1 f1 f2 f3 h3 f4 f5 b (namesWritten b hs) f7 f8 a2 exts, errs).
Proof.
  intros Hall. destruct b; cbn [when fold_left]; [|reflexivity].
  unfold namesDirective, namesWritten. cbn [andb].
  destruct (Nat.ltb_spec 0 (length (default [] hs))); [|reflexivity].
  unfold responseDirective. cbn [Directive.Name Directive.Value Directive.HasValue].
  rewrite (Fields_join _ Hall) by assumption. reflexivity.
Qed.

Lemma response_proxy_revalidate b a1 f1 f2 f3 h3 f4 f5 f6 h6 f8 a2 exts errs :
  fold_left responseDirective (when b (flagDirective "proxy-revalidate"))
    (ResponseDirectives.mk a1 f1 f2 f3 h3 f4 f5 f6 h6 false f8 a2 exts, errs) =
    (ResponseDirectives.mk a1 f1 f2 f3 h3 f4 f5 f6 h6 b f8 a2 exts, errs).
Proof. now destruct b. Qed.

Lemma response_public b a1 f1 f2 f3 h3 f4 f5 f6 h6 f7 a2 exts errs :
  fold_left responseDirective (when b (flagDirective "public"))
    (ResponseDirectives.mk a1 f1 f2 f3 h3 f4 f5 f6 h6 f7 false a2 exts, errs) =
    (ResponseDirectives.mk a1 f1 f2 f3 h3 f4 f5 f6 h6 f7 b a2 exts, errs).
Proof. now destruct b. Qed.

Lemma response_extension a1 f1 f2 f3 h3 f4 f5 f6 h6 f7 f8 a2 exts errs (d : Directive.t) :
  named responseNames d = false ->
  responseDirective
    (ResponseDirectives.mk a1 f1 f2 f3 h3 f4 f5 f6 h6 f7 f8 a2 exts, errs) d =
    (ResponseDirectives.mk a1 f1 f2 f3 h3 f4 f5 f6 h6 f7 f8 a2 (exts ++ [toExtension d]),
     errs).
Proof.
  unfold responseDirective, named, responseNames. cbn [existsb].
  generalize (ToLower (Directive.Name d)); intros name.
  by_name; intros H; try discriminate H; reflexivity.
Qed.

Lemma response_extensions a1 f1 f2 f3 h3 f4 f5 f6 h6 f7 f8 a2 errs
    (new : list ExtensionDirective.t) :
  Forall (extensionFor responseNames) new ->
  forall exts,
  fold_left responseDirective (map ofExtension new)
    (ResponseDirectives.mk a1 f1 f2 f3 h3 f4 f5 f6 h6 f7 f8 a2 exts, errs) =
    (ResponseDirectives.mk a1 f1 f2 f3 h3 f4 f5 f6 h6 f7 f8 a2 (exts ++ new), errs).
Proof.
  induction 1 as [|e new [_ He] _ IH]; intros exts; cbn [map fold_left].
  - now rewrite app_nil_r.
  - rewrite (response_extension _ _ _ _ _ _ _ _ _ _ _ _ _ _ _ He), IH,
      toExtension_ofExtension.
    now rewrite <- app_assoc.
Qed.

Lemma classifyResponse_written (d : ResponseDirectives.t) :
  writableResponse d -> classifyResponse (responseWrites d) = (responseWritten d, []).
Proof.
  intros (H1 & H2 & Hnc & Hp & Hext).
  unfold classifyResponse, responseWrites, responseWritten, ResponseDirectives.zero.
  eapply fold_chain; [exact (response_max_age _ _ _ _ _ _ _ _ _ _ _ _ _ _ H1)|].
  eapply fold_chain; [apply response_must_revalidate|].
  eapply fold_chain; [apply response_must_understand|].
  eapply fold_chain; [exact (response_no_cache _ _ _ _ _ _ _ _ _ _ _ _ _ _ Hnc)|].
  eapply fold_chain; [apply response_no_store|].
  eapply fold_chain; [apply response_no_transform|].
  eapply fold_chain; [exact (response_private _ _ _ _ _ _ _ _ _ _ _ _ _ _ Hp)|].
  eapply fold_chain; [apply response_proxy_revalidate|].
  eapply fold_chain; [apply response_public|].
  eapply fold_chain; [exact (response_s_maxage _ _ _ _ _ _ _ _ _ _ _ _ _ _ H2)|].
  exact (response_extensions _ _ _ _ _ _ _ _ _ _ _ _ _ _ Hext []).
Qed.

End ResponseWritten.

(** What [ExtensionDirective.String] writes, [Parse] reads back as the same
    single directive, for every extension whose name is a word and whose
    value holds neither quote nor backslash; commas, spaces and equals signs
    in the value are protected by the quotes. *)
Theorem ExtensionString_round_trip (e : ExtensionDirective.t) :
  printable e -> map toExtension (Parse (ExtensionString e)) = [e].
Proof.
  intros He. destruct (writes_extension e He) as [_ ->]. cbn [map].
  now rewrite toExtension_ofExtension.
Qed.

(** [ParseRequestDirectives] reads back what [RequestDirectives.String]
    writes, without error: the flags and the extensions as they are, the
    durations cut down to whole seconds. The durations must not be negative,
    and the extensions must be writable and must not bear the name of a
    standard directive. *)
Theorem RequestString_round_trip (d : RequestDirectives.t) :
  writableRequest d ->
  ParseRequestDirectives (RequestString d) = (requestWritten d, None).
Proof.
  intros Hd. unfold ParseRequestDirectives.
  rewrite RequestString_parts, (Parse_written _ _ (requestWrites_ok d Hd)).
  now rewrite (classifyRequest_written d Hd).
Qed.

(** [ParseResponseDirectives] reads back what [ResponseDirectives.String]
    writes, without error: the flags and the extensions as they are, the
    durations cut down to whole seconds, and the header names of [no-cache]
    and [private] where the directive is set and has names. Header names
    must be non-empty and free of spaces, quotes and backslashes. *)
Theorem ResponseString_round_trip (d : ResponseDirectives.t) :
  writableResponse d ->
  ParseResponseDirectives (ResponseString d) = (responseWritten d, None).
Proof.
  intros Hd. unfold ParseResponseDirectives.
  rewrite ResponseString_parts, (Parse_written _ _ (responseWrites_ok d Hd)).
  now rewrite (classifyResponse_written d Hd).
Qed.

End Library.

(* ================================================================= *)
(** * Sample inputs *)

#[local] Existing Instance sampleUnicode.

(** * The theorems at sample inputs *)

(** C1 at the request [GET] with [Authorization: Basic ...] and the response
    200 with [Cache-Control: max-age=100]. *)
Lemma CanStore_authorization_veto_sample :
  CanStore rejectTime Config.zero sampleAuthorizedGet (sampleResponse "max-age=100") = false.
Proof.
  apply (CanStore_authorization_veto rejectTime Config.zero sampleAuthorizedGet
           (sampleResponse "max-age=100") "Basic dXNlcjpwYXNz" []).
  - reflexivity.
  - reflexivity.
  - reflexivity.
  - reflexivity.
  - vm_compute. intros H. discriminate H.
Defined.

(** C2 at [GET] and the response 200 with [Cache-Control: private]. *)
Lemma CanStore_private_directive_sample :
  CanStore rejectTime Config.zero sampleGet (sampleResponse "private") = false /\
  CanStore rejectTime privateConfig sampleGet (sampleResponse "private") = true.
Proof.
  split.
  - apply (CanStore_private_directive rejectTime Config.zero sampleGet
             (sampleResponse "private") (Directive.mk "private" "" false));
      reflexivity.
  - apply (CanStore_private_directive rejectTime privateConfig sampleGet
             (sampleResponse "private") (Directive.mk "private" "" false));
      try reflexivity.
    intros [H|H]; vm_compute in H; discriminate H.
Defined.

(** C3 at [GET] and the response 200, both without headers. *)
Lemma CanStore_heuristic_default_sample :
  CanStore rejectTime Config.zero sampleGet samplePlainResponse = true.
Proof.
  apply (CanStore_heuristic_default rejectTime sampleGet samplePlainResponse);
    reflexivity.
Defined.

(** C4 at twenty digits: the value is 3 * 2^63, and the last step of the
    accumulation wraps around to 2^63 without [d1 < d] noticing. *)
Lemma ParseAge_saturates_sample :
  parseDeltaSeconds "27670116110564327424" = inl (2 ^ 63)%Z /\
  ParseAge "27670116110564327424" = inl MaxInt64.
Proof.
  split; [reflexivity|].
  apply (ParseAge_saturates "27670116110564327424"); reflexivity.
Defined.




(** * The further properties at sample inputs *)

Lemma ParseAge_range_sample :
  ParseAge "32" = inl (32 * Second)%Z /\
  (0 <= 32 * Second <= MaxInt64)%Z /\
  (32 * Second = MaxInt64 \/ ((32 * Second) mod Second = 0))%Z.
Proof.
  split; [reflexivity|]. apply (ParseAge_range "32"). reflexivity.
Defined.

Lemma Age_by_number_of_values_sample :
  Age (Response.mk 200 {[ "Age" := ["1234"; "1234"] ]} ∅) = inr errInvalidDeltaSeconds.
Proof.
  apply (proj2 (proj2 (Age_by_number_of_values
                         (Response.mk 200 {[ "Age" := ["1234"; "1234"] ]} ∅)))
           "1234" "1234" []).
  reflexivity.
Defined.

Lemma CanStore_necessary_sample :
  supportedRequestMethod Config.zero "GET" = true /\
  (200 <= 200)%Z /\
  ResponseDirectives.NoStore (fst (ResponseDirectivesOf samplePlainResponse)) = false.
Proof.
  destruct (CanStore_necessary rejectTime Config.zero sampleGet samplePlainResponse)
    as (H1 & H2 & H3 & _); [reflexivity|].
  exact (conj H1 (conj H2 H3)).
Defined.

Lemma CanStore_modes_agree_sample :
  CanStore rejectTime (withPrivate false Config.zero) sampleGet (sampleResponse "max-age=100") =
  CanStore rejectTime (withPrivate true Config.zero) sampleGet (sampleResponse "max-age=100").
Proof.
  apply (CanStore_modes_agree rejectTime Config.zero sampleGet (sampleResponse "max-age=100")).
  - reflexivity.
  - vm_compute. intros H. discriminate H.
  - reflexivity.
Defined.

(** A 201 response, which is not heuristically cacheable, with [s-maxage]
    as its only signal. *)
Lemma CanStore_s_maxage_is_for_shared_caches_sample :
  CanStore rejectTime (withPrivate true Config.zero) sampleAuthorizedGet
    (Response.mk 201 {[ "Cache-Control" := ["s-maxage=60"] ]} ∅) = false /\
  CanStore rejectTime (withPrivate false Config.zero) sampleAuthorizedGet
    (Response.mk 201 {[ "Cache-Control" := ["s-maxage=60"] ]} ∅) = true.
Proof.
  destruct (CanStore_s_maxage_is_for_shared_caches rejectTime Config.zero
              sampleAuthorizedGet
              (Response.mk 201 {[ "Cache-Control" := ["s-maxage=60"] ]} ∅))
    as [Hprivate Hshared];
    try reflexivity; try (vm_compute; intros H; discriminate H).
  split; [exact Hprivate|].
  apply Hshared; try reflexivity; try (vm_compute; intros H; discriminate H).
  intros [H|[H|H]]; vm_compute in H; discriminate H.
Defined.

Lemma RemoveUnstorableHeaders_removes_exactly_sample :
  RemoveUnstorableHeaders sampleCanonical Config.zero sampleHeaders !! "X-Trace" = None /\
  RemoveUnstorableHeaders sampleCanonical Config.zero sampleHeaders !! "Content-Type" =
    Some ["text/plain"].
Proof.
  destruct (RemoveUnstorableHeaders_removes_exactly sampleCanonical Config.zero sampleHeaders)
    as [Hgone Hkept].
  split.
  - apply Hgone. apply (proj1 (bool_decide_eq_true _)). vm_compute. reflexivity.
  - rewrite Hkept; [reflexivity|].
    apply (proj1 (bool_decide_eq_false _)). vm_compute. reflexivity.
Defined.

Section SortingStrings.

Lemma stringLt_iff (a b : string) : stringLt a b <-> OrderedTypeEx.String_as_OT.lt a b.
Proof.
  unfold stringLt, String.ltb. rewrite <- OrderedTypeEx.String_as_OT.cmp_lt.
  unfold OrderedTypeEx.String_as_OT.cmp.
  destruct (String.compare a b); split; intros H; try reflexivity; discriminate H.
Qed.

Lemma stringLe_cases (a b : string) : stringLe a b <-> a = b \/ stringLt a b.
Proof.
  split.
  - intros H. destruct (String.eqb_spec a b) as [->|Hne]; [now left|].
    right. now apply stringLe_lt.
  - intros [->|H]; [|now apply stringLt_le].
    unfold stringLe, String.leb. now rewrite compare_refl.
Qed.

Lemma stringLe_trans : Transitive stringLe.
Proof.
  intros a b c Hab Hbc. apply stringLe_cases in Hab, Hbc. apply stringLe_cases.
  destruct Hab as [->|Hab]; [exact Hbc|]. destruct Hbc as [<-|Hbc]; [now right|].
  right. apply stringLt_iff. apply stringLt_iff in Hab, Hbc.
  eapply OrderedTypeEx.String_as_OT.lt_trans; eassumption.
Qed.

Lemma stringLe_total : Total stringLe.
Proof. intros a b. apply String.leb_total. Qed.

Lemma sampleSort_ok :
  (forall l, sampleSort l ≡ₚ l) /\ (forall l, StronglySorted stringLe (sampleSort l)).
Proof.
  split; intros l; unfold sampleSort.
  - apply merge_sort_Permutation.
  - apply (@StronglySorted_merge_sort string stringLe stringLe_dec
             stringLe_trans stringLe_total).
Qed.

End SortingStrings.

Lemma Vary_is_the_sorted_set_of_names_sample :
  Vary sampleCanonical sampleSort sampleVaryResponse =
    Some ["Header-1"; "Header-2"; "Header-3"] /\
  StronglySorted stringLt ["Header-1"; "Header-2"; "Header-3"].
Proof.
  pose proof (Vary_is_the_sorted_set_of_names sampleCanonical sampleSort sampleVaryResponse
                (proj1 sampleSort_ok) (proj2 sampleSort_ok)) as H.
  assert (E : Vary sampleCanonical sampleSort sampleVaryResponse =
              Some ["Header-1"; "Header-2"; "Header-3"]) by (vm_compute; reflexivity).
  rewrite E in H. exact (conj E (proj1 (proj2 H))).
Defined.

Lemma Parse_separators_only_sample : Parse " , ,, " = [].
Proof. apply (Parse_separators_only " , ,, "). reflexivity. Defined.

Lemma Tokenize_texts_rebuild_input_sample :
  concatTexts (Tokenize "no-cache,  max-age=60 ,x") = "no-cache,  max-age=60 ,x".
Proof. apply (Tokenize_texts_rebuild_input "no-cache,  max-age=60 ,x"). reflexivity. Defined.

(** The content a, backslash, quote, b between quotes, after [x=]. *)
Lemma Tokenize_quoted_string_sample :
  Tokenize ("x=" +:+ String dquote
              (String "a" (String backslash (String dquote "b")) +:+ String dquote ", y")) =
    [Token.mk TokenTypeText 0 1 "x"; Token.mk TokenTypeEquals 1 2 "="]
    ++ Token.mk TokenTypeText 2 8 (String "a" (String dquote "b"))
    :: tokensFrom
         ("x=" +:+ String dquote
            (String "a" (String backslash (String dquote "b")) +:+ String dquote ", y"))
         8 None.
Proof.
  apply (Tokenize_quoted_string "x=" (String "a" (String backslash (String dquote "b")))
           ", y" (String "a" (String dquote "b"))
           [Token.mk TokenTypeText 0 1 "x"; Token.mk TokenTypeEquals 1 2 "="]);
    reflexivity.
Defined.

Lemma ExtensionString_round_trip_sample :
  ExtensionString (ExtensionDirective.mk "stale-if-error" "a, b=c" true) =
    "stale-if-error=" +:+ String dquote "a, b=c" +:+ String dquote "" /\
  map toExtension
    (Parse (ExtensionString (ExtensionDirective.mk "stale-if-error" "a, b=c" true))) =
    [ExtensionDirective.mk "stale-if-error" "a, b=c" true].
Proof.
  split; [reflexivity|].
  apply (ExtensionString_round_trip (ExtensionDirective.mk "stale-if-error" "a, b=c" true)).
  split; reflexivity.
Defined.

Lemma Parse_comma_sample :
  Parse ("no-store" +:+ String "," "max-age=5") =
    [Directive.mk "no-store" "" false; Directive.mk "max-age" "5" true].
Proof. apply (Parse_comma "no-store" "max-age=5"). reflexivity. Defined.

Lemma Parse_leading_whitespace_sample :
  Parse ("  " +:+ "no-cache") = [Directive.mk "no-cache" "" false].
Proof. apply (Parse_leading_whitespace "  " "no-cache"). reflexivity. Defined.

Lemma Parse_joined_values_sample :
  Parse (StringsJoin ["no-store"; "max-age=5 , public"; ""; "x = y z"] ", ") =
    [Directive.mk "no-store" "" false; Directive.mk "max-age" "5" true;
     Directive.mk "public" "" false; Directive.mk "x" "y z" true].
Proof.
  apply (Parse_joined_values ["no-store"; "max-age=5 , public"; ""; "x = y z"]).
  repeat constructor.
Defined.

Lemma RequestString_round_trip_sample :
  ParseRequestDirectives (RequestString sampleRequestDirectives) =
    (RequestDirectives.mk 90000000000 0 5000000000 true false false true
       [ExtensionDirective.mk "stale-if-error" "a, b=c" true;
        ExtensionDirective.mk "immutable" "" false],
     None).
Proof.
  apply (RequestString_round_trip sampleRequestDirectives).
  repeat split; try (vm_compute; intros H; discriminate H).
  repeat constructor.
Defined.

Lemma ResponseString_round_trip_sample :
  ParseResponseDirectives (ResponseString sampleResponseDirectives) =
    (ResponseDirectives.mk 3600000000000 true false true (Some ["Set-Cookie"; "X-Trace"])
       false true true None false false 1000000000
       [ExtensionDirective.mk "immutable" "" false;
        ExtensionDirective.mk "stale-while-revalidate" "30" true],
     None).
Proof.
  apply (ResponseString_round_trip sampleResponseDirectives).
  repeat split; try (vm_compute; intros H; discriminate H); repeat constructor.
Defined.
